(** * Kindle notebook export parser and Markdown renderer

    A shallow embedding of the notebook parser ([parseKindleHtml]) and of
    the report renderer ([kindleNotebookToMarkdown]), with the regular
    expressions of the source kept as syntax trees and run by a small
    backtracking matcher that follows the ECMAScript matching order.
    The bot's command parser ([parseCommand]) and the sender address
    extraction of the mail reader ([extractEmailAddress]) are embedded
    the same way. *)

From Stdlib Require Import NArith List String Ascii Bool Lia DecimalString.
From stdpp Require Import base list.
Import ListNotations.

Local Open Scope N_scope.
Local Open Scope list_scope.

(** ** Strings

    A JavaScript string is a sequence of UTF-16 code units. *)

Module JS.

Abbreviation jsstring := (list N).

(** An ASCII literal of the source, as code units. *)
Definition str (s : string) : jsstring :=
  List.map N_of_ascii (list_ascii_of_string s).
Arguments str s%_string.

(** The falsy optional strings are [undefined] and the empty string. *)
Definition truthy (o : option jsstring) : bool :=
  match o with
  | Some (_ :: _) => true
  | _ => false
  end.

(** [WhiteSpace] and [LineTerminator] code units: what [\s] matches and
    what [String.prototype.trim] removes. *)
Definition isSpace (c : N) : bool :=
  ((9 <=? c) && (c <=? 13)) || (c =? 32) || (c =? 160) || (c =? 5760)
  || ((8192 <=? c) && (c <=? 8202)) || (c =? 8232) || (c =? 8233)
  || (c =? 8239) || (c =? 8287) || (c =? 12288) || (c =? 65279).

(** [\d] *)
Definition isDigit (c : N) : bool := (48 <=? c) && (c <=? 57).

(** [\w], the word characters that [\b] looks at *)
Definition isWord (c : N) : bool :=
  ((97 <=? c) && (c <=? 122)) || ((65 <=? c) && (c <=? 90))
  || isDigit c || (c =? 95).

(** [Canonicalize] of a pattern without the [u] flag, restricted to what
    the patterns of this program need: every literal of theirs is ASCII,
    and a code unit from 128 on never canonicalizes to an ASCII one, so
    only the ASCII letters change. *)
Definition canon (c : N) : N :=
  if (97 <=? c) && (c <=? 122) then c - 32 else c.

Fixpoint trimStart (s : jsstring) : jsstring :=
  match s with
  | c :: s' => if isSpace c then trimStart s' else s
  | [] => []
  end.

Definition trim (s : jsstring) : jsstring :=
  rev (trimStart (rev (trimStart s))).

(** [Array.prototype.join] *)
Fixpoint join (sep : jsstring) (l : list jsstring) : jsstring :=
  match l with
  | [] => []
  | [x] => x
  | x :: l' => x ++ sep ++ join sep l'
  end.

(** Decimal rendering of a non-negative integer, as [`${n}`] gives it. *)
Definition ofNat (n : nat) : jsstring :=
  str (NilEmpty.string_of_uint (Nat.to_uint n)).

End JS.
Import JS.

(** ** Regular expressions *)

Module RegExp.

(** The fragment of the pattern language the source uses. Quantifiers
    are only ever applied to a single character class there. *)
Inductive regex : Type :=
| Lit (l : jsstring)                 (* a run of literal characters *)
| Cls (p : N -> bool)                (* one character of a class *)
| Seq (a b : regex)
| Alt (a b : regex)
| Star (greedy : bool) (p : N -> bool)   (* [p*] and [p*?] *)
| Plus (p : N -> bool)               (* [p+] *)
| Grp (n : nat) (a : regex)          (* capture group number [n] *)
| Bol                                (* [^] *)
| Wb.                                (* [\b] *)

Record RegExp := mkRegExp { source : regex; ignoreCase : bool }.

Definition captures := nat -> option jsstring.

Definition no_captures : captures := fun _ => None.

Definition set_capture (n : nat) (t : jsstring) (c : captures) : captures :=
  fun m => if Nat.eqb m n then Some t else c m.

(** A position in the subject: the code units before it, nearest first,
    those from it on, and the captures so far. *)
Record mstate := MState {
  m_pre : list N;
  m_suf : list N;
  m_caps : captures
}.

Definition chr_eq (ic : bool) (a x : N) : bool :=
  if ic then canon a =? canon x else a =? x.

Fixpoint lit_run (ic : bool) (l pre suf : list N) : option (list N * list N) :=
  match l with
  | [] => Some (pre, suf)
  | a :: l' =>
      match suf with
      | x :: suf' => if chr_eq ic a x then lit_run ic l' (x :: pre) suf' else None
      | [] => None
      end
  end.

Definition or_else {A} (x : option A) (y : option A) : option A :=
  match x with Some _ => x | None => y end.

(** A greedy quantifier tries one more character before the
    continuation, a lazy one the continuation first. *)
Fixpoint star_run {A} (greedy : bool) (p : N -> bool)
    (k : list N -> list N -> option A) (pre suf : list N) : option A :=
  match suf with
  | x :: suf' =>
      if p x then
        if greedy
        then or_else (star_run greedy p k (x :: pre) suf') (k pre suf)
        else or_else (k pre suf) (star_run greedy p k (x :: pre) suf')
      else k pre suf
  | [] => k pre suf
  end.

(** The text between two positions of one subject. *)
Definition consumed (s s' : mstate) : jsstring :=
  rev (take (length (m_pre s') - length (m_pre s))%nat (m_pre s')).

Definition wordAt (l : list N) : bool :=
  match l with c :: _ => isWord c | [] => false end.

(** Backtracking matcher in continuation-passing style: [run ic r k s]
    is the first way, in the priority order of the pattern, of matching
    [r] at [s] for which the continuation [k] succeeds. *)
Fixpoint run (ic : bool) (r : regex) (k : mstate -> option mstate)
    (s : mstate) : option mstate :=
  match r with
  | Lit l =>
      match lit_run ic l (m_pre s) (m_suf s) with
      | Some (pre, suf) => k (MState pre suf (m_caps s))
      | None => None
      end
  | Cls p =>
      match m_suf s with
      | x :: suf => if p x then k (MState (x :: m_pre s) suf (m_caps s)) else None
      | [] => None
      end
  | Seq a b => run ic a (run ic b k) s
  | Alt a b => or_else (run ic a k s) (run ic b k s)
  | Star g p =>
      star_run g p (fun pre suf => k (MState pre suf (m_caps s))) (m_pre s) (m_suf s)
  | Plus p =>
      match m_suf s with
      | x :: suf =>
          if p x
          then star_run true p (fun pre suf => k (MState pre suf (m_caps s)))
                 (x :: m_pre s) suf
          else None
      | [] => None
      end
  | Grp n a =>
      run ic a (fun s' =>
        k (MState (m_pre s') (m_suf s') (set_capture n (consumed s s') (m_caps s')))) s
  | Bol => match m_pre s with [] => k s | _ :: _ => None end
  | Wb => if xorb (wordAt (m_pre s)) (wordAt (m_suf s)) then k s else None
  end.

(** One attempt at a position: [Some] the end position and captures. *)
Definition matchAt (re : RegExp) (pre suf : list N) : option mstate :=
  run (ignoreCase re) (source re) Some (MState pre suf no_captures).

(** The leftmost match at or after a position. The result is the start
    position's prefix and the final state. *)
Fixpoint searchFrom (re : RegExp) (pre suf : list N) : option (list N * mstate) :=
  match matchAt re pre suf with
  | Some s' => Some (pre, s')
  | None =>
      match suf with
      | x :: suf' => searchFrom re (x :: pre) suf'
      | [] => None
      end
  end.

(** [s.match(re)] for a pattern without the [g] flag: the capture array
    of the leftmost match. *)
Definition String_match (s : jsstring) (re : RegExp) : option captures :=
  match searchFrom re [] s with
  | Some (_, s') => Some (m_caps s')
  | None => None
  end.

(** [re.test(s)] for a pattern without the [g] flag. *)
Definition test (re : RegExp) (s : jsstring) : bool :=
  match searchFrom re [] s with Some _ => true | None => false end.

(** [s.replace(re, rep)] for a pattern with the [g] flag and a
    replacement free of [$]: every match, left to right, none
    overlapping. [skip] counts the code units of the last match still to
    pass over; after an empty match the scan moves on by one code unit. *)
Fixpoint replace_go (re : RegExp) (rep : jsstring) (pre suf : list N)
    (skip : nat) : jsstring :=
  match skip with
  | S n =>
      match suf with
      | x :: suf' => replace_go re rep (x :: pre) suf' n
      | [] => []
      end
  | O =>
      match matchAt re pre suf with
      | Some s' =>
          rep ++
          match suf with
          | x :: suf' =>
              match (length (m_pre s') - length pre)%nat with
              | O => x :: replace_go re rep (x :: pre) suf' O
              | S n => replace_go re rep (x :: pre) suf' n
              end
          | [] => []
          end
      | None =>
          match suf with
          | x :: suf' => x :: replace_go re rep (x :: pre) suf' O
          | [] => []
          end
      end
  end.

Definition replaceAll (s : jsstring) (re : RegExp) (rep : jsstring) : jsstring :=
  replace_go re rep [] s O.

(** The successive results of [re.exec(s)] for a pattern with the [g]
    flag, each search starting where the last match ended
    ([lastIndex]), until [exec] returns [null]. *)
Fixpoint exec_go (re : RegExp) (pre suf : list N) (skip : nat) : list captures :=
  match skip with
  | S n =>
      match suf with
      | x :: suf' => exec_go re (x :: pre) suf' n
      | [] => []
      end
  | O =>
      match matchAt re pre suf with
      | Some s' =>
          m_caps s' ::
          match suf with
          | x :: suf' =>
              exec_go re (x :: pre) suf' (pred (length (m_pre s') - length pre))
          | [] => []
          end
      | None =>
          match suf with
          | x :: suf' => exec_go re (x :: pre) suf' O
          | [] => []
          end
      end
  end.

Definition execAll (re : RegExp) (s : jsstring) : list captures :=
  exec_go re [] s O.

Declare Scope re_scope.
Delimit Scope re_scope with re.
Bind Scope re_scope with regex.
Notation "a >> b" := (Seq a b) (at level 60, right associativity) : re_scope.
Notation "a |: b" := (Alt a b) (at level 60, right associativity) : re_scope.

Definition oneOf (l : list N) (c : N) : bool := existsb (N.eqb c) l.
Definition noneOf (l : list N) (c : N) : bool := negb (oneOf l c).
Definition anyChar (c : N) : bool := true.

End RegExp.
Import RegExp.

(** ** The notebook model *)

Record KindleHighlight := mkHighlight {
  text : jsstring;
  note : option jsstring;
  color : option jsstring;
  page : option jsstring;
  location : option jsstring
}.

Record KindleNotebook := mkNotebook {
  title : jsstring;
  author : option jsstring;
  highlights : list KindleHighlight
}.

(** ** Text normalization

    In the patterns quoted in comments, [\x22] is the double quote and
    [{0,}] is the star where a closing parenthesis follows it. *)

Definition lit (s : string) : regex := Lit (str s).
Arguments lit s%_string.

Definition quote : N -> bool := oneOf [34; 39].        (* [\x22'] *)
Definition notGt : N -> bool := noneOf [62].           (* [^>] *)
Definition notQuote : N -> bool := noneOf [34; 39].    (* [^\x22'] *)
Definition digitOrHyphen (c : N) : bool := isDigit c || (c =? 45).  (* [\d-] *)

Definition entityRe (name : string) : RegExp := mkRegExp (lit name) false.

Definition decodeEntities (text : jsstring) : jsstring :=
  let text := replaceAll text (entityRe "&nbsp;") (str " ") in
  let text := replaceAll text (entityRe "&lt;") (str "<") in
  let text := replaceAll text (entityRe "&gt;") (str ">") in
  let text := replaceAll text (entityRe "&amp;") (str "&") in
  let text := replaceAll text (entityRe "&quot;") [34] in
  replaceAll text (entityRe "&#39;") (str "'").

(** [/<[^>]*>/g] *)
Definition tagRe : RegExp :=
  mkRegExp (lit "<" >> Star true notGt >> lit ">") false.

(** [/\s+/g] *)
Definition spacesRe : RegExp := mkRegExp (Plus isSpace) false.

Definition cleanText (html : jsstring) : jsstring :=
  let withoutTags := replaceAll html tagRe (str " ") in
  trim (replaceAll (decodeEntities withoutTags) spacesRe (str " ")).

(** ** Title and author *)

(** [/class=[\x22'](?:kp-notebook-title|bookTitle)[\x22'][^>]*>([\s\S]*?)<\/div>/i] *)
Definition titleClassRe : RegExp :=
  mkRegExp (lit "class=" >> Cls quote
            >> (lit "kp-notebook-title" |: lit "bookTitle")
            >> Cls quote >> Star true notGt >> lit ">"
            >> Grp 1 (Star false anyChar) >> lit "</div>") true.

(** [/<title[^>]*>([\s\S]*?)<\/title>/i] *)
Definition titleTagRe : RegExp :=
  mkRegExp (lit "<title" >> Star true notGt >> lit ">"
            >> Grp 1 (Star false anyChar) >> lit "</title>") true.

(** [/class=[\x22'](?:authors|kp-notebook-subtitle)[\x22'][^>]*>([\s\S]*?)<\/div>/i] *)
Definition authorClassRe : RegExp :=
  mkRegExp (lit "class=" >> Cls quote
            >> (lit "authors" |: lit "kp-notebook-subtitle")
            >> Cls quote >> Star true notGt >> lit ">"
            >> Grp 1 (Star false anyChar) >> lit "</div>") true.

(** [/<meta[^>]*name=[\x22']author[\x22'][^>]*content=[\x22']([^\x22']{0,})[\x22'][^>]*>/i] *)
Definition authorMetaRe : RegExp :=
  mkRegExp (lit "<meta" >> Star true notGt >> lit "name=" >> Cls quote
            >> lit "author" >> Cls quote >> Star true notGt
            >> lit "content=" >> Cls quote >> Grp 1 (Star true notQuote)
            >> Cls quote >> Star true notGt >> lit ">") true.

(** [m?.[n]] on the result of [match] *)
Definition group (m : option captures) (n : nat) : option jsstring :=
  match m with
  | Some c => c n
  | None => None
  end.

Definition defaultTitle : jsstring := str "Kindle Notebook".

Definition titleMatch (html : jsstring) : option captures :=
  or_else (String_match html titleClassRe) (String_match html titleTagRe).

Definition extractTitle (html : jsstring) : jsstring :=
  cleanText (match group (titleMatch html) 1 with
             | Some t => t
             | None => defaultTitle
             end).

Definition authorMatch (html : jsstring) : option captures :=
  or_else (String_match html authorClassRe) (String_match html authorMetaRe).

Definition extractAuthor (html : jsstring) : option jsstring :=
  let author := group (authorMatch html) 1 in
  match author with
  | Some a => if truthy author then Some (cleanText a) else None
  | None => None
  end.

(** ** Heading metadata *)

(** [/Location\s+([\d-]+)/i] *)
Definition locationRe : RegExp :=
  mkRegExp (lit "Location" >> Plus isSpace >> Grp 1 (Plus digitOrHyphen)) true.

(** [/Page\s+([\d-]+)/i] *)
Definition pageRe : RegExp :=
  mkRegExp (lit "Page" >> Plus isSpace >> Grp 1 (Plus digitOrHyphen)) true.

(** [/\((Yellow|Blue|Pink|Orange|Green)\)/i] *)
Definition colorRe : RegExp :=
  mkRegExp (lit "("
            >> Grp 1 (lit "Yellow" |: lit "Blue" |: lit "Pink" |: lit "Orange" |: lit "Green")
            >> lit ")") true.

Definition extractLocation (heading : jsstring) : option jsstring :=
  group (String_match heading locationRe) 1.

Definition extractPage (heading : jsstring) : option jsstring :=
  group (String_match heading pageRe) 1.

Definition extractColor (heading : jsstring) : option jsstring :=
  group (String_match heading colorRe) 1.

(** ** Block scan and merge *)

(** [/<div[^>]*class=[\x22']noteHeading[\x22'][^>]*>([\s\S]*?)<\/div>\s*<div[^>]*class=[\x22']noteText[\x22'][^>]*>([\s\S]*?)<\/div>/gi] *)
Definition headingBlock : RegExp :=
  mkRegExp (lit "<div" >> Star true notGt >> lit "class=" >> Cls quote
            >> lit "noteHeading" >> Cls quote >> Star true notGt >> lit ">"
            >> Grp 1 (Star false anyChar) >> lit "</div>"
            >> Star true isSpace
            >> lit "<div" >> Star true notGt >> lit "class=" >> Cls quote
            >> lit "noteText" >> Cls quote >> Star true notGt >> lit ">"
            >> Grp 2 (Star false anyChar) >> lit "</div>") true.

(** [/^note\b/i] *)
Definition noteRe : RegExp := mkRegExp (Bol >> lit "note" >> Wb) true.

(** The raw (heading, body) pairs the scan loop sees, in order: the two
    groups of each successive [headingBlock.exec(html)]. *)
Definition blockOf (m : captures) : jsstring * jsstring :=
  (default [] (m 1%nat), default [] (m 2%nat)).

Definition scanBlocks (html : jsstring) : list (jsstring * jsstring) :=
  blockOf <$> execAll headingBlock html.

(** The objects of the array, each with its position as its identity:
    what a reference found in a copy of the array still points to. *)
Definition refs (highlights : list KindleHighlight) : list (nat * KindleHighlight) :=
  imap pair highlights.

(** [item.location === location] *)
Definition sameLocation (loc : option jsstring) (item : KindleHighlight) : bool :=
  bool_decide (location item = loc).

(** [(location && [...highlights].reverse().find((item) => item.location === location))
     || highlights[highlights.length - 1]] *)
Definition findTarget (loc : option jsstring) (highlights : list KindleHighlight)
    : option (nat * KindleHighlight) :=
  or_else
    (if truthy loc
     then List.find (fun r => sameLocation loc (snd r)) (rev (refs highlights))
     else None)
    (last (refs highlights)).

(** [target.note = body; if (!target.page && page) target.page = page;] *)
Definition attachNote (body : jsstring) (pg : option jsstring)
    (target : KindleHighlight) : KindleHighlight :=
  let target := mkHighlight (text target) (Some body) (color target)
                  (page target) (location target) in
  if negb (truthy (page target)) && truthy pg
  then mkHighlight (text target) (note target) (color target) pg (location target)
  else target.

(** One turn of the [while] loop on a raw pair. *)
Definition processBlock (highlights : list KindleHighlight)
    (block : jsstring * jsstring) : list KindleHighlight :=
  let heading := cleanText (fst block) in
  let body := cleanText (snd block) in
  let loc := extractLocation heading in
  let pg := extractPage heading in
  let col := extractColor heading in
  if test noteRe heading then
    match findTarget loc highlights with
    | Some (i, target) => <[i := attachNote body pg target]> highlights
    | None => highlights ++ [mkHighlight body None col pg loc]
    end
  else highlights ++ [mkHighlight body None col pg loc].

(** The array after the loop has taken the given pairs, in order. *)
Definition mergeBlocks (blocks : list (jsstring * jsstring)) : list KindleHighlight :=
  fold_left processBlock blocks [].

(** The pair [block], met after [blocks], is a note block and the
    reference it writes through is the entry at position [i]. *)
Definition resolvesTo (blocks : list (jsstring * jsstring))
    (block : jsstring * jsstring) (i : nat) : Prop :=
  let heading := cleanText (fst block) in
  test noteRe heading = true
  /\ fst <$> findTarget (extractLocation heading) (mergeBlocks blocks) = Some i.

Definition parseKindleHtml (html : jsstring) : KindleNotebook :=
  let notebookTitle := extractTitle html in
  let notebookAuthor := extractAuthor html in
  let highlights := mergeBlocks (scanBlocks html) in
  let highlights :=
    if (length highlights =? 0)%nat then
      let bodyText := cleanText html in
      if truthy (Some bodyText)
      then highlights ++ [mkHighlight bodyText None None None None]
      else highlights
    else highlights in
  mkNotebook notebookTitle notebookAuthor highlights.

(** ** Rendering *)

Definition middleDot : jsstring := [32; 183; 32].     (* ' · ' *)
Definition emDash : jsstring := [32; 8212; 32].       (* ' — ' *)
Definition newline : jsstring := [10].

(** [.filter(Boolean)] on an array of optional strings *)
Definition filterBoolean (l : list (option jsstring)) : list jsstring :=
  omap (fun o => if truthy o then o else None) l.

Definition metaOf (item : KindleHighlight) : jsstring :=
  join middleDot (filterBoolean
    [ color item;
      if truthy (page item) then Some (str "Page " ++ default [] (page item)) else None;
      if truthy (location item) then Some (str "Loc " ++ default [] (location item)) else None ]).

(** The body of the [forEach] callback: the lines pushed for one item. *)
Definition renderItem (lines : list jsstring) (entry : nat * KindleHighlight)
    : list jsstring :=
  let '(index, item) := entry in
  let meta := metaOf item in
  let label := if truthy (Some meta) then str " (" ++ meta ++ str ")" else [] in
  let lines :=
    lines ++ [ofNat (index + 1) ++ str ". " ++ text item
              ++ (if truthy (Some label) then emDash ++ label else [])] in
  if truthy (note item)
  then lines ++ [str "   > " ++ default [] (note item)]
  else lines.

(** The lines pushed before the [forEach]. *)
Definition headerLines (notebook : KindleNotebook) : list jsstring :=
  let lines :=
    [str "# " ++ (if truthy (Some (title notebook)) then title notebook
                  else str "Kindle Notebook")] in
  let lines :=
    if truthy (author notebook)
    then lines ++ [str "_by " ++ default [] (author notebook) ++ str "_"]
    else lines in
  lines ++ [[]].

Definition kindleNotebookToMarkdown (notebook : KindleNotebook) : jsstring :=
  let lines := headerLines notebook in
  let lines := fold_left renderItem (refs (highlights notebook)) lines in
  join newline lines.

(** ** The report entry as the specification words it

    A field counts when it is present and not the empty string. *)

Definition nonEmpty (o : option jsstring) : option jsstring :=
  match o with
  | Some (x :: s) => Some (x :: s)
  | _ => None
  end.

Definition parenthesized (fields : jsstring) : jsstring :=
  emDash ++ str " (" ++ fields ++ str ")".

Definition parenthetical (item : KindleHighlight) : jsstring :=
  match nonEmpty (color item), nonEmpty (page item), nonEmpty (location item) with
  | None, None, None => []
  | Some c, None, None => parenthesized c
  | None, Some p, None => parenthesized (str "Page " ++ p)
  | None, None, Some l => parenthesized (str "Loc " ++ l)
  | Some c, Some p, None => parenthesized (c ++ middleDot ++ str "Page " ++ p)
  | Some c, None, Some l => parenthesized (c ++ middleDot ++ str "Loc " ++ l)
  | None, Some p, Some l =>
      parenthesized (str "Page " ++ p ++ middleDot ++ str "Loc " ++ l)
  | Some c, Some p, Some l =>
      parenthesized (c ++ middleDot ++ str "Page " ++ p ++ middleDot ++ str "Loc " ++ l)
  end.

Definition entryLines (index : nat) (item : KindleHighlight) : list jsstring :=
  (ofNat (index + 1) ++ str ". " ++ text item ++ parenthetical item)
  :: match nonEmpty (note item) with
     | Some n => [str "   > " ++ n]
     | None => []
     end.

(** ** Colours as the specification words them *)

Definition colorNames : list jsstring :=
  [str "Yellow"; str "Blue"; str "Pink"; str "Orange"; str "Green"].

(** [t] is [l] up to the case of its ASCII letters. *)
Definition ciEq (l t : jsstring) : Prop :=
  Forall2 (fun a x => canon a = canon x) l t.

Definition isColorName (c : jsstring) : Prop :=
  exists name, In name colorNames /\ ciEq name c.

(** A colour name in parentheses sits in [heading] right after [gap]. *)
Definition colorAt (heading gap c : jsstring) : Prop :=
  isColorName c /\ exists post, heading = gap ++ str "(" ++ c ++ str ")" ++ post.

(** ** Blocks as the specification words them *)

(** An opening [div] tag whose [class] attribute is [cls]. *)
Definition openTag (cls o : jsstring) : Prop :=
  exists d a1 k q1 n q2 a2,
    o = d ++ a1 ++ k ++ [q1] ++ n ++ [q2] ++ a2 ++ str ">"
    /\ ciEq (str "<div") d /\ forallb notGt a1 = true
    /\ ciEq (str "class=") k /\ quote q1 = true
    /\ ciEq cls n /\ quote q2 = true /\ forallb notGt a2 = true.

(** [t] is a heading block with content [h], then white space only, then
    a body block with content [b]. *)
Definition blockText (t h b : jsstring) : Prop :=
  exists o1 e1 ws o2 e2,
    t = o1 ++ h ++ e1 ++ ws ++ o2 ++ b ++ e2
    /\ openTag (str "noteHeading") o1 /\ ciEq (str "</div>") e1
    /\ forallb isSpace ws = true
    /\ openTag (str "noteText") o2 /\ ciEq (str "</div>") e2.

(** A block starts at the head of [s]. *)
Definition blockStarts (s : jsstring) : Prop :=
  exists t rest h b, s = t ++ rest /\ blockText t h b.

(** [Scan s blocks]: scanning [s] from its head gives [blocks]. Each pair
    is the content of a block that starts at the first position, after
    the blocks before it, where a block starts at all; the scan goes on
    right behind it, and ends when no block starts anywhere. *)
Inductive Scan : jsstring -> list (jsstring * jsstring) -> Prop :=
| Scan_end s :
    (forall gap rest, s = gap ++ rest -> ~ blockStarts rest) ->
    Scan s []
| Scan_block s gap t rest h b blocks :
    s = gap ++ t ++ rest ->
    blockText t h b ->
    (forall g1 g2, gap = g1 ++ g2 -> g2 <> [] -> ~ blockStarts (g2 ++ t ++ rest)) ->
    Scan rest blocks ->
    Scan s ((h, b) :: blocks).

(** ** What a pattern matches

    [matches ic r pre t post c c']: read at a position with [pre] behind
    it (nearest first) and [t ++ post] ahead, the pattern [r] can consume
    exactly [t], turning the captures [c] into [c']. *)

Fixpoint lit_match (ic : bool) (l t : list N) : Prop :=
  match l, t with
  | [], [] => True
  | a :: l', x :: t' => chr_eq ic a x = true /\ lit_match ic l' t'
  | _, _ => False
  end.

Fixpoint matches (ic : bool) (r : regex) (pre t post : list N)
    (c c' : captures) : Prop :=
  match r with
  | Lit l => lit_match ic l t /\ c' = c
  | Cls p => (exists x, t = [x] /\ p x = true) /\ c' = c
  | Seq a b =>
      exists t1 t2 cm, t = t1 ++ t2
        /\ matches ic a pre t1 (t2 ++ post) c cm
        /\ matches ic b (rev t1 ++ pre) t2 post cm c'
  | Alt a b => matches ic a pre t post c c' \/ matches ic b pre t post c c'
  | Star _ p => forallb p t = true /\ c' = c
  | Plus p => t <> [] /\ forallb p t = true /\ c' = c
  | Grp n a => exists cm, matches ic a pre t post c cm /\ c' = set_capture n t cm
  | Bol => t = [] /\ pre = [] /\ c' = c
  | Wb => t = [] /\ xorb (wordAt pre) (wordAt post) = true /\ c' = c
  end.

(** ** Normal form of text

    A class does not go on at the head of [s]. *)
Definition notAhead (p : N -> bool) (s : jsstring) : Prop :=
  match s with
  | c :: _ => p c = false
  | [] => True
  end.

(** Every white space code unit of [s] is a single U+0020 with a code
    unit that is not white space right after it. *)
Fixpoint spaced (s : jsstring) : bool :=
  match s with
  | [] => true
  | c :: s' =>
      (if isSpace c
       then (c =? 32) && match s' with d :: _ => negb (isSpace d) | [] => false end
       else true)
      && spaced s'
  end.

(** [s] neither starts nor ends with white space and has no other white
    space inside than single U+0020. *)
Definition normalized (s : jsstring) : bool :=
  match s with
  | c :: _ => negb (isSpace c) && spaced s
  | [] => true
  end.

(** White space runs turned into one U+0020 each; [inRun] says that the
    code unit before was white space. *)
Fixpoint collapseSpaces (inRun : bool) (s : jsstring) : jsstring :=
  match s with
  | [] => []
  | c :: s' =>
      if isSpace c
      then (if inRun then collapseSpaces true s' else 32 :: collapseSpaces true s')
      else c :: collapseSpaces false s'
  end.

(** [s] without the white space at its end. *)
Fixpoint trimEnd (s : jsstring) : jsstring :=
  match s with
  | [] => []
  | c :: s' =>
      match trimEnd s' with
      | [] => if isSpace c then [] else [c]
      | t => c :: t
      end
  end.

(** ** Labels as the patterns find them

    In [heading], right after [gap], stands the keyword [kw] (in any
    letter case), then white space, then the token [l] of digits and
    hyphens, then [post]. *)
Definition labelAt (kw heading gap l post : jsstring) : Prop :=
  exists k ws,
    heading = gap ++ k ++ ws ++ l ++ post
    /\ ciEq kw k
    /\ ws <> [] /\ forallb isSpace ws = true
    /\ l <> [] /\ forallb digitOrHyphen l = true.

(** What [extractLocation] and [extractPage] have in common: the token
    of the leftmost label, taken as far as digits and hyphens go. *)
Definition labelResult (kw heading : jsstring) (result : option jsstring) : Prop :=
  match result with
  | Some l =>
      exists gap post,
        labelAt kw heading gap l post
        /\ notAhead digitOrHyphen post
        /\ forall gap' l' post',
             labelAt kw heading gap' l' post' -> (length gap <= length gap')%nat
  | None => forall gap l post, ~ labelAt kw heading gap l post
  end.

(** ** More on blocks

    The text [e] occurs somewhere in [s] up to letter case. *)
Definition containsCi (e s : jsstring) : Prop :=
  exists x e' y, s = x ++ e' ++ y /\ ciEq e e'.

(** ** What the loop builds *)

Definition isNoteBlock (block : jsstring * jsstring) : bool :=
  test noteRe (cleanText (fst block)).

(** The pairs that add an entry to the array: the first pair, whatever
    it is, and every later pair that is not a note. *)
Definition entryBlocks (blocks : list (jsstring * jsstring))
    : list (jsstring * jsstring) :=
  match blocks with
  | [] => []
  | block :: rest => block :: List.filter (fun b => negb (isNoteBlock b)) rest
  end.

(** What an entry keeps for good, and where it comes from in a pair. *)
Definition fixedPart (h : KindleHighlight)
    : jsstring * option jsstring * option jsstring :=
  (text h, color h, location h).

Definition fixedPartOf (block : jsstring * jsstring)
    : jsstring * option jsstring * option jsstring :=
  (cleanText (snd block), extractColor (cleanText (fst block)),
   extractLocation (cleanText (fst block))).

(** ** Well-formed results *)

Definition normalizedOpt (o : option jsstring) : Prop :=
  match o with
  | Some s => normalized s = true
  | None => True
  end.

Definition labelOk (o : option jsstring) : Prop :=
  match o with
  | Some l => l <> [] /\ forallb digitOrHyphen l = true
  | None => True
  end.

Definition colorOk (o : option jsstring) : Prop :=
  match o with
  | Some c => isColorName c
  | None => True
  end.

Definition highlightOk (h : KindleHighlight) : Prop :=
  normalized (text h) = true /\ normalizedOpt (note h) /\ colorOk (color h)
  /\ labelOk (page h) /\ labelOk (location h).

Definition notebookOk (notebook : KindleNotebook) : Prop :=
  normalized (title notebook) = true /\ normalizedOpt (author notebook)
  /\ Forall highlightOk (highlights notebook).

(** ** Lines of the report *)

(** How often the code unit [c] occurs in [s]. *)
Definition countOf (c : N) (s : jsstring) : nat :=
  length (List.filter (N.eqb c) s).

(** The heading line, the author line when there is an author, the blank
    line, then one line for each highlight and one more for each note
    that is not empty. *)
Definition lineCount (notebook : KindleNotebook) : nat :=
  (2 + (if truthy (author notebook) then 1 else 0)
   + length (highlights notebook)
   + length (List.filter (fun h => truthy (note h)) (highlights notebook)))%nat.

(** ** Tags

    No [<] of [s] has a [>] anywhere after it: nothing in [s] is a tag. *)
Definition tagFree (s : jsstring) : Prop :=
  forall a b, s = a ++ 60 :: b -> ~ In 62 b.

(** ** Bot commands *)

Inductive Command : Type :=
| CommandStart
| CommandSend (text : jsstring)
| CommandClean (enabled : option bool)
| CommandUnknown (reason : option jsstring).

(** [s.startsWith(prefix)] *)
Fixpoint startsWith (s prefix : jsstring) : bool :=
  match prefix with
  | [] => true
  | p :: prefix' =>
      match s with
      | c :: s' => (c =? p) && startsWith s' prefix'
      | [] => false
      end
  end.

(** [s.replace(re, rep)] for a pattern without the [g] flag and a
    replacement free of [$]: the leftmost match only. *)
Definition replaceFirst (s : jsstring) (re : RegExp) (rep : jsstring) : jsstring :=
  match searchFrom re [] s with
  | Some (p, s') => rev p ++ rep ++ m_suf s'
  | None => s
  end.

(** [/^\/send(@\w+)?/i] and [/^\/clean(@\w+)?/i]: the optional group is
    tried first, then skipped. *)
Definition commandRe (name : string) : RegExp :=
  mkRegExp (Bol >> lit name >> (Grp 1 (lit "@" >> Plus isWord) |: Lit [])) true.

Section Commands.

(** [String.prototype.toLowerCase], the case mapping of the platform. *)
Variable toLowerCase : jsstring -> jsstring.

Definition parseCommand (raw : jsstring) : Command :=
  let text := trim raw in
  if startsWith text (str "/start") then CommandStart
  else if startsWith text (str "/send") then
    let payload := trim (replaceFirst text (commandRe "/send") []) in
    if negb (truthy (Some payload))
    then CommandUnknown (Some (str "missing-message"))
    else CommandSend payload
  else if startsWith text (str "/clean") then
    let payload := toLowerCase (trim (replaceFirst text (commandRe "/clean") [])) in
    if bool_decide (payload = str "on") || bool_decide (payload = str "1")
       || bool_decide (payload = str "true")
    then CommandClean (Some true)
    else if bool_decide (payload = str "off") || bool_decide (payload = str "0")
            || bool_decide (payload = str "false")
    then CommandClean (Some false)
    else CommandClean None
  else CommandUnknown None.

End Commands.

(** After a command name: a bot mention [m], an at sign and the word
    characters that follow it, taken whole, or nothing when no such
    mention stands there; [rest] is what follows. *)
Definition mentionAt (m rest : jsstring) : Prop :=
  (m = [] /\ ~ exists c r, rest = 64 :: c :: r /\ isWord c = true)
  \/ (exists w, m = 64 :: w /\ w <> [] /\ forallb isWord w = true
                /\ notAhead isWord rest).

(** The setting a [/clean] payload, in lower case, asks for. *)
Definition cleanSetting (payload : jsstring) : option bool :=
  if bool_decide (payload = str "on") || bool_decide (payload = str "1")
     || bool_decide (payload = str "true")
  then Some true
  else if bool_decide (payload = str "off") || bool_decide (payload = str "0")
          || bool_decide (payload = str "false")
  then Some false
  else None.

(** ** Elements the title and author patterns look for

    The opening of an element, from its [class] attribute on, for one of
    two class names: [class=], a quote, the name, a quote, and the rest
    of the tag. *)
Definition classOpen (name1 name2 o : jsstring) : Prop :=
  exists k q1 n q2 a,
    o = k ++ [q1] ++ n ++ [q2] ++ a ++ str ">"
    /\ ciEq (str "class=") k /\ quote q1 = true
    /\ (ciEq name1 n \/ ciEq name2 n)
    /\ quote q2 = true /\ forallb notGt a = true.

(** The opening tag of a [title] element. *)
Definition titleOpen (o : jsstring) : Prop :=
  exists k a,
    o = k ++ a ++ str ">"
    /\ ciEq (str "<title") k /\ forallb notGt a = true.

(** In [html], right after [gap], stands an opening [o], then
    [content], then the closing tag, then [post]. *)
Definition elementAt (opening : jsstring -> Prop) (close html gap content post : jsstring)
    : Prop :=
  exists o e,
    html = gap ++ o ++ content ++ e ++ post /\ opening o /\ ciEq close e.

(** What a pattern with one lazy group before a closing tag captures:
    the content of the leftmost such element, up to the first closing
    tag; nothing when there is no such element. *)
Definition captureResult (opening : jsstring -> Prop) (close html : jsstring)
    (result : option jsstring) : Prop :=
  match result with
  | Some content =>
      exists gap post,
        elementAt opening close html gap content post
        /\ ~ containsCi close content
        /\ forall gap' content' post',
             elementAt opening close html gap' content' post' ->
             (length gap <= length gap')%nat
  | None => forall gap content post, ~ elementAt opening close html gap content post
  end.

(** The same patterns with the opening part as one sequence. *)
Definition elementRe (opening : regex) (close : jsstring) : RegExp :=
  mkRegExp (opening >> Grp 1 (Star false anyChar) >> Lit close) true.

Definition classOpenRe (name1 name2 : jsstring) : regex :=
  (lit "class=" >> Cls quote >> (Lit name1 |: Lit name2)
   >> Cls quote >> Star true notGt >> lit ">")%re.

Definition titleOpenRe : regex :=
  (lit "<title" >> Star true notGt >> lit ">")%re.

(** ** The sender's address *)

(** [/<([^>]+)>/] *)
Definition addressRe : RegExp :=
  mkRegExp (lit "<" >> Grp 1 (Plus notGt) >> lit ">") false.

Section Address.

(** [String.prototype.toLowerCase], the case mapping of the platform. *)
Variable toLowerCase : jsstring -> jsstring.

Definition extractEmailAddress (fromHeader : jsstring) : jsstring :=
  match String_match fromHeader addressRe with
  | Some m => toLowerCase (default [] (m 1%nat))
  | None => toLowerCase (trim fromHeader)
  end.

End Address.

(** ** The match the scan takes

    A closing [div] tag stands at the head of [s]. *)
Definition closeAhead (s : jsstring) : Prop :=
  exists e r, s = e ++ r /\ ciEq (str "</div>") e.

(** At the head of [s] stand a closing [div] tag, white space only, the
    opening tag of a body block and, somewhere after it, a closing [div]
    tag: what the pattern asks for after the heading content. *)
Definition bodyAhead (s : jsstring) : Prop :=
  exists e1 ws o2 b e2 r,
    s = e1 ++ ws ++ o2 ++ b ++ e2 ++ r
    /\ ciEq (str "</div>") e1 /\ forallb isSpace ws = true
    /\ openTag (str "noteText") o2 /\ ciEq (str "</div>") e2.

(** The match taken at the head of [s]: the opening tag of a heading
    block; the heading content [h], the shortest after which a body can
    follow; the closing tag, white space, the opening tag of a body
    block; the body content [b], up to the first closing tag; that tag;
    [rest] is what the match leaves. *)
Definition blockMatch (s h b rest : jsstring) : Prop :=
  exists o1 e1 ws o2 e2,
    s = o1 ++ h ++ e1 ++ ws ++ o2 ++ b ++ e2 ++ rest
    /\ openTag (str "noteHeading") o1 /\ ciEq (str "</div>") e1
    /\ forallb isSpace ws = true
    /\ openTag (str "noteText") o2 /\ ciEq (str "</div>") e2
    /\ (forall h1 h2, h = h1 ++ h2 -> h2 <> [] ->
         ~ bodyAhead (h2 ++ e1 ++ ws ++ o2 ++ b ++ e2 ++ rest))
    /\ (forall b1 b2, b = b1 ++ b2 -> b2 <> [] ->
         ~ closeAhead (b2 ++ e2 ++ rest)).

(** [ScanExact s blocks]: scanning [s] from its head gives [blocks].
    Each pair is the heading and body content of the match taken at the
    first position, after the matches before it, where a block starts;
    the scan goes on with what that match leaves, and ends when no block
    starts anywhere. *)
Inductive ScanExact : jsstring -> list (jsstring * jsstring) -> Prop :=
| ScanExact_end s :
    (forall gap rest, s = gap ++ rest -> ~ blockStarts rest) ->
    ScanExact s []
| ScanExact_block s gap m rest h b blocks :
    s = gap ++ m ->
    blockMatch m h b rest ->
    (forall g1 g2, gap = g1 ++ g2 -> g2 <> [] -> ~ blockStarts (g2 ++ m)) ->
    ScanExact rest blocks ->
    ScanExact s ((h, b) :: blocks).

(** The block pattern from the closing tag of the heading on. *)
Definition bodyTailRe : regex :=
  (lit "</div>" >> Star true isSpace
   >> lit "<div" >> Star true notGt >> lit "class=" >> Cls quote
   >> lit "noteText" >> Cls quote >> Star true notGt >> lit ">"
   >> Grp 2 (Star false anyChar) >> lit "</div>")%re.

(** ** Sample documents *)

Definition highlightAt40 : jsstring * jsstring :=
  (str "Highlight (<span>yellow</span>) - Location 40", str "First &amp; text").

Definition highlightAt50 : jsstring * jsstring :=
  (str "Highlight (blue) - Page 7 Location 50", str "Second").

Definition noteAt40 : jsstring * jsstring :=
  (str "Note - Page 3 Location 40", str "my note").

Definition noteAt60 : jsstring * jsstring :=
  (str "Note - Location 60", str "stray note").

Definition plainNote : jsstring * jsstring :=
  (str "Note", str "first note").

(** A document in the export's layout, from raw pairs. *)
Definition blockHtml (block : jsstring * jsstring) : jsstring :=
  str "<div class='noteHeading'>" ++ fst block ++ str "</div>" ++ newline
  ++ str "<div class='noteText'>" ++ snd block ++ str "</div>" ++ newline.

Definition documentOf (blocks : list (jsstring * jsstring)) : jsstring :=
  str "<html><body>" ++ concat (blockHtml <$> blocks) ++ str "</body></html>".

Definition emptyNoteDoc : jsstring :=
  documentOf [(str "Highlight", str "x"); (str "Note", [])].

Definition markupBetweenDoc : jsstring :=
  str "<div class='noteHeading'>H</div>" ++ str "<span>x</span>"
  ++ str "<div class='noteText'>B</div>".

Definition spaceBetweenDoc : jsstring :=
  str "<div class='noteHeading'>H</div>" ++ str "  "
  ++ str "<div class='noteText'>B</div>".

Definition divBetweenDoc : jsstring :=
  str "<div class='noteHeading'>H</div>" ++ str "<div>x</div>"
  ++ str "<div class='noteText'>B</div>".

(** ** Proof tactics *)

Ltac break_matches H :=
  unfold lit in H; cbn [matches] in H;
  repeat match goal with
    | H' : exists _, _ |- _ => destruct H'
    | H' : _ /\ _ |- _ => destruct H'
    | H' : _ \/ _ |- _ => destruct H'
    end.

Ltac seq_step x :=
  exists x; eexists; eexists; split; [reflexivity|split].

(* One step into a sequence whose head is a literal or a quantified class
   ([peel_lit]) or a single class ([peel_cls]); [step] is the lemma that
   opens the sequence. *)
Ltac peel_lit step H t Ht :=
  apply step in H as (t & ? & ? & -> & Ht & H);
  cbn [matches] in Ht; destruct Ht as (Ht & ->).

Ltac peel_cls step H q Hq :=
  apply step in H as (? & ? & ? & -> & Hq & H);
  cbn [matches] in Hq; destruct Hq as ((q & -> & Hq) & ->).

Ltac no_newline lemma :=
  repeat (apply lemma);
  try (vm_compute; intuition discriminate); try assumption.

(** ** The matcher finds what the pattern matches *)

Section Matcher.

Variable ic : bool.

Lemma lit_run_sound l : forall pre suf p q,
  lit_run ic l pre suf = Some (p, q) ->
  exists t, suf = t ++ q /\ p = rev t ++ pre /\ lit_match ic l t.
Proof.
  induction l as [|a l IH]; intros pre suf p q H; simpl in H.
  - injection H as <- <-. exists []. simpl. auto.
  - destruct suf as [|x suf]; [discriminate|].
    destruct (chr_eq ic a x) eqn:E; [|discriminate].
    apply IH in H as (t & -> & -> & Ht).
    exists (x :: t). simpl. rewrite <- app_assoc. auto.
Qed.

Lemma lit_run_complete l : forall pre t post,
  lit_match ic l t ->
  lit_run ic l pre (t ++ post) = Some (rev t ++ pre, post).
Proof.
  induction l as [|a l IH]; intros pre [|x t] post H; simpl in H; try contradiction.
  - reflexivity.
  - destruct H as [E H]. simpl. rewrite E, (IH _ _ _ H), <- app_assoc. reflexivity.
Qed.

Lemma star_run_sound {A} g p (k : list N -> list N -> option A) suf :
  forall pre x, star_run g p k pre suf = Some x ->
  exists t post, suf = t ++ post /\ forallb p t = true
                 /\ k (rev t ++ pre) post = Some x.
Proof.
  induction suf as [|y suf IH]; intros pre x H; simpl in H.
  - exists [], []. auto.
  - destruct (p y) eqn:Py; [|exists [], (y :: suf); auto].
    assert (Hk : k pre (y :: suf) = Some x \/ star_run g p k (y :: pre) suf = Some x).
    { destruct g; unfold or_else in H.
      - destruct (star_run true p k (y :: pre) suf); auto.
      - destruct (k pre (y :: suf)); auto. }
    destruct Hk as [Hk|Hk]; [exists [], (y :: suf); auto|].
    apply IH in Hk as (t & post & -> & Ht & Hk).
    exists (y :: t), post. simpl. rewrite Py, <- app_assoc. auto.
Qed.

Lemma star_run_complete {A} g p (k : list N -> list N -> option A) suf :
  forall pre, star_run g p k pre suf = None ->
  forall t post, suf = t ++ post -> forallb p t = true ->
  k (rev t ++ pre) post = None.
Proof.
  induction suf as [|y suf IH]; intros pre H t post E Ht; simpl in H.
  - destruct t; [|discriminate]. simpl in E. subst post. exact H.
  - destruct t as [|z t].
    + simpl in E. subst post. simpl.
      destruct (p y); [|exact H].
      destruct g; unfold or_else in H.
      * destruct (star_run true p k (y :: pre) suf); [discriminate|exact H].
      * destruct (k pre (y :: suf)); [discriminate|reflexivity].
    + injection E as -> ->. simpl in Ht. apply andb_prop in Ht as [Pz Ht].
      rewrite Pz in H. simpl. rewrite <- app_assoc. simpl.
      apply IH; auto.
      destruct g; unfold or_else in H.
      * destruct (star_run true p k (z :: pre) (t ++ post)); [discriminate|reflexivity].
      * destruct (k pre (z :: t ++ post)); [discriminate|exact H].
Qed.

Lemma consumed_app pre t post suf c cm :
  consumed (MState pre suf c) (MState (rev t ++ pre) post cm) = t.
Proof.
  unfold consumed; simpl.
  rewrite length_app, Nat.add_sub, take_app_length.
  apply rev_involutive.
Qed.

Lemma run_sound r : forall k pre suf c x,
  run ic r k (MState pre suf c) = Some x ->
  exists t post c', suf = t ++ post /\ matches ic r pre t post c c'
                    /\ k (MState (rev t ++ pre) post c') = Some x.
Proof.
  induction r as [l|p|a IHa b IHb|a IHa b IHb|g p|p|n a IHa| |];
    intros k pre suf c x H; simpl in H.
  - destruct (lit_run ic l pre suf) as [[p q]|] eqn:E; [|discriminate].
    apply lit_run_sound in E as (t & -> & -> & Ht).
    exists t, q, c. simpl. auto.
  - destruct suf as [|y suf]; [discriminate|].
    destruct (p y) eqn:Py; [|discriminate].
    exists [y], suf, c. simpl. eauto 6.
  - apply IHa in H as (t1 & post1 & cm & -> & Ha & H).
    apply IHb in H as (t2 & post & c' & -> & Hb & H).
    exists (t1 ++ t2), post, c'. rewrite <- app_assoc, rev_app_distr, <- app_assoc.
    repeat split; auto. simpl. exists t1, t2, cm. auto.
  - unfold or_else in H.
    destruct (run ic a k (MState pre suf c)) eqn:E.
    + injection H as ->. apply IHa in E as (t & post & c' & ? & ? & ?).
      exists t, post, c'. simpl. auto.
    + apply IHb in H as (t & post & c' & ? & ? & ?).
      exists t, post, c'. simpl. auto.
  - apply star_run_sound in H as (t & post & -> & Ht & H).
    exists t, post, c. simpl. auto.
  - destruct suf as [|y suf]; [discriminate|].
    destruct (p y) eqn:Py; [|discriminate].
    apply star_run_sound in H as (t & post & -> & Ht & H).
    exists (y :: t), post, c. simpl. rewrite Py, <- app_assoc.
    repeat split; auto.
  - apply IHa in H as (t & post & cm & -> & Ha & H).
    simpl in H. rewrite consumed_app in H.
    exists t, post, (set_capture n t cm). simpl. eauto.
  - destruct pre; [|discriminate]. exists [], suf, c. simpl. auto.
  - destruct (xorb (wordAt pre) (wordAt suf)) eqn:E; [|discriminate].
    exists [], suf, c. simpl. auto.
Qed.

Lemma run_complete r : forall k pre t post c c',
  matches ic r pre t post c c' ->
  run ic r k (MState pre (t ++ post) c) = None ->
  k (MState (rev t ++ pre) post c') = None.
Proof.
  induction r as [l|p|a IHa b IHb|a IHa b IHb|g p|p|n a IHa| |];
    intros k pre t post c c' Hm H; simpl in Hm, H.
  - destruct Hm as [Hl ->]. rewrite (lit_run_complete _ _ _ _ Hl) in H. exact H.
  - destruct Hm as [(y & -> & Py) ->]. simpl in H. rewrite Py in H. exact H.
  - destruct Hm as (t1 & t2 & cm & -> & Ha & Hb).
    rewrite <- app_assoc in H.
    apply (IHa _ _ _ _ _ _ Ha) in H. apply (IHb _ _ _ _ _ _ Hb) in H.
    rewrite rev_app_distr, <- app_assoc. exact H.
  - unfold or_else in H.
    destruct (run ic a k (MState pre (t ++ post) c)) eqn:E; [discriminate|].
    destruct Hm as [Hm|Hm]; eauto.
  - destruct Hm as [Ht ->].
    eapply (star_run_complete _ _ (fun pre suf => k (MState pre suf c))) in H; eauto.
  - destruct Hm as (Hne & Ht & ->).
    destruct t as [|y t]; [congruence|]. simpl in H, Ht.
    apply andb_prop in Ht as [Py Ht]. rewrite Py in H.
    eapply (star_run_complete _ _ (fun pre suf => k (MState pre suf c))) in H; eauto.
    simpl. rewrite <- app_assoc. exact H.
  - destruct Hm as (cm & Ha & ->).
    apply (IHa _ _ _ _ _ _ Ha) in H. simpl in H.
    rewrite consumed_app in H. exact H.
  - destruct Hm as (-> & -> & ->). exact H.
  - destruct Hm as (-> & Hx & ->). simpl in H. rewrite Hx in H. exact H.
Qed.

End Matcher.

(** ** Searching *)

Section Search.

Variable re : RegExp.

Lemma matchAt_sound pre suf s' :
  matchAt re pre suf = Some s' ->
  exists t post, suf = t ++ post
    /\ matches (ignoreCase re) (source re) pre t post no_captures (m_caps s')
    /\ m_pre s' = rev t ++ pre /\ m_suf s' = post.
Proof.
  unfold matchAt. intros H.
  apply run_sound in H as (t & post & c' & -> & Hm & H).
  injection H as <-. exists t, post. simpl. auto.
Qed.

Lemma matchAt_complete pre t post c' :
  matches (ignoreCase re) (source re) pre t post no_captures c' ->
  matchAt re pre (t ++ post) <> None.
Proof.
  unfold matchAt. intros Hm H.
  apply (run_complete _ _ _ _ _ _ _ _ Hm) in H. discriminate.
Qed.

Lemma searchFrom_sound suf : forall pre p s',
  searchFrom re pre suf = Some (p, s') ->
  exists gap rest, suf = gap ++ rest /\ p = rev gap ++ pre
    /\ matchAt re p rest = Some s'
    /\ (forall g1 g2, gap = g1 ++ g2 -> g2 <> [] ->
        matchAt re (rev g1 ++ pre) (g2 ++ rest) = None).
Proof.
  induction suf as [|x suf IH]; intros pre p s' H; simpl in H.
  - destruct (matchAt re pre []) eqn:E; [|discriminate].
    injection H as <- <-. exists [], []. repeat split; auto.
    intros g1 g2 Hg. symmetry in Hg. apply app_eq_nil in Hg as [_ ->]. congruence.
  - destruct (matchAt re pre (x :: suf)) eqn:E.
    + injection H as <- <-. exists [], (x :: suf). repeat split; auto.
      intros g1 g2 Hg. symmetry in Hg. apply app_eq_nil in Hg as [_ ->]. congruence.
    + apply IH in H as (gap & rest & -> & -> & Hm & Hmin).
      exists (x :: gap), rest. simpl. rewrite <- app_assoc. repeat split; auto.
      intros [|y g1] g2 Hg Hne; simpl in Hg.
      * subst g2. simpl. exact E.
      * injection Hg as <- ->. simpl. rewrite <- !app_assoc. simpl.
        apply Hmin; auto.
Qed.

Lemma searchFrom_none suf : forall pre,
  searchFrom re pre suf = None ->
  forall g1 g2, suf = g1 ++ g2 -> matchAt re (rev g1 ++ pre) g2 = None.
Proof.
  induction suf as [|x suf IH]; intros pre H g1 g2 Hg; simpl in H.
  - symmetry in Hg. apply app_eq_nil in Hg as [-> ->]. simpl.
    destruct (matchAt re pre []); [discriminate|reflexivity].
  - destruct (matchAt re pre (x :: suf)) eqn:E; [discriminate|].
    destruct g1 as [|y g1]; simpl in Hg.
    + subst g2. exact E.
    + injection Hg as <- ->. simpl. rewrite <- app_assoc. simpl. eapply IH; eauto.
Qed.

Lemma String_match_sound s c :
  String_match s re = Some c ->
  exists gap t post, s = gap ++ t ++ post
    /\ matches (ignoreCase re) (source re) (rev gap) t post no_captures c
    /\ (forall g1 g2, gap = g1 ++ g2 -> g2 <> [] ->
        matchAt re (rev g1) (g2 ++ t ++ post) = None).
Proof.
  unfold String_match. intros H.
  destruct (searchFrom re [] s) as [[p s']|] eqn:E; [|discriminate].
  injection H as <-.
  apply searchFrom_sound in E as (gap & rest & -> & -> & Hm & Hmin).
  apply matchAt_sound in Hm as (t & post & -> & Hm & _).
  rewrite app_nil_r in Hm. exists gap, t, post. repeat split; auto.
  intros g1 g2 Hg Hne. specialize (Hmin g1 g2 Hg Hne).
  rewrite app_nil_r in Hmin. exact Hmin.
Qed.

Lemma String_match_none s :
  String_match s re = None ->
  forall gap t post c, s = gap ++ t ++ post ->
  ~ matches (ignoreCase re) (source re) (rev gap) t post no_captures c.
Proof.
  unfold String_match. intros H gap t post c Hs Hm.
  destruct (searchFrom re [] s) as [[p s']|] eqn:E; [discriminate|].
  eapply searchFrom_none in E; [|exact Hs].
  rewrite app_nil_r in E. eapply matchAt_complete; eauto.
Qed.

End Search.

(** ** Heading metadata: a captured label is never empty *)

Lemma label_capture_nonempty kw heading c :
  String_match heading
    (mkRegExp (Lit kw >> Plus isSpace >> Grp 1 (Plus digitOrHyphen)) true) = Some c ->
  exists l, c 1%nat = Some l /\ l <> [] /\ forallb digitOrHyphen l = true.
Proof.
  intros H. apply String_match_sound in H as (gap & t & post & _ & Hm & _).
  cbn [matches source ignoreCase] in Hm.
  destruct Hm as (t1 & t2 & c1 & _ & _ & t3 & t4 & c2 & _ & _ & c3 & (Hne & Hall & _) & ->).
  exists t4. auto.
Qed.

Lemma extractLocation_nonempty heading l :
  extractLocation heading = Some l -> l <> [].
Proof.
  unfold extractLocation, group. intros H.
  destruct (String_match heading locationRe) as [c|] eqn:E; [|discriminate].
  apply label_capture_nonempty in E as (l' & E & Hne & _). congruence.
Qed.

Lemma extractPage_nonempty heading l :
  extractPage heading = Some l -> l <> [].
Proof.
  unfold extractPage, group. intros H.
  destruct (String_match heading pageRe) as [c|] eqn:E; [|discriminate].
  apply label_capture_nonempty in E as (l' & E & Hne & _). congruence.
Qed.

Lemma truthy_Some l : l <> [] -> truthy (Some l) = true.
Proof. destruct l; [congruence|reflexivity]. Qed.

Lemma truthy_extractLocation heading :
  truthy (extractLocation heading) = bool_decide (extractLocation heading <> None).
Proof.
  destruct (extractLocation heading) as [l|] eqn:E; [|reflexivity].
  apply extractLocation_nonempty in E. rewrite truthy_Some by assumption. reflexivity.
Qed.

Lemma truthy_extractPage heading :
  truthy (extractPage heading) = bool_decide (extractPage heading <> None).
Proof.
  destruct (extractPage heading) as [l|] eqn:E; [|reflexivity].
  apply extractPage_nonempty in E. rewrite truthy_Some by assumption. reflexivity.
Qed.

(** ** Finding the target of a note *)

Lemma refs_snoc hs h : refs (hs ++ [h]) = refs hs ++ [(length hs, h)].
Proof.
  unfold refs. rewrite imap_app. simpl. rewrite Nat.add_0_r. reflexivity.
Qed.

Lemma last_refs hs :
  last (refs hs) = match last hs with
                   | Some h => Some ((length hs - 1)%nat, h)
                   | None => None
                   end.
Proof.
  destruct hs as [|h0 hs] using rev_ind; [reflexivity|].
  rewrite refs_snoc, !last_snoc, length_app. simpl.
  replace (length hs + 1 - 1)%nat with (length hs) by lia. reflexivity.
Qed.

(** The backward search returns the entry nearest the end that passes. *)
Lemma find_rev_refs (f : KindleHighlight -> bool) hs :
  match List.find (fun r => f (snd r)) (rev (refs hs)) with
  | Some (i, h) =>
      hs !! i = Some h /\ f h = true
      /\ forall j h', (i < j)%nat -> hs !! j = Some h' -> f h' = false
  | None => forall j h', hs !! j = Some h' -> f h' = false
  end.
Proof.
  induction hs as [|h0 hs IH] using rev_ind.
  - simpl. intros j h' H. destruct j; discriminate.
  - rewrite refs_snoc, rev_app_distr. simpl.
    destruct (f h0) eqn:E.
    + split; [|split]; auto.
      * rewrite lookup_app_r, Nat.sub_diag by lia. reflexivity.
      * intros j h' Hj Hl. apply lookup_lt_Some in Hl.
        rewrite length_app in Hl. simpl in Hl. lia.
    + destruct (List.find (fun r => f (snd r)) (rev (refs hs))) as [[i h]|].
      * destruct IH as (Hi & Hf & Hlater). split; [|split]; auto.
        -- rewrite lookup_app_l; auto. eapply lookup_lt_Some; eauto.
        -- intros j h' Hj Hl.
           destruct (decide (j < length hs)%nat) as [Hlt|Hge].
           ++ rewrite lookup_app_l in Hl by assumption. eauto.
           ++ rewrite lookup_app_r in Hl by lia.
              destruct (j - length hs)%nat; simpl in Hl; [|discriminate].
              congruence.
      * intros j h' Hl.
        destruct (decide (j < length hs)%nat) as [Hlt|Hge].
        -- rewrite lookup_app_l in Hl by assumption. eauto.
        -- rewrite lookup_app_r in Hl by lia.
           destruct (j - length hs)%nat; simpl in Hl; [|discriminate].
           congruence.
Qed.

(** [findTarget] spelled out: the last entry at the note's location when
    the note has one and some entry shares it, else the last entry. *)
Lemma findTarget_byLocation l hs i h :
  l <> [] ->
  hs !! i = Some h -> location h = Some l ->
  (forall j h', (i < j)%nat -> hs !! j = Some h' -> location h' <> Some l) ->
  findTarget (Some l) hs = Some (i, h).
Proof.
  intros Hne Hi Hloc Hlater. unfold findTarget.
  rewrite truthy_Some by assumption.
  pose proof (find_rev_refs (sameLocation (Some l)) hs) as Hf.
  destruct (List.find _ (rev (refs hs))) as [[i' h'']|]; simpl.
  - destruct Hf as (Hi' & Hl' & Hlater'). apply bool_decide_eq_true in Hl'.
    destruct (Nat.lt_total i i') as [Hlt|[->|Hgt]].
    + exfalso. eapply Hlater; eauto.
    + congruence.
    + specialize (Hlater' _ _ Hgt Hi). apply bool_decide_eq_false in Hlater'. contradiction.
  - specialize (Hf _ _ Hi). apply bool_decide_eq_false in Hf. contradiction.
Qed.

Lemma findTarget_fallback loc hs :
  (loc = None \/ forall h, h ∈ hs -> location h <> loc) ->
  findTarget loc hs = match last hs with
                      | Some h => Some ((length hs - 1)%nat, h)
                      | None => None
                      end.
Proof.
  intros H. unfold findTarget. rewrite last_refs.
  destruct (truthy loc) eqn:Et; [|reflexivity].
  destruct H as [->|H]; [discriminate|].
  pose proof (find_rev_refs (sameLocation loc) hs) as Hf.
  destruct (List.find _ (rev (refs hs))) as [[i' h'']|]; [|reflexivity].
  destruct Hf as (Hi' & Hl' & _). apply bool_decide_eq_true in Hl'.
  exfalso. eapply H; eauto. eapply list_elem_of_lookup_2; eauto.
Qed.

Lemma findTarget_lookup loc hs i h :
  findTarget loc hs = Some (i, h) -> hs !! i = Some h.
Proof.
  unfold findTarget. rewrite last_refs.
  pose proof (find_rev_refs (sameLocation loc) hs) as Hf.
  destruct (truthy loc).
  - destruct (List.find _ (rev (refs hs))) as [[i' h'']|]; simpl.
    + intros [= <- <-]. tauto.
    + destruct (last hs) eqn:E; [|discriminate]. intros [= <- <-].
      rewrite last_lookup in E. rewrite <- E. f_equal. lia.
  - simpl. destruct (last hs) eqn:E; [|discriminate]. intros [= <- <-].
    rewrite last_lookup in E. rewrite <- E. f_equal. lia.
Qed.

Lemma findTarget_nonempty loc hs :
  hs <> [] -> exists i h, findTarget loc hs = Some (i, h).
Proof.
  intros Hne. unfold findTarget. rewrite last_refs.
  destruct (if truthy loc then _ else None) as [[i h]|]; simpl; eauto.
  destruct hs as [|h0 hs] using rev_ind; [congruence|].
  rewrite last_snoc. eauto.
Qed.

Lemma findTarget_nil loc : findTarget loc [] = None.
Proof. unfold findTarget. simpl. destruct (truthy loc); reflexivity. Qed.

Lemma findTarget_found l hs :
  l <> [] ->
  (exists h, h ∈ hs /\ location h = Some l) ->
  exists i h, findTarget (Some l) hs = Some (i, h)
    /\ hs !! i = Some h /\ location h = Some l
    /\ forall j h', (i < j)%nat -> hs !! j = Some h' -> location h' <> Some l.
Proof.
  intros Hne (h0 & Hin & Hloc).
  pose proof (find_rev_refs (sameLocation (Some l)) hs) as Hf.
  destruct (List.find _ (rev (refs hs))) as [[i h]|] eqn:E.
  - destruct Hf as (Hi & Hl & Hlater). apply bool_decide_eq_true in Hl.
    exists i, h. repeat split; auto.
    + apply findTarget_byLocation; auto.
      intros j h' Hj Hl'. specialize (Hlater _ _ Hj Hl').
      apply bool_decide_eq_false in Hlater. exact Hlater.
    + intros j h' Hj Hl'. specialize (Hlater _ _ Hj Hl').
      apply bool_decide_eq_false in Hlater. exact Hlater.
  - apply list_elem_of_lookup_1 in Hin as (j & Hj).
    specialize (Hf _ _ Hj). apply bool_decide_eq_false in Hf. contradiction.
Qed.

(** ** The merge loop *)

Lemma mergeBlocks_snoc blocks block :
  mergeBlocks (blocks ++ [block]) = processBlock (mergeBlocks blocks) block.
Proof. unfold mergeBlocks. rewrite fold_left_app. reflexivity. Qed.

Lemma processBlock_highlight hs block :
  test noteRe (cleanText (fst block)) = false ->
  processBlock hs block =
    hs ++ [mkHighlight (cleanText (snd block)) None
             (extractColor (cleanText (fst block)))
             (extractPage (cleanText (fst block)))
             (extractLocation (cleanText (fst block)))].
Proof. intros H. unfold processBlock. rewrite H. reflexivity. Qed.

Lemma processBlock_note hs block :
  test noteRe (cleanText (fst block)) = true ->
  processBlock hs block =
    match findTarget (extractLocation (cleanText (fst block))) hs with
    | Some (i, target) =>
        <[i := attachNote (cleanText (snd block))
                 (extractPage (cleanText (fst block))) target]> hs
    | None =>
        hs ++ [mkHighlight (cleanText (snd block)) None
                 (extractColor (cleanText (fst block)))
                 (extractPage (cleanText (fst block)))
                 (extractLocation (cleanText (fst block)))]
    end.
Proof. intros H. unfold processBlock. rewrite H. reflexivity. Qed.

Lemma attachNote_note body pg target :
  note (attachNote body pg target) = Some body.
Proof. unfold attachNote. simpl. destruct (_ && _); reflexivity. Qed.

Lemma attachNote_frame body pg target :
  text (attachNote body pg target) = text target
  /\ color (attachNote body pg target) = color target
  /\ location (attachNote body pg target) = location target.
Proof. unfold attachNote. simpl. destruct (_ && _); auto. Qed.

(** With labels that are never the empty string, the truthiness tests on
    pages are tests of presence. *)
Lemma attachNote_page body pg target :
  page target <> Some [] -> pg <> Some [] ->
  page (attachNote body pg target) =
    match page target with Some p => Some p | None => pg end.
Proof.
  intros Ht Hp. unfold attachNote. simpl.
  destruct (page target) as [[|x p]|]; [done| |]; simpl; auto.
  destruct pg as [[|y q]|]; [done| |]; reflexivity.
Qed.

Lemma extractPage_ok heading : extractPage heading <> Some [].
Proof. intros H. apply extractPage_nonempty in H. congruence. Qed.

(** Every page label in the array is present and non-empty, or absent. *)
Lemma mergeBlocks_pages blocks :
  Forall (fun h => page h <> Some []) (mergeBlocks blocks).
Proof.
  induction blocks as [|block blocks IH] using rev_ind; [constructor|].
  rewrite mergeBlocks_snoc.
  set (hs := mergeBlocks blocks) in *.
  assert (Hnew : Forall (fun h => page h <> Some [])
            (hs ++ [mkHighlight (cleanText (snd block)) None
               (extractColor (cleanText (fst block)))
               (extractPage (cleanText (fst block)))
               (extractLocation (cleanText (fst block)))])).
  { apply Forall_app. split; auto. constructor; [|constructor]. apply extractPage_ok. }
  destruct (test noteRe (cleanText (fst block))) eqn:En.
  - rewrite processBlock_note by assumption.
    destruct (findTarget _ hs) as [[i target]|] eqn:Ef; [|exact Hnew].
    apply Forall_insert; auto.
    apply findTarget_lookup in Ef.
    rewrite attachNote_page.
    + destruct (page target) eqn:Ep; [|apply extractPage_ok].
      rewrite <- Ep. eapply (proj1 (Forall_lookup _ _) IH); eauto.
    + eapply (proj1 (Forall_lookup _ _) IH); eauto.
    + apply extractPage_ok.
  - rewrite processBlock_highlight by assumption. exact Hnew.
Qed.

(** ** Notes and their targets *)

(** C1: a note block whose heading carries a location that some highlight
    already in the list has is written into the latest highlight with that
    location, whatever was appended after it, and the list keeps its
    length. *)
Theorem note_attaches_to_latest_same_location
    (blocks : list (jsstring * jsstring)) (headingRaw bodyRaw loc : jsstring) :
  let hs := mergeBlocks blocks in
  let heading := cleanText headingRaw in
  test noteRe heading = true ->
  extractLocation heading = Some loc ->
  (exists h, h ∈ hs /\ location h = Some loc) ->
  exists i target target',
    hs !! i = Some target /\ location target = Some loc
    /\ (forall j h', (i < j)%nat -> hs !! j = Some h' -> location h' <> Some loc)
    /\ mergeBlocks (blocks ++ [(headingRaw, bodyRaw)]) = <[i := target']> hs
    /\ note target' = Some (cleanText bodyRaw)
    /\ length (mergeBlocks (blocks ++ [(headingRaw, bodyRaw)])) = length hs.
Proof.
  intros hs heading Hnote Hloc Hex.
  destruct (findTarget_found loc hs (extractLocation_nonempty _ _ Hloc) Hex)
    as (i & target & Hf & Hi & Hl & Hlater).
  exists i, target, (attachNote (cleanText bodyRaw) (extractPage heading) target).
  rewrite mergeBlocks_snoc, processBlock_note by exact Hnote.
  simpl. fold heading hs. rewrite Hloc, Hf.
  repeat split; auto using attachNote_note, length_insert.
Qed.

(** C2: a note block without a location, or with one no highlight has, is
    written into the last highlight of a non-empty list; on an empty list
    it becomes a highlight of its own, its body as the text. *)
Theorem note_falls_back_to_last
    (blocks : list (jsstring * jsstring)) (headingRaw bodyRaw : jsstring) :
  let hs := mergeBlocks blocks in
  let heading := cleanText headingRaw in
  test noteRe heading = true ->
  (extractLocation heading = None
   \/ forall h, h ∈ hs -> location h <> extractLocation heading) ->
  match last hs with
  | Some target =>
      exists target',
        mergeBlocks (blocks ++ [(headingRaw, bodyRaw)])
          = <[(length hs - 1)%nat := target']> hs
        /\ last (mergeBlocks (blocks ++ [(headingRaw, bodyRaw)])) = Some target'
        /\ text target' = text target
        /\ note target' = Some (cleanText bodyRaw)
  | None =>
      mergeBlocks (blocks ++ [(headingRaw, bodyRaw)])
        = [mkHighlight (cleanText bodyRaw) None (extractColor heading)
             (extractPage heading) (extractLocation heading)]
  end.
Proof.
  intros hs heading Hnote Hloc.
  rewrite mergeBlocks_snoc, processBlock_note by exact Hnote.
  simpl. fold heading hs. rewrite (findTarget_fallback _ _ Hloc).
  destruct (last hs) as [target|] eqn:El.
  - exists (attachNote (cleanText bodyRaw) (extractPage heading) target).
    repeat split; auto using attachNote_note.
    + rewrite last_lookup, length_insert, <- Nat.sub_1_r.
      apply list_lookup_insert_eq.
      rewrite last_lookup in El. apply lookup_lt_Some in El. lia.
    + apply attachNote_frame.
  - apply last_None in El. rewrite El. reflexivity.
Qed.

(** C8: a note written into a highlight changes that highlight's note,
    fills its page from the note block when it had none, and leaves its
    text, colour, location and an existing page, and every other
    highlight, as they were. *)
Theorem note_attach_frame
    (blocks : list (jsstring * jsstring)) (headingRaw bodyRaw : jsstring) :
  let hs := mergeBlocks blocks in
  let hs' := mergeBlocks (blocks ++ [(headingRaw, bodyRaw)]) in
  let heading := cleanText headingRaw in
  test noteRe heading = true ->
  hs <> [] ->
  exists i target target',
    hs !! i = Some target /\ hs' !! i = Some target'
    /\ length hs' = length hs
    /\ (forall j, j <> i -> hs' !! j = hs !! j)
    /\ text target' = text target
    /\ color target' = color target
    /\ location target' = location target
    /\ note target' = Some (cleanText bodyRaw)
    /\ page target' = match page target with
                      | Some p => Some p
                      | None => extractPage heading
                      end.
Proof.
  intros hs hs' heading Hnote Hne.
  destruct (findTarget_nonempty (extractLocation heading) hs Hne) as (i & target & Hf).
  pose proof (findTarget_lookup _ _ _ _ Hf) as Hi.
  exists i, target, (attachNote (cleanText bodyRaw) (extractPage heading) target).
  assert (Hs : hs' = <[i := attachNote (cleanText bodyRaw) (extractPage heading) target]> hs).
  { unfold hs'. rewrite mergeBlocks_snoc, processBlock_note by exact Hnote.
    simpl. fold heading hs. rewrite Hf. reflexivity. }
  rewrite Hs. repeat split.
  - exact Hi.
  - apply list_lookup_insert_eq. eapply lookup_lt_Some; eauto.
  - apply length_insert.
  - intros j Hj. apply list_lookup_insert_ne. auto.
  - apply attachNote_frame.
  - apply attachNote_frame.
  - apply attachNote_frame.
  - apply attachNote_note.
  - apply attachNote_page; [|apply extractPage_ok].
    eapply (proj1 (Forall_lookup _ _) (mergeBlocks_pages blocks)); eauto.
Qed.

Lemma processBlock_other hs block i t :
  hs !! i = Some t ->
  ~ (test noteRe (cleanText (fst block)) = true
     /\ fst <$> findTarget (extractLocation (cleanText (fst block))) hs = Some i) ->
  processBlock hs block !! i = Some t.
Proof.
  intros Hi Hnot.
  destruct (test noteRe (cleanText (fst block))) eqn:En.
  - rewrite processBlock_note by assumption.
    destruct (findTarget _ hs) as [[i' target]|] eqn:Ef.
    + rewrite list_lookup_insert_ne; auto.
      intros ->. apply Hnot. auto.
    + rewrite lookup_app_l; auto. eapply lookup_lt_Some; eauto.
  - rewrite processBlock_highlight by assumption.
    rewrite lookup_app_l; auto. eapply lookup_lt_Some; eauto.
Qed.

(** C10: the note of a highlight after the loop is the body of the last
    note block that was written into it; what earlier note blocks wrote
    there is gone. *)
Theorem last_note_wins
    (pre post : list (jsstring * jsstring)) (block : jsstring * jsstring) (i : nat) :
  resolvesTo pre block i ->
  (forall p1 b p2, post = p1 ++ b :: p2 -> ~ resolvesTo (pre ++ block :: p1) b i) ->
  exists t, mergeBlocks (pre ++ block :: post) !! i = Some t
            /\ note t = Some (cleanText (snd block)).
Proof.
  intros [Hnote Hres].
  induction post as [|b post IH] using rev_ind; intros Hlast.
  - rewrite mergeBlocks_snoc, processBlock_note by exact Hnote.
    destruct (findTarget _ (mergeBlocks pre)) as [[i' target]|] eqn:Ef; [|discriminate].
    simpl in Hres. injection Hres as ->.
    eexists. split; [|apply attachNote_note].
    apply list_lookup_insert_eq. apply findTarget_lookup in Ef.
    eapply lookup_lt_Some; eauto.
  - destruct IH as (t & Ht & Hn).
    { intros p1 b' p2 ->. apply (Hlast p1 b' (p2 ++ [b])).
      rewrite <- app_assoc. reflexivity. }
    exists t. split; [|exact Hn].
    replace (pre ++ block :: post ++ [b]) with ((pre ++ block :: post) ++ [b])
      by (rewrite <- app_assoc; reflexivity).
    rewrite mergeBlocks_snoc. apply processBlock_other; auto.
    apply (Hlast post b []). reflexivity.
Qed.

(** ** The whole-document fallback *)

(** C3: when the scan finds no pair, the result holds the normalized
    document as its only highlight, without note or metadata, or no
    highlight at all when the normalized document is empty. *)
Theorem fallback_whole_document (html : jsstring) :
  scanBlocks html = [] ->
  highlights (parseKindleHtml html) =
    match cleanText html with
    | [] => []
    | _ :: _ => [mkHighlight (cleanText html) None None None None]
    end.
Proof.
  intros H. unfold parseKindleHtml. rewrite H. simpl.
  destruct (cleanText html); reflexivity.
Qed.

(** ** The title *)

Lemma titleMatch_group html c :
  titleMatch html = Some c -> exists t, c 1%nat = Some t.
Proof.
  unfold titleMatch, or_else. intros H.
  destruct (String_match html titleClassRe) as [c1|] eqn:E1.
  - injection H as ->.
    apply String_match_sound in E1 as (gap & t & post & _ & Hm & _).
    cbn [source ignoreCase titleClassRe] in Hm. break_matches Hm; subst; eexists; reflexivity.
  - apply String_match_sound in H as (gap & t & post & _ & Hm & _).
    cbn [source ignoreCase titleTagRe] in Hm. break_matches Hm; subst; eexists; reflexivity.
Qed.

(** C4, the claim as worded fails: a title element without content
    matches the second pattern and gives the empty title. *)
Lemma title_can_be_empty :
  titleMatch (str "<title></title>") <> None
  /\ title (parseKindleHtml (str "<title></title>")) = [].
Proof. split; [|vm_compute; reflexivity]. vm_compute. discriminate. Qed.

(** ** Entities *)

(** C5: the ampersand entity is decoded fourth of six, before the double
    quote and the apostrophe: an encoded ampersand in front of [lt;] stays
    one, in front of [quot;] or [#39;] it is decoded a second time. *)
Theorem decodeEntities_amp_order :
  decodeEntities (str "&amp;lt;") = str "&lt;"
  /\ decodeEntities (str "&amp;quot;") = [34]
  /\ decodeEntities (str "&amp;#39;") = str "'".
Proof. vm_compute. auto. Qed.

(** ** The report *)

Lemma renderItem_entryLines lines index item :
  renderItem lines (index, item) = lines ++ entryLines index item.
Proof.
  unfold renderItem, entryLines, metaOf, parenthetical, parenthesized, filterBoolean.
  destruct item as [tx nt cl pg lc]. cbn [text note color page location].
  destruct cl as [[|? ?]|], pg as [[|? ?]|], lc as [[|? ?]|], nt as [[|? ?]|];
    cbn -[ofNat Nat.add]; rewrite <- ?app_assoc; cbn -[ofNat Nat.add];
    rewrite ?app_nil_r; reflexivity.
Qed.

Lemma fold_renderItem l : forall k lines,
  fold_left renderItem (imap (fun i => pair (k + i)%nat) l) lines
  = lines ++ concat (imap (fun i => entryLines (k + i)) l).
Proof.
  induction l as [|item l IH]; intros k lines; cbn [imap fold_left concat].
  - rewrite app_nil_r. reflexivity.
  - rewrite renderItem_entryLines.
    rewrite (imap_ext _ (fun i => pair (S k + i)%nat) l)
      by (intros; unfold compose; f_equal; lia).
    rewrite IH, <- app_assoc. do 3 f_equal.
    apply imap_ext. intros. unfold compose. f_equal. lia.
Qed.

(** C9: the report is the header lines followed, for each highlight in
    list order, by its numbered entry (position counted from one, then
    the text, then one parenthetical of the fields that are present and
    not empty, in the order colour, page, location, joined by middle
    dots; nothing when there is none) and, when the note is present and
    not empty, by the quoted note line. *)
Theorem report_entries (notebook : KindleNotebook) :
  kindleNotebookToMarkdown notebook
  = join newline (headerLines notebook
                  ++ concat (imap entryLines (highlights notebook))).
Proof.
  unfold kindleNotebookToMarkdown, refs.
  rewrite (fold_renderItem (highlights notebook) 0). reflexivity.
Qed.

(** C9, the claim as worded fails: a note block with an empty body leaves
    a note that is present and empty, and the report has no quoted line
    for it. *)
Lemma empty_note_has_no_line :
  highlights (parseKindleHtml emptyNoteDoc) = [mkHighlight (str "x") (Some []) None None None]
  /\ kindleNotebookToMarkdown (parseKindleHtml emptyNoteDoc)
     = str "# Kindle Notebook" ++ newline ++ newline ++ str "1. x".
Proof. vm_compute. auto. Qed.

(** The scenario of the specification. *)
Example report_scenario :
  kindleNotebookToMarkdown
    (mkNotebook (str "Atlas") (Some (str "J. Doe"))
       [mkHighlight (str "Sample") (Some (str "good point")) (Some (str "Yellow"))
          (Some (str "12")) (Some (str "340"))])
  = join newline
      [ str "# Atlas"; str "_by J. Doe_"; [];
        str "1. Sample" ++ emDash ++ str " (Yellow" ++ middleDot ++ str "Page 12"
          ++ middleDot ++ str "Loc 340)";
        str "   > good point" ].
Proof. vm_compute. reflexivity. Qed.

(** ** Literals *)

Lemma lit_match_ciEq l : forall t, lit_match true l t <-> ciEq l t.
Proof.
  unfold ciEq. induction l as [|a l IH]; intros [|x t]; simpl.
  - split; auto.
  - split; [contradiction|]. intros H. inversion H.
  - split; [contradiction|]. intros H. inversion H.
  - unfold chr_eq. rewrite N.eqb_eq, IH. split.
    + intros [? ?]. constructor; assumption.
    + intros H. inversion H; subst. auto.
Qed.

Lemma canon_symbol a x :
  (a < 65 \/ 90 < a) -> (a < 97 \/ 122 < a) -> canon a = canon x -> x = a.
Proof.
  unfold canon. intros Hu Hl.
  destruct (N.leb_spec 97 a), (N.leb_spec a 122), (N.leb_spec 97 x), (N.leb_spec x 122);
    simpl; lia.
Qed.

Lemma ciEq_refl l : ciEq l l.
Proof. unfold ciEq. induction l; constructor; auto. Qed.

Lemma ciEq_length l t : ciEq l t -> length t = length l.
Proof. intros H. symmetry. eapply Forall2_length; eauto. Qed.

Lemma ciEq_open_paren t : ciEq (str "(") t -> t = str "(".
Proof.
  intros H. inversion H as [|a x l t' Hc Ht]; subst. inversion Ht; subst.
  apply canon_symbol in Hc; [subst x; reflexivity|vm_compute; auto|vm_compute; auto].
Qed.

Lemma ciEq_close_paren t : ciEq (str ")") t -> t = str ")".
Proof.
  intros H. inversion H as [|a x l t' Hc Ht]; subst. inversion Ht; subst.
  apply canon_symbol in Hc; [subst x; reflexivity|vm_compute; auto|vm_compute; auto].
Qed.

(** ** The colour *)

Lemma colorRe_matches pre t post c :
  matches true (source colorRe) pre t post no_captures c
  <-> exists name, isColorName name /\ t = str "(" ++ name ++ str ")"
                   /\ c = set_capture 1 name no_captures.
Proof.
  cbn [source colorRe]. unfold lit. cbn [matches]. split.
  - intros (t1 & t2 & cm & -> & (H1 & ->) & t3 & t4 & cm2 & -> & (cm3 & Ha & ->) & H4 & ->).
    apply lit_match_ciEq, ciEq_open_paren in H1.
    apply lit_match_ciEq, ciEq_close_paren in H4. subst t1 t4.
    exists t3. split; [|split; auto].
    + unfold isColorName, colorNames.
      destruct Ha as [[H _]|[[H _]|[[H _]|[[H _]|[H _]]]]]; apply lit_match_ciEq in H;
        eexists; (split; [|exact H]); simpl; auto 6.
    + f_equal. destruct Ha as [[_ ->]|[[_ ->]|[[_ ->]|[[_ ->]|[_ ->]]]]]; reflexivity.
  - intros (name & (n & Hin & Hn) & -> & ->).
    exists (str "("), (name ++ str ")"), no_captures.
    split; [reflexivity|]. split; [split; [apply lit_match_ciEq, ciEq_refl|reflexivity]|].
    exists name, (str ")"), (set_capture 1 name no_captures).
    split; [reflexivity|]. split; [|split; [|reflexivity]].
    + exists no_captures. split; [|reflexivity].
      apply lit_match_ciEq in Hn. simpl in Hin.
      destruct Hin as [<-|[<-|[<-|[<-|[<-|[]]]]]]; auto 6.
    + apply lit_match_ciEq, ciEq_refl.
Qed.

Lemma prefix_split (a b c d : jsstring) :
  a ++ b = c ++ d -> (length a < length c)%nat ->
  exists l, l <> [] /\ c = a ++ l /\ b = l ++ d.
Proof.
  intros H Hlen. apply app_eq_app in H as (l & [[-> ->]|[-> ->]]).
  - rewrite length_app in Hlen. lia.
  - exists l. repeat split; auto. intros ->. rewrite app_nil_r in Hlen. lia.
Qed.

Lemma colorAt_matches heading gap c :
  colorAt heading gap c ->
  exists post, heading = gap ++ (str "(" ++ c ++ str ")") ++ post
    /\ matches true (source colorRe) (rev gap) (str "(" ++ c ++ str ")") post
         no_captures (set_capture 1 c no_captures).
Proof.
  intros (Hc & post & ->). exists post. split.
  - rewrite <- !app_assoc. reflexivity.
  - apply colorRe_matches. exists c. auto.
Qed.

(** C6: the colour returned is the text between the parentheses of the
    leftmost parenthesized colour name of the heading, in the letter case
    the heading has it; a heading without one gives no colour. *)
Theorem extractColor_source_casing (heading : jsstring) :
  match extractColor heading with
  | Some c =>
      exists gap, colorAt heading gap c
        /\ forall gap' c', colorAt heading gap' c' -> (length gap <= length gap')%nat
  | None => forall gap c, ~ colorAt heading gap c
  end.
Proof.
  unfold extractColor, group.
  destruct (String_match heading colorRe) as [cs|] eqn:E.
  - apply String_match_sound in E as (gap & t & post & Hs & Hm & Hmin).
    apply colorRe_matches in Hm as (name & Hname & -> & ->).
    cbn [set_capture Nat.eqb]. exists gap. split.
    + split; [exact Hname|]. exists post. rewrite Hs, <- !app_assoc. reflexivity.
    + intros gap' c' Hat. apply colorAt_matches in Hat as (post' & Hs' & Hm').
      destruct (Nat.le_gt_cases (length gap) (length gap')) as [|Hlt]; [assumption|].
      exfalso. rewrite Hs in Hs'. symmetry in Hs'.
      destruct (prefix_split _ _ _ _ Hs' Hlt) as (l & Hne & -> & Hrest).
      specialize (Hmin gap' l eq_refl Hne). cbn [ignoreCase source colorRe] in Hmin.
      rewrite <- Hrest in Hmin. eapply matchAt_complete; [|exact Hmin]. exact Hm'.
  - intros gap c Hat. apply colorAt_matches in Hat as (post & Hs & Hm).
    eapply String_match_none; eauto.
Qed.

(** C6, the claim as worded fails: the lower-case name is returned as
    written, not as [Yellow]. *)
Lemma color_keeps_source_casing :
  extractColor (str "(yellow)") = Some (str "yellow")
  /\ extractColor (str "(yellow)") <> Some (str "Yellow").
Proof. split; [vm_compute; reflexivity|vm_compute; discriminate]. Qed.

(** ** Blocks *)

Lemma forallb_anyChar t : forallb anyChar t = true.
Proof. induction t; auto. Qed.

Lemma headingBlock_sound pre t post c :
  matches true (source headingBlock) pre t post no_captures c ->
  exists h b, blockText t h b
    /\ c = set_capture 2 b (set_capture 1 h no_captures).
Proof.
  cbn [source headingBlock]. unfold lit. cbn [matches].
  intros (t1 & r1 & c1 & -> & (L1 & ->)
        & t2 & r2 & c2 & -> & (S2 & ->)
        & t3 & r3 & c3 & -> & (L3 & ->)
        & t4 & r4 & c4 & -> & ((q1 & -> & Q4) & ->)
        & t5 & r5 & c5 & -> & (L5 & ->)
        & t6 & r6 & c6 & -> & ((q2 & -> & Q6) & ->)
        & t7 & r7 & c7 & -> & (S7 & ->)
        & t8 & r8 & c8 & -> & (L8 & ->)
        & h & r9 & c9 & -> & (cm9 & (_ & ->) & ->)
        & t10 & r10 & c10 & -> & (L10 & ->)
        & ws & r11 & c11 & -> & (S11 & ->)
        & t12 & r12 & c12 & -> & (L12 & ->)
        & t13 & r13 & c13 & -> & (S13 & ->)
        & t14 & r14 & c14 & -> & (L14 & ->)
        & t15 & r15 & c15 & -> & ((q3 & -> & Q15) & ->)
        & t16 & r16 & c16 & -> & (L16 & ->)
        & t17 & r17 & c17 & -> & ((q4 & -> & Q17) & ->)
        & t18 & r18 & c18 & -> & (S18 & ->)
        & t19 & r19 & c19 & -> & (L19 & ->)
        & b & e2 & c20 & -> & (cm20 & (_ & ->) & ->)
        & L20 & ->).
  apply lit_match_ciEq in L1, L3, L5, L8, L10, L12, L14, L16, L19, L20.
  assert (E8 : t8 = str ">").
  { inversion L8 as [|a x l t' Hc Ht]; subst. inversion Ht; subst.
    apply canon_symbol in Hc; [subst x; reflexivity|vm_compute; auto|vm_compute; auto]. }
  assert (E19 : t19 = str ">").
  { inversion L19 as [|a x l t' Hc Ht]; subst. inversion Ht; subst.
    apply canon_symbol in Hc; [subst x; reflexivity|vm_compute; auto|vm_compute; auto]. }
  subst t8 t19.
  exists h, b. split; [|reflexivity].
  exists (t1 ++ t2 ++ t3 ++ [q1] ++ t5 ++ [q2] ++ t7 ++ str ">"), t10, ws,
         (t12 ++ t13 ++ t14 ++ [q3] ++ t16 ++ [q4] ++ t18 ++ str ">"), e2.
  split; [rewrite <- !app_assoc; reflexivity|].
  split; [exists t1, t2, t3, q1, t5, q2, t7; repeat split; assumption|].
  split; [assumption|]. split; [assumption|].
  split; [exists t12, t13, t14, q3, t16, q4, t18; repeat split; assumption|assumption].
Qed.

Lemma headingBlock_complete pre t post h b :
  blockText t h b ->
  matches true (source headingBlock) pre t post no_captures
    (set_capture 2 b (set_capture 1 h no_captures)).
Proof.
  intros (o1 & e1 & ws & o2 & e2 & -> & O1 & E1 & Hws & O2 & E2).
  destruct O1 as (d & a1 & k & q1 & n & q2 & a2 & -> & D & A1 & K & Q1 & N' & Q2 & A2).
  destruct O2 as (d' & b1 & k' & q3 & n' & q4 & b2 & -> & D' & B1 & K' & Q3 & N'' & Q4 & B2).
  apply lit_match_ciEq in D, K, N', D', K', N'', E1, E2.
  cbn [source headingBlock]. unfold lit. cbn [matches].
  rewrite <- !app_assoc.
  seq_step d; [auto|]. seq_step a1; [auto|]. seq_step k; [auto|].
  seq_step [q1]; [eauto|]. seq_step n; [auto|]. seq_step [q2]; [eauto|].
  seq_step a2; [auto|].
  seq_step (str ">"); [split; [apply lit_match_ciEq, ciEq_refl|reflexivity]|].
  seq_step h; [eexists; split; [split; [apply forallb_anyChar|reflexivity]|reflexivity]|].
  seq_step e1; [auto|]. seq_step ws; [auto|].
  seq_step d'; [auto|]. seq_step b1; [auto|]. seq_step k'; [auto|].
  seq_step [q3]; [eauto|]. seq_step n'; [auto|]. seq_step [q4]; [eauto|].
  seq_step b2; [auto|].
  seq_step (str ">"); [split; [apply lit_match_ciEq, ciEq_refl|reflexivity]|].
  exists b, e2. eexists. split; [reflexivity|]. split.
  - eexists; split; [split; [apply forallb_anyChar|reflexivity]|reflexivity].
  - auto.
Qed.

Lemma blockText_nonempty t h b : blockText t h b -> t <> [].
Proof.
  intros (o1 & e1 & ws & o2 & e2 & -> & O1 & _).
  destruct O1 as (d & a1 & k & q1 & n & q2 & a2 & -> & D & _).
  apply ciEq_length in D. destruct d; [discriminate|]. discriminate.
Qed.

(** ** The scan loop *)

Section ExecLoop.

Variable re : RegExp.

(** No match of the pattern is empty, so each [exec] moves [lastIndex]
    forward and the loop of the source comes to an end. *)
Hypothesis match_consumes : forall pre suf s',
  matchAt re pre suf = Some s' ->
  exists x t, suf = (x :: t) ++ m_suf s' /\ m_pre s' = rev (x :: t) ++ pre.

Lemma exec_go_skip t : forall pre rest,
  exec_go re pre (t ++ rest) (length t) = exec_go re (rev t ++ pre) rest 0.
Proof.
  induction t as [|x t IH]; intros pre rest; [reflexivity|].
  simpl. rewrite IH, <- app_assoc. reflexivity.
Qed.

Lemma exec_go_search suf : forall pre,
  exec_go re pre suf 0 =
    match searchFrom re pre suf with
    | Some (_, s') => m_caps s' :: exec_go re (m_pre s') (m_suf s') 0
    | None => []
    end.
Proof.
  induction suf as [|x suf IH]; intros pre; simpl.
  - destruct (matchAt re pre []) as [s'|] eqn:E; [|reflexivity].
    apply match_consumes in E as (y & t & E & _). discriminate.
  - destruct (matchAt re pre (x :: suf)) as [s'|] eqn:E; [|apply IH].
    apply match_consumes in E as (y & t & E & Hp).
    injection E as <- ->. rewrite Hp.
    rewrite length_app, Nat.add_sub, length_rev. simpl.
    rewrite exec_go_skip, <- app_assoc. reflexivity.
Qed.

End ExecLoop.

Lemma headingBlock_consumes pre suf s' :
  matchAt headingBlock pre suf = Some s' ->
  exists x t, suf = (x :: t) ++ m_suf s' /\ m_pre s' = rev (x :: t) ++ pre.
Proof.
  intros H. apply matchAt_sound in H as (t & post & -> & Hm & Hp & ->).
  apply headingBlock_sound in Hm as (h & b & Hb & _).
  apply blockText_nonempty in Hb. destruct t as [|x t]; [congruence|]. eauto.
Qed.

Lemma blockStarts_matchAt pre s : blockStarts s -> matchAt headingBlock pre s <> None.
Proof.
  intros (t & rest & h & b & -> & Hb).
  eapply matchAt_complete. apply headingBlock_complete. exact Hb.
Qed.

Lemma scan_from n : forall suf pre,
  (length suf < n)%nat ->
  Scan suf (blockOf <$> exec_go headingBlock pre suf 0).
Proof.
  induction n as [|n IH]; intros suf pre Hn; [lia|].
  rewrite (exec_go_search _ headingBlock_consumes).
  destruct (searchFrom headingBlock pre suf) as [[p s']|] eqn:E.
  - apply searchFrom_sound in E as (gap & rest & -> & -> & Hm & Hmin).
    pose proof Hm as Hm'.
    apply matchAt_sound in Hm' as (t & post & -> & Hm' & Hp & Hs).
    apply headingBlock_sound in Hm' as (h & b & Hb & Hc).
    rewrite Hc, Hs. cbn [fmap list_fmap blockOf set_capture Nat.eqb default].
    apply Scan_block with (gap := gap) (t := t) (rest := post); auto.
    + intros g1 g2 Hg Hne Hstart.
      eapply blockStarts_matchAt; [exact Hstart|]. eapply Hmin; eauto.
    + apply IH. apply blockText_nonempty in Hb.
      rewrite !length_app in Hn. destruct t; [congruence|]. simpl in Hn. lia.
  - simpl. apply Scan_end. intros gap rest -> Hstart.
    eapply blockStarts_matchAt; [exact Hstart|].
    eapply searchFrom_none; eauto.
Qed.

(** C7, the claim as worded fails: with other markup between the heading
    block and the body block the scan finds no pair, with white space it
    finds the pair; markup that ends in a closing [div] tag is taken
    into the heading. *)
Lemma markup_between_blocks_not_scanned :
  scanBlocks markupBetweenDoc = []
  /\ scanBlocks spaceBetweenDoc = [(str "H", str "B")]
  /\ scanBlocks divBetweenDoc = [(str "H</div><div>x", str "B")].
Proof. vm_compute. auto. Qed.

(** ** The theorems at sample documents *)

Lemma note_attaches_to_latest_same_location_witness :
  scanBlocks (documentOf [highlightAt40; highlightAt50; noteAt40])
    = [highlightAt40; highlightAt50] ++ [noteAt40]
  /\ test noteRe (cleanText (fst noteAt40)) = true
  /\ extractLocation (cleanText (fst noteAt40)) = Some (str "40")
  /\ mergeBlocks ([highlightAt40; highlightAt50] ++ [noteAt40])
     = [ mkHighlight (str "First & text") (Some (str "my note")) None
           (Some (str "3")) (Some (str "40"));
         mkHighlight (str "Second") None (Some (str "blue"))
           (Some (str "7")) (Some (str "50")) ].
Proof.
  split; [vm_compute; reflexivity|].
  assert (Hnote : test noteRe (cleanText (fst noteAt40)) = true)
    by (vm_compute; reflexivity).
  assert (Hloc : extractLocation (cleanText (fst noteAt40)) = Some (str "40"))
    by (vm_compute; reflexivity).
  split; [exact Hnote|]. split; [exact Hloc|].
  destruct (note_attaches_to_latest_same_location
              [highlightAt40; highlightAt50] (fst noteAt40) (snd noteAt40) (str "40")
              Hnote Hloc) as (i & target & target' & _ & _ & _ & _ & _ & _).
  - exists (mkHighlight (str "First & text") None None None (Some (str "40"))).
    split; [|reflexivity].
    apply (list_elem_of_lookup_2 _ 0%nat). vm_compute. reflexivity.
  - vm_compute. reflexivity.
Defined.

Lemma note_falls_back_to_last_witness :
  scanBlocks (documentOf [highlightAt40; noteAt60])
    = [highlightAt40] ++ [noteAt60]
  /\ test noteRe (cleanText (fst noteAt60)) = true
  /\ exists target',
       mergeBlocks ([highlightAt40] ++ [noteAt60]) = [target']
       /\ text target' = str "First & text"
       /\ note target' = Some (str "stray note").
Proof.
  split; [vm_compute; reflexivity|].
  assert (Hnote : test noteRe (cleanText (fst noteAt60)) = true)
    by (vm_compute; reflexivity).
  split; [exact Hnote|].
  assert (Hloc : extractLocation (cleanText (fst noteAt60)) = None
                 \/ forall h, h ∈ mergeBlocks [highlightAt40] ->
                      location h <> extractLocation (cleanText (fst noteAt60))).
  { right. intros h Hin. vm_compute in Hin. apply list_elem_of_singleton in Hin.
    subst h. vm_compute. discriminate. }
  pose proof (note_falls_back_to_last [highlightAt40] (fst noteAt60) (snd noteAt60)
                Hnote Hloc) as H.
  change (last (mergeBlocks [highlightAt40]))
    with (Some (mkHighlight (str "First & text") None None None (Some (str "40")))) in H.
  destruct H as (target' & Hm & _ & Ht & Hn).
  change (fst noteAt60, snd noteAt60) with noteAt60 in Hm.
  exists target'. split; [|split].
  - rewrite Hm. vm_compute. reflexivity.
  - rewrite Ht. reflexivity.
  - rewrite Hn. vm_compute. reflexivity.
Defined.

Lemma fallback_whole_document_witness :
  scanBlocks (str "<p>Just&nbsp;some <b>text</b></p>") = []
  /\ highlights (parseKindleHtml (str "<p>Just&nbsp;some <b>text</b></p>"))
     = [mkHighlight (str "Just some text") None None None None].
Proof.
  assert (H : scanBlocks (str "<p>Just&nbsp;some <b>text</b></p>") = [])
    by (vm_compute; reflexivity).
  split; [exact H|].
  rewrite (fallback_whole_document _ H). vm_compute. reflexivity.
Defined.

Lemma note_attach_frame_witness :
  test noteRe (cleanText (fst noteAt40)) = true
  /\ mergeBlocks [highlightAt40; highlightAt50] <> []
  /\ exists i target target',
       mergeBlocks [highlightAt40; highlightAt50] !! i = Some target
       /\ mergeBlocks ([highlightAt40; highlightAt50] ++ [noteAt40]) !! i = Some target'
       /\ text target' = text target
       /\ note target' = Some (str "my note").
Proof.
  assert (Hnote : test noteRe (cleanText (fst noteAt40)) = true)
    by (vm_compute; reflexivity).
  assert (Hne : mergeBlocks [highlightAt40; highlightAt50] <> [])
    by (vm_compute; discriminate).
  split; [exact Hnote|]. split; [exact Hne|].
  destruct (note_attach_frame [highlightAt40; highlightAt50]
              (fst noteAt40) (snd noteAt40) Hnote Hne)
    as (i & target & target' & Hi & Hi' & _ & _ & Ht & _ & _ & Hn & _).
  exists i, target, target'. repeat split; auto.
Defined.

Lemma last_note_wins_witness :
  resolvesTo [highlightAt40] plainNote 0
  /\ resolvesTo [highlightAt40; plainNote] noteAt40 0
  /\ exists t,
       mergeBlocks ([highlightAt40; plainNote] ++ noteAt40 :: [highlightAt50]) !! 0%nat
         = Some t
       /\ note t = Some (str "my note").
Proof.
  assert (H1 : resolvesTo [highlightAt40] plainNote 0)
    by (split; vm_compute; reflexivity).
  assert (H2 : resolvesTo [highlightAt40; plainNote] noteAt40 0)
    by (split; vm_compute; reflexivity).
  split; [exact H1|]. split; [exact H2|].
  destruct (last_note_wins [highlightAt40; plainNote] [highlightAt50] noteAt40 0 H2)
    as (t & Ht & Hn).
  - intros [|b' [|b'' p1]] b p2 E; try discriminate.
    injection E as <- <-. intros [Hnote _]. vm_compute in Hnote. discriminate.
  - exists t. split; [exact Ht|]. rewrite Hn. vm_compute. reflexivity.
Defined.

(** ** Greedy quantifiers *)

Lemma star_run_greedy {A} p (f : list N -> list N -> A) suf : forall pre,
  exists t post, suf = t ++ post /\ forallb p t = true /\ notAhead p post
    /\ star_run true p (fun a b => Some (f a b)) pre suf = Some (f (rev t ++ pre) post).
Proof.
  induction suf as [|x suf IH]; intros pre.
  - exists [], []. simpl. auto.
  - simpl. destruct (p x) eqn:Px.
    + destruct (IH (x :: pre)) as (t & post & -> & Ht & Hpost & ->).
      exists (x :: t), post. simpl. rewrite Px, <- app_assoc. auto.
    + exists [], (x :: suf). simpl. auto.
Qed.

(** ** White space runs *)

Lemma spacesRe_matchAt pre suf :
  match matchAt spacesRe pre suf with
  | Some s' =>
      exists x t, suf = (x :: t) ++ m_suf s' /\ forallb isSpace (x :: t) = true
        /\ notAhead isSpace (m_suf s') /\ m_pre s' = rev (x :: t) ++ pre
  | None => notAhead isSpace suf
  end.
Proof.
  unfold matchAt. cbn [spacesRe source ignoreCase run m_suf m_pre m_caps].
  destruct suf as [|x suf]; [exact I|].
  destruct (isSpace x) eqn:Px; [|exact Px].
  destruct (star_run_greedy isSpace (fun a b => MState a b no_captures) suf (x :: pre))
    as (t & post & -> & Ht & Hpost & ->).
  exists x, t. simpl. rewrite Px, <- app_assoc. auto.
Qed.

Lemma collapseSpaces_notAhead s :
  notAhead isSpace s -> collapseSpaces true s = collapseSpaces false s.
Proof. destruct s as [|c s]; simpl; [reflexivity|]. intros ->. reflexivity. Qed.

Lemma collapseSpaces_run t : forall rest,
  forallb isSpace t = true ->
  collapseSpaces true (t ++ rest) = collapseSpaces true rest.
Proof.
  induction t as [|c t IH]; intros rest H; simpl in *; [reflexivity|].
  apply andb_prop in H as [-> H]. auto.
Qed.

Lemma replace_go_skip re rep t : forall pre rest,
  replace_go re rep pre (t ++ rest) (length t) = replace_go re rep (rev t ++ pre) rest 0.
Proof.
  induction t as [|x t IH]; intros pre rest; [reflexivity|].
  simpl. rewrite IH, <- app_assoc. reflexivity.
Qed.

Lemma replace_spaces n : forall suf pre,
  (length suf < n)%nat ->
  replace_go spacesRe (str " ") pre suf 0 = collapseSpaces false suf.
Proof.
  induction n as [|n IH]; intros suf pre Hn; [lia|].
  destruct suf as [|c suf]; [reflexivity|].
  pose proof (spacesRe_matchAt pre (c :: suf)) as Hm.
  cbn [replace_go].
  destruct (matchAt spacesRe pre (c :: suf)) as [s'|].
  - destruct Hm as (x & t & E & Ht & Hpost & ->).
    injection E as <- ->.
    rewrite length_app, Nat.add_sub, length_rev. cbn [length].
    rewrite replace_go_skip, IH by (simpl in Hn; rewrite length_app in Hn; lia).
    simpl in Ht. apply andb_prop in Ht as [Pc Ht].
    cbn [collapseSpaces]. rewrite Pc, (collapseSpaces_run _ _ Ht).
    rewrite collapseSpaces_notAhead by assumption. reflexivity.
  - simpl in Hm. cbn [collapseSpaces]. rewrite Hm.
    rewrite IH by (simpl in Hn; lia). reflexivity.
Qed.

Lemma replaceAll_spaces s :
  replaceAll s spacesRe (str " ") = collapseSpaces false s.
Proof. apply (replace_spaces (S (length s))). lia. Qed.

(** ** Trimming *)

Lemma trimStart_app a b :
  trimStart (a ++ b) = match trimStart a with
                       | [] => trimStart b
                       | c :: t => (c :: t) ++ b
                       end.
Proof.
  induction a as [|x a IH]; [reflexivity|]. simpl.
  destruct (isSpace x); [exact IH|reflexivity].
Qed.

Lemma rev_trimStart_rev s : rev (trimStart (rev s)) = trimEnd s.
Proof.
  induction s as [|c s IH]; [reflexivity|].
  simpl. rewrite trimStart_app, <- IH.
  destruct (trimStart (rev s)) as [|d t]; simpl.
  - destruct (isSpace c); reflexivity.
  - rewrite rev_app_distr. simpl.
    destruct (rev t ++ [d]) eqn:E; [|reflexivity].
    apply app_eq_nil in E as [_ E]. discriminate.
Qed.

Lemma trim_trimEnd s : trim s = trimEnd (trimStart s).
Proof. unfold trim. apply rev_trimStart_rev. Qed.

Lemma trimStart_notAhead s : notAhead isSpace s -> trimStart s = s.
Proof. destruct s as [|c s]; simpl; [reflexivity|]. intros ->. reflexivity. Qed.

Lemma collapseSpaces_true_notAhead s : notAhead isSpace (collapseSpaces true s).
Proof.
  induction s as [|c s IH]; simpl; [exact I|].
  destruct (isSpace c) eqn:E; [exact IH|exact E].
Qed.

Lemma trimStart_collapseSpaces b s :
  trimStart (collapseSpaces b s) = collapseSpaces true s.
Proof.
  destruct s as [|c s]; [reflexivity|]. simpl.
  destruct (isSpace c) eqn:E.
  - destruct b.
    + apply trimStart_notAhead, collapseSpaces_true_notAhead.
    + change (trimStart (32 :: collapseSpaces true s))
        with (trimStart (collapseSpaces true s)).
      apply trimStart_notAhead, collapseSpaces_true_notAhead.
  - simpl. rewrite E. reflexivity.
Qed.

Lemma trimEnd_notAhead s : notAhead isSpace s -> notAhead isSpace (trimEnd s).
Proof.
  destruct s as [|c s]; simpl; [auto|]. intros E.
  destruct (trimEnd s); [rewrite E|]; simpl; auto.
Qed.

Lemma spaced_trimEnd_collapseSpaces s : forall b,
  spaced (trimEnd (collapseSpaces b s)) = true.
Proof.
  induction s as [|c s IH]; intros b; [reflexivity|].
  simpl. destruct (isSpace c) eqn:E.
  - destruct b; [apply IH|].
    pose proof (trimEnd_notAhead _ (collapseSpaces_true_notAhead s)) as Hh.
    specialize (IH true). cbn [trimEnd].
    destruct (trimEnd (collapseSpaces true s)) as [|d t]; [reflexivity|].
    simpl in Hh.
    change (spaced (32 :: d :: t))
      with ((if isSpace 32 then (32 =? 32) && negb (isSpace d) else true)
            && spaced (d :: t)).
    rewrite Hh, IH. reflexivity.
  - cbn [trimEnd]. specialize (IH false).
    destruct (trimEnd (collapseSpaces false s)) as [|d t].
    + rewrite E. simpl. rewrite E. reflexivity.
    + change (spaced (c :: d :: t))
        with ((if isSpace c then (c =? 32) && negb (isSpace d) else true)
              && spaced (d :: t)).
      rewrite E. exact IH.
Qed.

Lemma cleanText_collapse html :
  cleanText html
  = trimEnd (collapseSpaces true (decodeEntities (replaceAll html tagRe (str " ")))).
Proof.
  unfold cleanText.
  rewrite trim_trimEnd, replaceAll_spaces, trimStart_collapseSpaces. reflexivity.
Qed.

Lemma cleanText_normal html : normalized (cleanText html) = true.
Proof.
  rewrite cleanText_collapse.
  set (d := decodeEntities _).
  pose proof (trimEnd_notAhead _ (collapseSpaces_true_notAhead d)) as Hh.
  pose proof (spaced_trimEnd_collapseSpaces d true) as Hs.
  unfold normalized. destruct (trimEnd (collapseSpaces true d)); [reflexivity|].
  simpl in Hh. rewrite Hh, Hs. reflexivity.
Qed.

(** X1: normalized text has no white space at either end, and inside
    only single U+0020 between code units that are not white space. *)
Theorem cleanText_normalized (html : jsstring) :
  normalized (cleanText html) = true.
Proof. exact (cleanText_normal html). Qed.

(** ** Replacements that find nothing *)

Lemma run_lit_head ic a l k pre suf c :
  match suf with x :: _ => chr_eq ic a x = false | [] => True end ->
  run ic (Lit (a :: l)) k (MState pre suf c) = None.
Proof.
  intros H. simpl. destruct suf as [|x suf]; [reflexivity|]. rewrite H. reflexivity.
Qed.

Lemma replace_go_no_match re rep suf : forall pre,
  (forall g1 g2, suf = g1 ++ g2 -> matchAt re (rev g1 ++ pre) g2 = None) ->
  replace_go re rep pre suf 0 = suf.
Proof.
  induction suf as [|x suf IH]; intros pre H;
    pose proof (H [] _ eq_refl) as H0; simpl in H0; simpl; rewrite H0.
  - reflexivity.
  - f_equal. apply IH.
    intros g1 g2 ->. specialize (H (x :: g1) g2 eq_refl).
    simpl in H. rewrite <- app_assoc in H. exact H.
Qed.

(** A pattern that starts with a literal code unit the string does not
    hold finds nothing in it. *)
Lemma replaceAll_absent_head a l r rep s :
  ~ In a s ->
  (r = Lit (a :: l) \/ exists r', r = Seq (Lit (a :: l)) r') ->
  replaceAll s (mkRegExp r false) rep = s.
Proof.
  intros Hin Hr. apply replace_go_no_match. intros g1 g2 ->.
  assert (Hh : match g2 with x :: _ => chr_eq false a x = false | [] => True end).
  { destruct g2 as [|x g2]; [exact I|]. simpl. apply N.eqb_neq.
    intros ->. apply Hin. apply in_or_app. right. left. reflexivity. }
  unfold matchAt. cbn [source ignoreCase].
  destruct Hr as [->|(r' & ->)]; [|cbn [run]]; apply run_lit_head; exact Hh.
Qed.

Lemma decodeEntities_no_amp (s : jsstring) :
  ~ In 38 s -> decodeEntities s = s.
Proof.
  intros H. unfold decodeEntities, entityRe, lit. cbv zeta.
  rewrite (replaceAll_absent_head 38 (str "nbsp;") (Lit (str "&nbsp;")) _ s H)
    by (left; reflexivity).
  rewrite (replaceAll_absent_head 38 (str "lt;") (Lit (str "&lt;")) _ s H)
    by (left; reflexivity).
  rewrite (replaceAll_absent_head 38 (str "gt;") (Lit (str "&gt;")) _ s H)
    by (left; reflexivity).
  rewrite (replaceAll_absent_head 38 (str "amp;") (Lit (str "&amp;")) _ s H)
    by (left; reflexivity).
  rewrite (replaceAll_absent_head 38 (str "quot;") (Lit (str "&quot;")) _ s H)
    by (left; reflexivity).
  apply (replaceAll_absent_head 38 (str "#39;") (Lit (str "&#39;")) _ s H).
  left; reflexivity.
Qed.

(** X3: a string without an ampersand is left as it is. *)
Theorem decodeEntities_without_ampersand (s : jsstring) :
  ~ In 38 s -> decodeEntities s = s.
Proof. exact (decodeEntities_no_amp s). Qed.

Lemma decodeEntities_without_ampersand_witness :
  ~ In 38 (str "3 < 4") /\ decodeEntities (str "3 < 4") = str "3 < 4".
Proof.
  assert (H : ~ In 38 (str "3 < 4")) by (vm_compute; intuition discriminate).
  split; [exact H|]. exact (decodeEntities_without_ampersand _ H).
Defined.

Lemma spaced_collapseSpaces s :
  spaced s = true -> collapseSpaces false s = s.
Proof.
  induction s as [|c s IH]; [reflexivity|].
  cbn [spaced collapseSpaces]. intros H. apply andb_prop in H as [Hc Hs].
  destruct (isSpace c) eqn:E.
  - apply andb_prop in Hc as [Hc Hn]. apply N.eqb_eq in Hc. subst c.
    rewrite collapseSpaces_notAhead, IH; auto.
    destruct s as [|d s]; [exact I|]. simpl. apply negb_true_iff. exact Hn.
  - rewrite IH; auto.
Qed.

Lemma spaced_trimEnd s : spaced s = true -> trimEnd s = s.
Proof.
  induction s as [|c s IH]; [reflexivity|].
  cbn [spaced trimEnd]. intros H. apply andb_prop in H as [Hc Hs].
  rewrite IH by assumption.
  destruct s as [|d s]; [|reflexivity].
  destruct (isSpace c); [|reflexivity].
  apply andb_prop in Hc as [_ Hc]. discriminate.
Qed.

(** X4: plain text that is already in normal form, without a tag opener
    and without an ampersand, is its own normal form. *)
Theorem cleanText_fixed_point (s : jsstring) :
  ~ In 60 s -> ~ In 38 s -> normalized s = true -> cleanText s = s.
Proof.
  intros Hlt Hamp Hn. rewrite cleanText_collapse.
  unfold tagRe, lit.
  rewrite (replaceAll_absent_head 60 [] (Lit (str "<") >> Star true notGt >> Lit (str ">")) _ s Hlt)
    by (right; eexists; reflexivity).
  rewrite decodeEntities_no_amp by assumption.
  unfold normalized in Hn. destruct s as [|c s]; [reflexivity|].
  apply andb_prop in Hn as [Hc Hs]. apply negb_true_iff in Hc.
  rewrite collapseSpaces_notAhead by exact Hc.
  rewrite spaced_collapseSpaces, spaced_trimEnd by assumption. reflexivity.
Qed.

Lemma cleanText_fixed_point_witness :
  normalized (str "Location 12 of 40") = true
  /\ cleanText (str "Location 12 of 40") = str "Location 12 of 40".
Proof.
  assert (Hn : normalized (str "Location 12 of 40") = true) by (vm_compute; reflexivity).
  split; [exact Hn|].
  apply cleanText_fixed_point; [| |exact Hn]; vm_compute; intuition discriminate.
Defined.

(** ** Replacements never lengthen *)

Lemma replace_go_length re rep :
  (forall pre suf t post c,
     suf = t ++ post -> matches (ignoreCase re) (source re) pre t post no_captures c ->
     (length rep <= length t)%nat) ->
  forall suf pre skip, (skip <= length suf)%nat ->
  (length (replace_go re rep pre suf skip) + skip <= length suf)%nat.
Proof.
  intros Hrep. induction suf as [|x suf IH]; intros pre skip Hs.
  - destruct skip; [|simpl in Hs; lia]. simpl.
    destruct (matchAt re pre []) as [s'|] eqn:E; [|simpl; lia].
    apply matchAt_sound in E as (t & post & E & Hm & _).
    pose proof (Hrep _ _ _ _ _ E Hm) as Hl.
    symmetry in E. apply app_eq_nil in E as [-> _].
    rewrite app_nil_r. simpl in *. lia.
  - destruct skip as [|n]; cbn [replace_go].
    + destruct (matchAt re pre (x :: suf)) as [s'|] eqn:E.
      * apply matchAt_sound in E as (t & post & E & Hm & Hp & _).
        pose proof (Hrep _ _ _ _ _ E Hm) as Hl.
        rewrite Hp.
        replace (length (rev t ++ pre) - length pre)%nat with (length t)
          by (rewrite length_app, length_rev; lia).
        rewrite length_app.
        destruct t as [|y t]; cbn [length].
        -- specialize (IH (x :: pre) 0%nat ltac:(lia)). simpl in Hl. lia.
        -- injection E as <- E. subst suf.
           specialize (IH (x :: pre) (length t)).
           pose proof (length_app t post) as Hlen. cbn [length] in Hl.
           specialize (IH ltac:(lia)). lia.
      * cbn [length]. specialize (IH (x :: pre) 0%nat ltac:(lia)). lia.
    + cbn [length] in *. specialize (IH (x :: pre) n ltac:(lia)). lia.
Qed.

Lemma replaceAll_length re rep s :
  (forall pre suf t post c,
     suf = t ++ post -> matches (ignoreCase re) (source re) pre t post no_captures c ->
     (length rep <= length t)%nat) ->
  (length (replaceAll s re rep) <= length s)%nat.
Proof.
  intros H. pose proof (replace_go_length re rep H s [] 0%nat ltac:(lia)).
  unfold replaceAll. lia.
Qed.

Lemma lit_match_length ic l : forall t, lit_match ic l t -> length t = length l.
Proof.
  induction l as [|a l IH]; intros [|x t] H; simpl in H; try contradiction; auto.
  simpl. f_equal. apply IH. tauto.
Qed.

Lemma entity_replace_length name rep s :
  (length rep <= length (str name))%nat ->
  (length (replaceAll s (entityRe name) rep) <= length s)%nat.
Proof.
  intros Hl. apply replaceAll_length.
  intros pre suf t post c _ Hm. cbn [entityRe source ignoreCase lit matches] in Hm.
  unfold lit in Hm. cbn [matches] in Hm. destruct Hm as [Hm _].
  apply lit_match_length in Hm. lia.
Qed.

Lemma decodeEntities_length s : (length (decodeEntities s) <= length s)%nat.
Proof.
  unfold decodeEntities. cbv zeta.
  repeat (etransitivity; [apply entity_replace_length; vm_compute; lia|]).
  reflexivity.
Qed.

Lemma trimStart_length s : (length (trimStart s) <= length s)%nat.
Proof.
  induction s as [|c s IH]; simpl; [lia|].
  destruct (isSpace c); simpl; lia.
Qed.

Lemma trimEnd_length s : (length (trimEnd s) <= length s)%nat.
Proof.
  induction s as [|c s IH]; simpl; [lia|].
  destruct (trimEnd s); [destruct (isSpace c)|]; simpl in *; lia.
Qed.

(** X2: normalization never lengthens a text. *)
Theorem cleanText_length (html : jsstring) :
  (length (cleanText html) <= length html)%nat.
Proof.
  unfold cleanText. rewrite trim_trimEnd.
  etransitivity; [apply trimEnd_length|].
  etransitivity; [apply trimStart_length|].
  etransitivity.
  { apply replaceAll_length. intros pre suf t post c _ Hm.
    cbn [spacesRe source ignoreCase matches] in Hm.
    destruct Hm as (Hne & _). destruct t; [congruence|]. simpl. lia. }
  etransitivity; [apply decodeEntities_length|].
  apply replaceAll_length. intros pre suf t post c _ Hm.
  cbn [tagRe source ignoreCase] in Hm. unfold lit in Hm. cbn [matches] in Hm.
  destruct Hm as (t1 & t2 & c1 & -> & (H1 & _) & _).
  apply lit_match_length in H1. rewrite length_app, H1. simpl. lia.
Qed.

(** ** Which headings are notes *)

Lemma test_true_iff re s :
  test re s = true <->
  exists gap t post c, s = gap ++ t ++ post
    /\ matches (ignoreCase re) (source re) (rev gap) t post no_captures c.
Proof.
  unfold test. split.
  - destruct (searchFrom re [] s) as [[p s']|] eqn:E; [|discriminate]. intros _.
    apply searchFrom_sound in E as (gap & rest & -> & -> & Hm & _).
    apply matchAt_sound in Hm as (t & post & -> & Hm & _).
    rewrite app_nil_r in Hm. eauto 6.
  - intros (gap & t & post & c & -> & Hm).
    destruct (searchFrom re [] (gap ++ t ++ post)) as [[p s']|] eqn:E; [reflexivity|].
    exfalso. eapply searchFrom_none in E; [|reflexivity].
    rewrite app_nil_r in E. eapply matchAt_complete; eauto.
Qed.

Lemma ciEq_note_last w pre :
  ciEq (str "note") w -> wordAt (rev w ++ pre) = true.
Proof.
  intros H. unfold ciEq in H.
  inversion H as [|? a ? w1 _ H1]; subst.
  inversion H1 as [|? b ? w2 _ H2]; subst.
  inversion H2 as [|? c ? w3 _ H3]; subst.
  inversion H3 as [|? d ? w4 Hd H4]; subst.
  inversion H4; subst. simpl.
  change (canon (N_of_ascii "e")) with 69 in Hd.
  unfold canon in Hd. unfold isWord, isDigit.
  destruct (N.leb_spec 97 d), (N.leb_spec d 122), (N.leb_spec 65 d), (N.leb_spec d 90);
    simpl in *; try reflexivity; lia.
Qed.

Lemma wordAt_false s : wordAt s = false <-> notAhead isWord s.
Proof. destruct s; simpl; tauto. Qed.

(** X5: a heading is taken for a note when it starts with the word
    [note], in any letter case, and no letter, digit or underscore comes
    right after it. *)
Theorem note_heading_rule (heading : jsstring) :
  test noteRe heading = true <->
  exists w rest, heading = w ++ rest /\ ciEq (str "note") w /\ notAhead isWord rest.
Proof.
  rewrite test_true_iff. cbn [noteRe source ignoreCase]. unfold lit. cbn [matches]. split.
  - intros (gap & t & post & c & -> &
            t1 & t2 & c1 & -> & (-> & Hg & _) &
            t3 & t4 & c2 & -> & (Hl & _) & -> & Hx & _).
    apply lit_match_ciEq in Hl.
    destruct gap as [|g gap] using rev_ind;
      [|rewrite rev_app_distr in Hg; discriminate].
    exists t3, post. rewrite app_nil_r. simpl. repeat split; auto.
    apply wordAt_false. rewrite ciEq_note_last in Hx by assumption.
    destruct (wordAt post); [discriminate|reflexivity].
  - intros (w & rest & -> & Hw & Hr).
    exists [], w, rest, no_captures. split; [reflexivity|].
    exists [], w, no_captures. repeat split.
    exists w, [], no_captures. rewrite app_nil_r. repeat split.
    + apply lit_match_ciEq. exact Hw.
    + rewrite ciEq_note_last by assumption.
      apply wordAt_false in Hr. rewrite Hr. reflexivity.
Qed.

(** ** Labels *)

Lemma label_matchAt kw pre suf s' :
  matchAt (mkRegExp (Lit kw >> Plus isSpace >> Grp 1 (Plus digitOrHyphen)) true) pre suf
    = Some s' ->
  exists k ws l,
    suf = k ++ ws ++ l ++ m_suf s'
    /\ ciEq kw k /\ ws <> [] /\ forallb isSpace ws = true
    /\ l <> [] /\ forallb digitOrHyphen l = true
    /\ notAhead digitOrHyphen (m_suf s') /\ m_caps s' 1%nat = Some l.
Proof.
  unfold matchAt. cbn [source ignoreCase]. intros H.
  change (run true (Lit kw)
            (run true (Plus isSpace) (run true (Grp 1 (Plus digitOrHyphen)) Some))
            (MState pre suf no_captures) = Some s') in H.
  apply (run_sound true (Lit kw)) in H as (k & post1 & c1 & -> & (Hk & ->) & H).
  apply (run_sound true (Plus isSpace)) in H
    as (ws & post2 & c2 & -> & (Hne & Hws & ->) & H).
  cbn [run m_suf m_pre m_caps] in H.
  destruct post2 as [|x post2]; [discriminate|].
  destruct (digitOrHyphen x) eqn:Px; [|discriminate].
  set (s0 := MState (rev ws ++ rev k ++ pre) (x :: post2) no_captures) in H.
  destruct (star_run_greedy digitOrHyphen
              (fun a b => MState a b
                 (set_capture 1 (consumed s0 (MState a b no_captures)) no_captures))
              post2 (x :: rev ws ++ rev k ++ pre))
    as (t & post & -> & Ht & Hpost & E).
  cbn [m_pre m_suf m_caps] in H.
  assert (Hs : Some s' = Some (MState (rev t ++ x :: rev ws ++ rev k ++ pre) post
             (set_capture 1
                (consumed s0 (MState (rev t ++ x :: rev ws ++ rev k ++ pre) post no_captures))
                no_captures))) by (rewrite <- H; exact E).
  injection Hs as ->. cbn [m_suf m_caps].
  exists k, ws, (x :: t).
  split; [reflexivity|].
  split; [apply lit_match_ciEq; exact Hk|].
  split; [exact Hne|]. split; [exact Hws|].
  split; [discriminate|].
  split; [simpl; rewrite Px; exact Ht|].
  split; [exact Hpost|].
  unfold s0.
  replace (rev t ++ x :: rev ws ++ rev k ++ pre)
    with (rev (x :: t) ++ rev ws ++ rev k ++ pre)
    by (simpl; rewrite <- app_assoc; reflexivity).
  rewrite consumed_app. reflexivity.
Qed.

Lemma labelAt_matches kw heading gap l post :
  labelAt kw heading gap l post ->
  exists t, heading = gap ++ t ++ post
    /\ matches true (Lit kw >> Plus isSpace >> Grp 1 (Plus digitOrHyphen))
         (rev gap) t post no_captures (set_capture 1 l no_captures).
Proof.
  intros (k & ws & -> & Hk & Hne & Hws & Hl & Hdh).
  exists (k ++ ws ++ l). split; [rewrite <- !app_assoc; reflexivity|].
  cbn [matches]. exists k, (ws ++ l), no_captures.
  split; [reflexivity|]. split; [split; [apply lit_match_ciEq; exact Hk|reflexivity]|].
  exists ws, l, no_captures. split; [reflexivity|]. split; [auto|].
  exists no_captures. auto.
Qed.

Lemma label_spec kw heading :
  labelResult kw heading
    (group (String_match heading
              (mkRegExp (Lit kw >> Plus isSpace >> Grp 1 (Plus digitOrHyphen)) true)) 1).
Proof.
  set (re := mkRegExp _ true). unfold String_match, group.
  destruct (searchFrom re [] heading) as [[p s']|] eqn:E.
  - apply searchFrom_sound in E as (gap & rest & -> & -> & Hm & Hmin).
    pose proof Hm as Hm'.
    apply label_matchAt in Hm' as (k & ws & l & -> & Hk & Hne & Hws & Hl & Hdh & Hpost & ->).
    exists gap, (m_suf s'). split; [exists k, ws; repeat split; auto|]. split; [exact Hpost|].
    intros gap' l' post' Hat. apply labelAt_matches in Hat as (t' & Hs' & Hm').
    destruct (Nat.le_gt_cases (length gap) (length gap')) as [|Hlt]; [assumption|].
    exfalso. symmetry in Hs'.
    destruct (prefix_split _ _ _ _ Hs' Hlt) as (g2 & Hg2 & -> & Hrest).
    specialize (Hmin gap' g2 eq_refl Hg2). rewrite app_nil_r in Hmin.
    rewrite <- Hrest in Hmin. eapply (matchAt_complete re); [|exact Hmin]. exact Hm'.
  - intros gap l post Hat. apply labelAt_matches in Hat as (t & -> & Hm).
    eapply searchFrom_none in E; [|reflexivity]. rewrite app_nil_r in E.
    eapply (matchAt_complete re); [|exact E]. exact Hm.
Qed.

(** X6: the location of a heading is the token of digits and hyphens,
    taken whole, after the leftmost [Location] keyword that white space
    and such a token follow; without one there is no location. *)
Theorem extractLocation_token (heading : jsstring) :
  labelResult (str "Location") heading (extractLocation heading).
Proof. exact (label_spec (str "Location") heading). Qed.

(** X7: the page of a heading is the token of digits and hyphens, taken
    whole, after the leftmost [Page] keyword that white space and such a
    token follow; without one there is no page. *)
Theorem extractPage_token (heading : jsstring) :
  labelResult (str "Page") heading (extractPage heading).
Proof. exact (label_spec (str "Page") heading). Qed.

(** ** Lazy quantifiers *)

Lemma star_run_lazy {A} p (k : list N -> list N -> option A) suf :
  forall pre x, star_run false p k pre suf = Some x ->
  exists t post, suf = t ++ post /\ forallb p t = true
    /\ k (rev t ++ pre) post = Some x
    /\ forall t1 t2, t = t1 ++ t2 -> t2 <> [] -> k (rev t1 ++ pre) (t2 ++ post) = None.
Proof.
  induction suf as [|y suf IH]; intros pre x H; simpl in H.
  - exists [], []. repeat split; auto.
    intros t1 t2 E. symmetry in E. apply app_eq_nil in E as [_ ->]. congruence.
  - assert (Hstop : k pre (y :: suf) = Some x ->
      exists t post, y :: suf = t ++ post /\ forallb p t = true
        /\ k (rev t ++ pre) post = Some x
        /\ forall t1 t2, t = t1 ++ t2 -> t2 <> [] -> k (rev t1 ++ pre) (t2 ++ post) = None).
    { intros Hk. exists [], (y :: suf). repeat split; auto.
      intros t1 t2 E. symmetry in E. apply app_eq_nil in E as [_ ->]. congruence. }
    destruct (p y) eqn:Py; [|auto].
    unfold or_else in H. destruct (k pre (y :: suf)) eqn:Ek; [auto|].
    apply IH in H as (t & post & -> & Ht & Hk & Hmin).
    exists (y :: t), post. simpl. rewrite Py, <- app_assoc.
    repeat split; auto.
    intros [|z t1] t2 E Hne; simpl in E.
    + subst t2. exact Ek.
    + injection E as <- ->. simpl. rewrite <- app_assoc. apply Hmin; auto.
Qed.

Lemma run_seq_sound ic a b k pre suf c x :
  run ic (a >> b) k (MState pre suf c) = Some x ->
  exists t post c', suf = t ++ post /\ matches ic a pre t post c c'
    /\ run ic b k (MState (rev t ++ pre) post c') = Some x.
Proof. apply (run_sound ic a). Qed.

(** The last group of the block pattern takes the shortest text that a
    closing tag follows. *)
Lemma headingBlock_body pre suf s' :
  matchAt headingBlock pre suf = Some s' ->
  exists b, m_caps s' 2%nat = Some b /\ ~ containsCi (str "</div>") b.
Proof.
  unfold matchAt. cbn [source ignoreCase headingBlock]. unfold lit. intros H.
  do 19 (apply run_seq_sound in H as (? & ? & ? & _ & _ & H)).
  match type of H with
  | run _ _ _ (MState ?p ?q ?c) = _ => set (p0 := p) in *; set (q0 := q) in *; set (c0 := c) in *
  end.
  cbn [run m_pre m_suf m_caps] in H.
  apply star_run_lazy in H as (b & post & Eq & _ & Hk & Hmin).
  exists b. split.
  - destruct (lit_run true (str "</div>") (rev b ++ p0) post) as [[p1 q1]|]; [|discriminate].
    injection Hk as <-. cbn [m_caps]. rewrite consumed_app. reflexivity.
  - intros (b1 & e & b2 & -> & He).
    assert (Hne : e ++ b2 <> []).
    { apply ciEq_length in He. destruct e; [discriminate|]. discriminate. }
    specialize (Hmin b1 (e ++ b2) eq_refl Hne).
    rewrite <- app_assoc in Hmin.
    rewrite (lit_run_complete true (str "</div>") (rev b1 ++ p0) e (b2 ++ post)) in Hmin
      by (apply lit_match_ciEq; exact He).
    discriminate.
Qed.

Lemma exec_go_In re suf : forall pre skip c,
  In c (exec_go re pre suf skip) ->
  exists p r s', matchAt re p r = Some s' /\ c = m_caps s'.
Proof.
  induction suf as [|x suf IH]; intros pre skip c H.
  - destruct skip; simpl in H; [|contradiction].
    destruct (matchAt re pre []) as [s'|] eqn:E; [|contradiction].
    destruct H as [<-|[]]. eauto.
  - destruct skip as [|n]; cbn [exec_go] in H; [|eauto].
    destruct (matchAt re pre (x :: suf)) as [s'|] eqn:E; [|eauto].
    destruct H as [<-|H]; eauto.
Qed.

(** X8: the body of a scanned pair ends before the first closing [div]
    tag: it never holds one. *)
Theorem scanned_body_has_no_closing_tag (html h b : jsstring) :
  In (h, b) (scanBlocks html) -> ~ containsCi (str "</div>") b.
Proof.
  unfold scanBlocks, execAll. intros H.
  apply list_elem_of_In, list_elem_of_fmap in H as (c & E & Hc).
  apply list_elem_of_In, exec_go_In in Hc as (p & r & s' & Hm & ->).
  apply headingBlock_body in Hm as (b' & Hb & Hno).
  unfold blockOf in E. rewrite Hb in E. injection E as _ ->. exact Hno.
Qed.

(** X9: the scan finds no pair exactly when no block starts anywhere in
    the document. *)
Theorem scanBlocks_nil_iff (html : jsstring) :
  scanBlocks html = [] <->
  forall gap rest, html = gap ++ rest -> ~ blockStarts rest.
Proof.
  pose proof (scan_from (S (length html)) html [] (Nat.lt_succ_diag_r _)) as Hs.
  fold (execAll headingBlock html) in Hs. fold (scanBlocks html) in Hs.
  split.
  - intros E. rewrite E in Hs. inversion Hs; subst. assumption.
  - intros Hno. destruct (scanBlocks html) as [|[h b] blocks]; [reflexivity|].
    inversion Hs as [|s gap t rest h' b' bl Es Hb _ _]; subst.
    exfalso. apply (Hno gap (t ++ rest) eq_refl). exists t, rest, h, b. auto.
Qed.

(** ** What the loop builds *)

Lemma entryBlocks_snoc blocks block :
  blocks <> [] ->
  entryBlocks (blocks ++ [block])
  = entryBlocks blocks ++ (if isNoteBlock block then [] else [block]).
Proof.
  destruct blocks as [|b0 blocks]; [congruence|]. intros _. simpl.
  rewrite List.filter_app. simpl. destruct (isNoteBlock block); reflexivity.
Qed.

Lemma attachNote_fixedPart body pg target :
  fixedPart (attachNote body pg target) = fixedPart target.
Proof.
  unfold fixedPart. destruct (attachNote_frame body pg target) as (-> & -> & ->).
  reflexivity.
Qed.

Lemma mergeBlocks_entries blocks :
  fixedPart <$> mergeBlocks blocks = fixedPartOf <$> entryBlocks blocks.
Proof.
  induction blocks as [|block blocks IH] using rev_ind; [reflexivity|].
  rewrite mergeBlocks_snoc.
  destruct blocks as [|b0 blocks'] eqn:Eb.
  - simpl. unfold processBlock.
    rewrite findTarget_nil. destruct (test noteRe _); reflexivity.
  - rewrite <- Eb in *. assert (Hne : blocks <> []) by (rewrite Eb; discriminate).
    rewrite (entryBlocks_snoc _ _ Hne), fmap_app, <- IH.
    unfold isNoteBlock. destruct (test noteRe (cleanText (fst block))) eqn:En.
    + rewrite processBlock_note by assumption. simpl. rewrite app_nil_r.
      assert (Hm : mergeBlocks blocks <> []).
      { intros E. rewrite E, Eb in IH. discriminate. }
      destruct (findTarget_nonempty (extractLocation (cleanText (fst block))) _ Hm)
        as (i & target & Hf).
      rewrite Hf. rewrite list_fmap_insert, attachNote_fixedPart.
      apply list_insert_id. rewrite list_lookup_fmap.
      rewrite (findTarget_lookup _ _ _ _ Hf). reflexivity.
    + rewrite processBlock_highlight by assumption. rewrite fmap_app. reflexivity.
Qed.

Lemma mergeBlocks_nonempty blocks : blocks <> [] -> mergeBlocks blocks <> [].
Proof.
  intros Hne E. pose proof (mergeBlocks_entries blocks) as H.
  rewrite E in H. destruct blocks; [congruence|discriminate].
Qed.

(** X10: the entries of the array are, in order, one for the first pair
    and one for every later pair that is not a note, each with the text,
    colour and location its own pair gave it. *)
Theorem entries_follow_their_blocks (blocks : list (jsstring * jsstring)) :
  fixedPart <$> mergeBlocks blocks = fixedPartOf <$> entryBlocks blocks.
Proof. exact (mergeBlocks_entries blocks). Qed.

(** X11: the result has no highlight exactly when the scan found no
    pair and the document normalizes to the empty string. *)
Theorem no_highlights_iff (html : jsstring) :
  highlights (parseKindleHtml html) = [] <->
  scanBlocks html = [] /\ cleanText html = [].
Proof.
  unfold parseKindleHtml. cbn [highlights].
  destruct (scanBlocks html) as [|b0 blocks] eqn:Es.
  - simpl. destruct (cleanText html); simpl; split; auto.
    + discriminate.
    + intros [_ ?]. discriminate.
  - pose proof (mergeBlocks_nonempty (b0 :: blocks) ltac:(discriminate)) as Hne.
    destruct (mergeBlocks (b0 :: blocks)) as [|h hs]; [congruence|].
    simpl. split; [discriminate|]. intros [? _]. discriminate.
Qed.

(** ** Well-formed results *)

Lemma extractColor_name heading : colorOk (extractColor heading).
Proof.
  unfold extractColor, group.
  destruct (String_match heading colorRe) as [cs|] eqn:E; [|exact I].
  apply String_match_sound in E as (gap & t & post & _ & Hm & _).
  apply colorRe_matches in Hm as (name & Hname & _ & ->). exact Hname.
Qed.

Lemma extractLocation_label heading : labelOk (extractLocation heading).
Proof.
  unfold extractLocation, group.
  destruct (String_match heading locationRe) as [c|] eqn:E; [|exact I].
  apply label_capture_nonempty in E as (l & -> & Hne & Hall). split; assumption.
Qed.

Lemma extractPage_label heading : labelOk (extractPage heading).
Proof.
  unfold extractPage, group.
  destruct (String_match heading pageRe) as [c|] eqn:E; [|exact I].
  apply label_capture_nonempty in E as (l & -> & Hne & Hall). split; assumption.
Qed.

Lemma attachNote_ok body pg target :
  normalized body = true -> labelOk pg -> highlightOk target ->
  highlightOk (attachNote body pg target).
Proof.
  intros Hb Hp (Ht & _ & Hc & Hpg & Hl). unfold attachNote. cbn [page text note color location].
  destruct (negb (truthy (page target)) && truthy pg); repeat split; assumption.
Qed.

Lemma mergeBlocks_ok blocks : Forall highlightOk (mergeBlocks blocks).
Proof.
  induction blocks as [|block blocks IH] using rev_ind; [constructor|].
  rewrite mergeBlocks_snoc.
  set (hs := mergeBlocks blocks) in *.
  assert (Hnew : Forall highlightOk
            (hs ++ [mkHighlight (cleanText (snd block)) None
               (extractColor (cleanText (fst block)))
               (extractPage (cleanText (fst block)))
               (extractLocation (cleanText (fst block)))])).
  { apply Forall_app. split; auto. constructor; [|constructor].
    repeat split; cbn [text note color page location].
    - apply cleanText_normal.
    - apply extractColor_name.
    - apply extractPage_label.
    - apply extractLocation_label. }
  destruct (test noteRe (cleanText (fst block))) eqn:En.
  - rewrite processBlock_note by assumption.
    destruct (findTarget _ hs) as [[i target]|] eqn:Ef; [|exact Hnew].
    apply Forall_insert; auto.
    apply attachNote_ok.
    + apply cleanText_normal.
    + apply extractPage_label.
    + apply findTarget_lookup in Ef. eapply (proj1 (Forall_lookup _ _) IH); eauto.
  - rewrite processBlock_highlight by assumption. exact Hnew.
Qed.

Lemma parseKindleHtml_ok html : notebookOk (parseKindleHtml html).
Proof.
  unfold notebookOk, parseKindleHtml. cbn [title author highlights]. split; [|split].
  - apply cleanText_normal.
  - unfold extractAuthor.
    destruct (group (authorMatch html) 1) as [a|]; [|exact I].
    destruct (truthy (Some a)); [apply cleanText_normal|exact I].
  - pose proof (mergeBlocks_ok (scanBlocks html)) as Hm.
    destruct (length (mergeBlocks (scanBlocks html)) =? 0)%nat; [|exact Hm].
    destruct (truthy (Some (cleanText html))); [|exact Hm].
    apply Forall_app. split; [exact Hm|]. constructor; [|constructor].
    repeat split; cbn [text note color page location]; try exact I.
    apply cleanText_normal.
Qed.

(** X12: in every result the title, the author, and each text and note
    are in normal form, each colour is one of the five names up to
    letter case, and each page and location is a non-empty token of
    digits and hyphens. *)
Theorem parse_result_well_formed (html : jsstring) :
  notebookOk (parseKindleHtml html).
Proof. exact (parseKindleHtml_ok html). Qed.

(** ** Lines of the report *)

Lemma countOf_app c a b : countOf c (a ++ b) = (countOf c a + countOf c b)%nat.
Proof. unfold countOf. rewrite List.filter_app, length_app. reflexivity. Qed.

Lemma countOf_absent c s : ~ In c s -> countOf c s = 0%nat.
Proof.
  unfold countOf. induction s as [|x s IH]; [reflexivity|]. intros H. simpl.
  destruct (N.eqb_spec c x) as [->|_]; [exfalso; apply H; left; reflexivity|].
  apply IH. intros Hin. apply H. right. exact Hin.
Qed.

Lemma countOf_join lines :
  Forall (fun l => ~ In 10 l) lines -> lines <> [] ->
  (countOf 10 (join newline lines) + 1)%nat = length lines.
Proof.
  induction lines as [|l lines IH]; [congruence|]. intros Hall _.
  inversion Hall as [|? ? Hl Hrest]; subst.
  destruct lines as [|l' lines].
  - cbn [join length]. rewrite (countOf_absent 10 l Hl). reflexivity.
  - change (join newline (l :: l' :: lines))
      with (l ++ newline ++ join newline (l' :: lines)).
    rewrite !countOf_app, (countOf_absent 10 l Hl).
    specialize (IH Hrest ltac:(discriminate)).
    change (countOf 10 newline) with 1%nat. simpl length in *. lia.
Qed.

Lemma spaced_no_newline s : spaced s = true -> ~ In 10 s.
Proof.
  induction s as [|c s IH]; [auto|]. cbn [spaced]. intros H.
  apply andb_prop in H as [Hc Hs]. intros [->|Hin]; [|exact (IH Hs Hin)].
  change (isSpace 10) with true in Hc. cbv iota in Hc.
  apply andb_prop in Hc as [Hc _]. discriminate.
Qed.

Lemma normalized_no_newline s : normalized s = true -> ~ In 10 s.
Proof.
  unfold normalized. destruct s as [|c s]; [auto|]. intros H.
  apply andb_prop in H as [_ H]. apply spaced_no_newline. exact H.
Qed.

Lemma label_no_newline l : forallb digitOrHyphen l = true -> ~ In 10 l.
Proof.
  intros H Hin. rewrite forallb_forall in H. specialize (H _ Hin). discriminate.
Qed.

Lemma ciEq_no_newline l t : ciEq l t -> ~ In 10 l -> ~ In 10 t.
Proof.
  unfold ciEq. induction 1 as [|a x l t Hc _ IH]; [auto|]. intros Hl [->|Hin].
  - apply Hl. left. change (canon 10) with 10 in Hc. unfold canon in Hc.
    destruct (N.leb_spec 97 a), (N.leb_spec a 122); simpl in Hc; lia.
  - apply IH; auto. intros ?. apply Hl. right. assumption.
Qed.

Lemma colorName_no_newline c : isColorName c -> ~ In 10 c.
Proof.
  intros (name & Hin & Hc). eapply ciEq_no_newline; [exact Hc|].
  simpl in Hin.
  destruct Hin as [<-|[<-|[<-|[<-|[<-|[]]]]]]; vm_compute; intuition discriminate.
Qed.

Lemma uint_no_newline d : ~ In 10 (str (NilEmpty.string_of_uint d)).
Proof.
  induction d; [intros []| | | | | | | | | | ];
    (intros [H|H]; [vm_compute in H; discriminate|exact (IHd H)]).
Qed.

Lemma no_newline_app a b : ~ In 10 a -> ~ In 10 b -> ~ In 10 (a ++ b).
Proof. intros Ha Hb H. apply in_app_or in H as [H|H]; auto. Qed.

Lemma nonEmpty_Some o s : nonEmpty o = Some s -> o = Some s.
Proof. destruct o as [[|x t]|]; simpl; congruence. Qed.

Lemma nonEmpty_truthy o :
  nonEmpty o = if truthy o then o else None.
Proof. destruct o as [[|x t]|]; reflexivity. Qed.

Lemma entryLines_no_newline index h :
  highlightOk h -> Forall (fun l => ~ In 10 l) (entryLines index h).
Proof.
  intros (Ht & Hn & Hc & Hp & Hl). apply normalized_no_newline in Ht.
  assert (Hc' : forall c, nonEmpty (color h) = Some c -> ~ In 10 c).
  { intros c E. apply nonEmpty_Some in E. rewrite E in Hc.
    apply colorName_no_newline. exact Hc. }
  assert (Hp' : forall p, nonEmpty (page h) = Some p -> ~ In 10 p).
  { intros p E. apply nonEmpty_Some in E. rewrite E in Hp.
    apply label_no_newline. apply Hp. }
  assert (Hl' : forall l, nonEmpty (location h) = Some l -> ~ In 10 l).
  { intros l E. apply nonEmpty_Some in E. rewrite E in Hl.
    apply label_no_newline. apply Hl. }
  unfold entryLines. constructor.
  - apply no_newline_app; [apply uint_no_newline|].
    apply no_newline_app; [vm_compute; intuition discriminate|].
    apply no_newline_app; [exact Ht|].
    unfold parenthetical, parenthesized.
    destruct (nonEmpty (color h)) as [c|], (nonEmpty (page h)) as [p|],
      (nonEmpty (location h)) as [l|];
      try specialize (Hc' _ eq_refl); try specialize (Hp' _ eq_refl);
      try specialize (Hl' _ eq_refl); no_newline no_newline_app.
  - destruct (nonEmpty (note h)) as [n|] eqn:En; [|constructor].
    constructor; [|constructor]. apply nonEmpty_Some in En. rewrite En in Hn.
    apply no_newline_app; [vm_compute; intuition discriminate|].
    apply normalized_no_newline. exact Hn.
Qed.

Lemma entries_no_newline hs : forall k,
  Forall highlightOk hs ->
  Forall (fun l => ~ In 10 l) (concat (imap (fun i => entryLines (k + i)) hs)).
Proof.
  induction hs as [|h hs IH]; intros k H; [constructor|].
  inversion H; subst. cbn [imap concat]. apply Forall_app. split.
  - apply entryLines_no_newline. assumption.
  - rewrite (imap_ext _ (fun i => entryLines (S k + i)) hs)
      by (intros; unfold compose; f_equal; lia).
    apply IH. assumption.
Qed.

Lemma entries_length hs : forall k,
  length (concat (imap (fun i => entryLines (k + i)) hs))
  = (length hs + length (List.filter (fun h => truthy (note h)) hs))%nat.
Proof.
  induction hs as [|h hs IH]; intros k; [reflexivity|].
  cbn [imap concat]. rewrite length_app.
  rewrite (imap_ext _ (fun i => entryLines (S k + i)) hs)
    by (intros; unfold compose; f_equal; lia).
  rewrite IH. unfold entryLines. rewrite nonEmpty_truthy. cbn [List.filter length].
  destruct (truthy (note h)) eqn:E.
  - destruct (note h); [|discriminate]. simpl. lia.
  - simpl. lia.
Qed.

Lemma headerLines_no_newline notebook :
  normalized (title notebook) = true -> normalizedOpt (author notebook) ->
  Forall (fun l => ~ In 10 l) (headerLines notebook).
Proof.
  intros Ht Ha. unfold headerLines. apply normalized_no_newline in Ht.
  assert (H1 : ~ In 10 (str "# " ++ (if truthy (Some (title notebook))
                                      then title notebook else str "Kindle Notebook"))).
  { apply no_newline_app; [vm_compute; intuition discriminate|].
    destruct (truthy _); [exact Ht|vm_compute; intuition discriminate]. }
  destruct (truthy (author notebook)) eqn:E.
  - destruct (author notebook) as [a|]; [|discriminate]. simpl in Ha.
    apply normalized_no_newline in Ha.
    repeat constructor; auto. no_newline no_newline_app.
  - repeat constructor; auto.
Qed.

Lemma report_line_count notebook :
  notebookOk notebook ->
  (countOf 10 (kindleNotebookToMarkdown notebook) + 1)%nat = lineCount notebook.
Proof.
  intros (Ht & Ha & Hh). unfold kindleNotebookToMarkdown, refs.
  rewrite (fold_renderItem (highlights notebook) 0).
  rewrite countOf_join.
  - rewrite length_app, (entries_length _ 0). unfold lineCount, headerLines.
    destruct (truthy (author notebook)); simpl; lia.
  - apply Forall_app. split; [apply headerLines_no_newline; assumption|].
    apply (entries_no_newline _ 0). exact Hh.
  - unfold headerLines. destruct (truthy (author notebook)); discriminate.
Qed.

(** X13: in the report of a parsed document every highlight has its one
    line and every note that is not empty its one line, after the
    heading, the author line when there is an author, and a blank line:
    no field of the result can break a line. *)
Theorem parsed_report_line_count (html : jsstring) :
  (countOf 10 (kindleNotebookToMarkdown (parseKindleHtml html)) + 1)%nat
  = lineCount (parseKindleHtml html).
Proof. apply report_line_count, parseKindleHtml_ok. Qed.

Lemma scanned_body_has_no_closing_tag_witness :
  In (str "H", str "B <b>bold</b>") (scanBlocks
     (str "<div class='noteHeading'>H</div><div class='noteText'>B <b>bold</b></div> tail</div>"))
  /\ ~ containsCi (str "</div>") (str "B <b>bold</b>").
Proof.
  assert (H : In (str "H", str "B <b>bold</b>") (scanBlocks
     (str "<div class='noteHeading'>H</div><div class='noteText'>B <b>bold</b></div> tail</div>")))
    by (vm_compute; auto).
  split; [exact H|]. exact (scanned_body_has_no_closing_tag _ _ _ H).
Defined.

(** ** Where notes come from *)

Lemma mergeBlocks_notes blocks :
  Forall (fun h => forall n, note h = Some n ->
            exists block, In block blocks /\ isNoteBlock block = true
                          /\ n = cleanText (snd block))
         (mergeBlocks blocks).
Proof.
  induction blocks as [|block blocks IH] using rev_ind; [constructor|].
  rewrite mergeBlocks_snoc.
  assert (IH' : Forall (fun h => forall n, note h = Some n ->
            exists b, In b (blocks ++ [block]) /\ isNoteBlock b = true
                      /\ n = cleanText (snd b)) (mergeBlocks blocks)).
  { eapply Forall_impl; [exact IH|]. intros h Hh n Hn.
    destruct (Hh n Hn) as (b & Hin & Hb). exists b. split; [|exact Hb].
    apply in_or_app. left. exact Hin. }
  assert (Hnew : forall col pg loc,
            Forall (fun h => forall n, note h = Some n ->
               exists b, In b (blocks ++ [block]) /\ isNoteBlock b = true
                         /\ n = cleanText (snd b))
              (mergeBlocks blocks ++ [mkHighlight (cleanText (snd block)) None col pg loc])).
  { intros. apply Forall_app. split; [exact IH'|].
    constructor; [|constructor]. intros n Hn. discriminate. }
  destruct (test noteRe (cleanText (fst block))) eqn:En.
  - rewrite processBlock_note by assumption.
    destruct (findTarget _ (mergeBlocks blocks)) as [[i target]|] eqn:Ef; [|apply Hnew].
    apply Forall_insert; [exact IH'|].
    intros n Hn. rewrite attachNote_note in Hn. injection Hn as <-.
    exists block. split; [apply in_or_app; right; left; reflexivity|]. split; auto.
  - rewrite processBlock_highlight by assumption. apply Hnew.
Qed.

(** X14: every note of the array is the normalized body of a note block
    among the pairs taken. *)
Theorem notes_come_from_note_blocks
    (blocks : list (jsstring * jsstring)) (h : KindleHighlight) (n : jsstring) :
  In h (mergeBlocks blocks) -> note h = Some n ->
  exists block, In block blocks /\ isNoteBlock block = true
                /\ n = cleanText (snd block).
Proof.
  intros Hin Hn. pose proof (mergeBlocks_notes blocks) as H.
  rewrite Forall_forall in H. apply (H h); [|exact Hn].
  apply list_elem_of_In. exact Hin.
Qed.

Lemma notes_come_from_note_blocks_witness :
  exists h block,
    In h (mergeBlocks [highlightAt40; highlightAt50; noteAt40])
    /\ note h = Some (str "my note")
    /\ In block [highlightAt40; highlightAt50; noteAt40]
    /\ isNoteBlock block = true
    /\ str "my note" = cleanText (snd block).
Proof.
  set (h := mkHighlight (str "First & text") (Some (str "my note")) None
              (Some (str "3")) (Some (str "40"))).
  assert (Hin : In h (mergeBlocks [highlightAt40; highlightAt50; noteAt40]))
    by (vm_compute; auto).
  assert (Hn : note h = Some (str "my note")) by reflexivity.
  destruct (notes_come_from_note_blocks _ h _ Hin Hn) as (block & Hb & Hnote & Hbody).
  exists h, block. auto.
Defined.

(** ** The heading line of the report *)

Lemma join_first sep l lines :
  exists rest, join sep (l :: lines) = l ++ rest.
Proof.
  destruct lines as [|l' lines].
  - exists []. simpl. rewrite app_nil_r. reflexivity.
  - eexists. reflexivity.
Qed.

(** X15: the report of every notebook starts with the heading mark and a
    title that is not empty: the notebook's own when it has one, the
    default otherwise. *)
Theorem report_heading_never_empty (notebook : KindleNotebook) :
  exists shown rest,
    kindleNotebookToMarkdown notebook = str "# " ++ shown ++ rest
    /\ shown <> []
    /\ shown = match title notebook with
               | [] => str "Kindle Notebook"
               | _ :: _ => title notebook
               end.
Proof.
  unfold kindleNotebookToMarkdown, refs.
  rewrite (fold_renderItem (highlights notebook) 0).
  set (shown := if truthy (Some (title notebook)) then title notebook
                else str "Kindle Notebook").
  assert (Hh : exists tl, headerLines notebook = (str "# " ++ shown) :: tl).
  { unfold headerLines. cbv zeta. fold shown.
    destruct (truthy (author notebook)); eexists; reflexivity. }
  destruct Hh as (tl & ->).
  destruct (join_first newline (str "# " ++ shown)
              (tl ++ concat (imap (fun i => entryLines (0 + i)) (highlights notebook))))
    as (rest & Hj).
  exists shown, rest. split; [|split].
  - change (((str "# " ++ shown) :: tl) ++ ?x) with ((str "# " ++ shown) :: tl ++ x).
    rewrite Hj, <- app_assoc. reflexivity.
  - unfold shown. destruct (title notebook); simpl; discriminate.
  - unfold shown. destruct (title notebook); reflexivity.
Qed.

(** ** Tags *)

Lemma lit_match_one a t : lit_match false [a] t -> t = [a].
Proof.
  destruct t as [|x [|y t]]; simpl; try tauto.
  intros [H _]. apply N.eqb_eq in H. subst. reflexivity.
Qed.

Lemma tagRe_matchAt pre suf :
  match matchAt tagRe pre suf with
  | Some s' => exists t, suf = (60 :: t ++ [62]) ++ m_suf s'
                         /\ m_pre s' = rev (60 :: t ++ [62]) ++ pre
  | None => match suf with
            | x :: r => x = 60 -> ~ In 62 r
            | [] => True
            end
  end.
Proof.
  destruct (matchAt tagRe pre suf) as [s'|] eqn:E.
  - apply matchAt_sound in E as (t & post & -> & Hm & Hp & <-).
    cbn [tagRe source ignoreCase] in Hm. unfold lit in Hm. cbn [matches] in Hm.
    destruct Hm as (t1 & r1 & c1 & -> & (H1 & _) & t2 & t3 & c2 & -> & _ & H3 & _).
    apply lit_match_one in H1, H3. subst t1 t3.
    exists t2. split; [reflexivity|exact Hp].
  - destruct suf as [|x r]; [exact I|]. intros -> Hin.
    apply list_elem_of_In, list_elem_of_split_l in Hin as (t & rest & -> & Hnot).
    eapply (matchAt_complete tagRe pre (60 :: t ++ [62]) rest); [|].
    + cbn [tagRe source ignoreCase]. unfold lit. cbn [matches].
      exists [60], (t ++ [62]), no_captures. split; [reflexivity|].
      split; [split; [simpl; auto|reflexivity]|].
      exists t, [62], no_captures. split; [reflexivity|]. split; [|simpl; auto].
      split; [|reflexivity]. apply forallb_forall. intros y Hy.
      unfold notGt, noneOf, oneOf. simpl. rewrite orb_false_r.
      apply negb_true_iff, N.eqb_neq. intros ->. apply Hnot, list_elem_of_In, Hy.
    + simpl. rewrite <- app_assoc. exact E.
Qed.

Lemma replace_go_In re rep c suf : forall pre skip,
  In c (replace_go re rep pre suf skip) -> In c rep \/ In c suf.
Proof.
  induction suf as [|x suf IH]; intros pre skip H.
  - destruct skip; simpl in H; [|contradiction].
    destruct (matchAt re pre []); [|contradiction].
    rewrite app_nil_r in H. auto.
  - destruct skip as [|n]; cbn [replace_go] in H.
    + destruct (matchAt re pre (x :: suf)) as [s'|].
      * apply in_app_or in H as [H|H]; [auto|].
        destruct (length (m_pre s') - length pre)%nat.
        -- destruct H as [<-|H]; [right; left; reflexivity|].
           apply IH in H as [H|H]; [auto|right; right; exact H].
        -- apply IH in H as [H|H]; [auto|right; right; exact H].
      * destruct H as [<-|H]; [right; left; reflexivity|].
        apply IH in H as [H|H]; [auto|right; right; exact H].
    + apply IH in H as [H|H]; [auto|right; right; exact H].
Qed.

Lemma replaceAll_In re rep c s :
  In c (replaceAll s re rep) -> In c rep \/ In c s.
Proof. apply replace_go_In. Qed.

Lemma tagFree_cons x s : tagFree s -> (x = 60 -> ~ In 62 s) -> tagFree (x :: s).
Proof.
  intros Hs Hx [|y a] b E; injection E as -> ->; [auto|]. eapply Hs. reflexivity.
Qed.

Lemma tagFree_tail x s : tagFree (x :: s) -> tagFree s.
Proof. intros H a b ->. apply (H (x :: a) b). reflexivity. Qed.

Lemma replace_tags n : forall suf pre,
  (length suf < n)%nat -> tagFree (replace_go tagRe (str " ") pre suf 0).
Proof.
  induction n as [|n IH]; intros suf pre Hn; [lia|].
  destruct suf as [|x suf].
  - simpl. pose proof (tagRe_matchAt pre []) as Hm.
    destruct (matchAt tagRe pre []) as [s'|].
    + destruct Hm as (t & E & _). discriminate.
    + intros [|? ?] b E; discriminate.
  - pose proof (tagRe_matchAt pre (x :: suf)) as Hm. cbn [replace_go].
    destruct (matchAt tagRe pre (x :: suf)) as [s'|].
    + destruct Hm as (t & E & ->). injection E as -> ->.
      rewrite length_app, Nat.add_sub, length_rev. cbn [length].
      rewrite replace_go_skip.
      change (str " " ++ ?r) with (32 :: r).
      apply tagFree_cons; [|discriminate].
      apply IH. simpl in Hn. rewrite !length_app in Hn. lia.
    + apply tagFree_cons.
      * apply IH. simpl in Hn. lia.
      * intros -> Hin. apply replace_go_In in Hin as [Hin|Hin].
        -- vm_compute in Hin. intuition discriminate.
        -- exact (Hm eq_refl Hin).
Qed.

Lemma collapseSpaces_In c s : forall b,
  In c (collapseSpaces b s) -> c = 32 \/ In c s.
Proof.
  induction s as [|x s IH]; intros b H; simpl in H; [contradiction|].
  destruct (isSpace x).
  - destruct b.
    + apply IH in H as [H|H]; [auto|right; right; exact H].
    + destruct H as [<-|H]; [auto|].
      apply IH in H as [H|H]; [auto|right; right; exact H].
  - destruct H as [<-|H]; [right; left; reflexivity|].
    apply IH in H as [H|H]; [auto|right; right; exact H].
Qed.

Lemma tagFree_collapseSpaces s : forall b,
  tagFree s -> tagFree (collapseSpaces b s).
Proof.
  induction s as [|x s IH]; intros b H; [exact H|]. simpl.
  pose proof (tagFree_tail _ _ H) as Hs.
  destruct (isSpace x) eqn:Ex.
  - destruct b; [auto|]. apply tagFree_cons; [auto|discriminate].
  - apply tagFree_cons; [auto|].
    intros -> Hin. apply collapseSpaces_In in Hin as [Hin|Hin]; [discriminate|].
    exact (H [] s eq_refl Hin).
Qed.

Lemma trimEnd_prefix s : exists w, s = trimEnd s ++ w.
Proof.
  induction s as [|c s [w IH]]; [exists []; reflexivity|]. simpl.
  destruct (trimEnd s) as [|d t].
  - destruct (isSpace c); [exists (c :: s)|exists s]; reflexivity.
  - exists w. simpl in *. f_equal. exact IH.
Qed.

Lemma tagFree_trimEnd s : tagFree s -> tagFree (trimEnd s).
Proof.
  intros H a b E. destruct (trimEnd_prefix s) as (w & Hw).
  rewrite E, <- app_assoc in Hw. simpl in Hw.
  intros Hin. apply (H a (b ++ w) Hw). apply in_or_app. left. exact Hin.
Qed.

(** X16: in the normal form of a document without an ampersand no [<]
    has a [>] anywhere after it: no tag is left. *)
Theorem cleanText_leaves_no_tag (html : jsstring) :
  ~ In 38 html -> tagFree (cleanText html).
Proof.
  intros Hamp. rewrite cleanText_collapse.
  rewrite decodeEntities_no_amp.
  - apply tagFree_trimEnd, tagFree_collapseSpaces.
    apply (replace_tags (S (length html))). lia.
  - intros Hin. apply replaceAll_In in Hin as [Hin|Hin]; [|auto].
    vm_compute in Hin. intuition discriminate.
Qed.

Lemma cleanText_leaves_no_tag_witness :
  ~ In 38 (str "a <b>c</b> > d < e") /\ tagFree (cleanText (str "a <b>c</b> > d < e"))
  /\ cleanText (str "a <b>c</b> > d < e") = str "a c > d < e".
Proof.
  assert (H : ~ In 38 (str "a <b>c</b> > d < e")) by (vm_compute; intuition discriminate).
  split; [exact H|]. split; [exact (cleanText_leaves_no_tag _ H)|].
  vm_compute. reflexivity.
Defined.

(** ** Bot commands *)

Lemma chr_eq_at a : chr_eq true 64 a = true <-> a = 64.
Proof.
  unfold chr_eq. rewrite N.eqb_eq. split; [|intros ->; reflexivity].
  intros H. apply canon_symbol in H; [exact H|lia|lia].
Qed.

Lemma mention_run pre r0 c :
  exists m rest c', r0 = m ++ rest /\ mentionAt m rest
    /\ run true (Grp 1 (Lit [64] >> Plus isWord) |: Lit []) Some (MState pre r0 c)
       = Some (MState (rev m ++ pre) rest c').
Proof.
  assert (Hskip : (~ exists b r, r0 = 64 :: b :: r /\ isWord b = true) ->
            run true (Grp 1 (Lit [64] >> Plus isWord)) Some (MState pre r0 c) = None ->
            exists m rest c', r0 = m ++ rest /\ mentionAt m rest
              /\ run true (Grp 1 (Lit [64] >> Plus isWord) |: Lit []) Some (MState pre r0 c)
                 = Some (MState (rev m ++ pre) rest c')).
  { intros Hno Hnone. exists [], r0, c. split; [reflexivity|]. split; [left; auto|].
    change (or_else (run true (Grp 1 (Lit [64] >> Plus isWord)) Some (MState pre r0 c))
                    (run true (Lit []) Some (MState pre r0 c))
            = Some (MState (rev [] ++ pre) r0 c)).
    rewrite Hnone. reflexivity. }
  destruct r0 as [|a r0].
  - apply Hskip; [intros (b & r & E & _); discriminate|reflexivity].
  - destruct (chr_eq true 64 a) eqn:Ea.
    2:{ apply Hskip.
        - intros (b & r & E & _). injection E as -> _.
          rewrite (proj2 (chr_eq_at 64) eq_refl) in Ea. discriminate.
        - cbn [run lit_run m_pre m_suf m_caps]. rewrite Ea. reflexivity. }
    apply chr_eq_at in Ea. subst a.
    destruct r0 as [|b r].
    + apply Hskip; [intros (b & r & E & _); discriminate|reflexivity].
    + destruct (isWord b) eqn:Eb.
      2:{ apply Hskip.
          - intros (b' & r' & E & Hw). injection E as <- _. congruence.
          - cbn [run lit_run m_pre m_suf m_caps].
            change (chr_eq true 64 64) with true. cbv iota.
            cbn [m_pre m_suf m_caps]. rewrite Eb. reflexivity. }
      destruct (star_run_greedy isWord
                  (fun p q => MState p q
                     (set_capture 1 (consumed (MState pre (64 :: b :: r) c) (MState p q c)) c))
                  r (b :: 64 :: pre))
        as (t & rest & -> & Ht & Hrest & E).
      exists (64 :: b :: t), rest. eexists.
      split; [reflexivity|]. split.
      * right. exists (b :: t). split; [reflexivity|]. split; [discriminate|].
        split; [simpl; rewrite Eb; exact Ht|exact Hrest].
      * cbn [run lit_run m_pre m_suf m_caps].
        change (chr_eq true 64 64) with true. cbv iota.
        cbn [m_pre m_suf m_caps]. rewrite Eb.
        cbn [m_pre m_suf m_caps] in E. rewrite E. cbn [or_else].
        replace (rev (64 :: b :: t) ++ pre) with (rev t ++ b :: 64 :: pre)
          by (simpl; rewrite <- !app_assoc; reflexivity).
        reflexivity.
Qed.

Lemma word_run_unique w : forall w' rest rest',
  w ++ rest = w' ++ rest' ->
  forallb isWord w = true -> forallb isWord w' = true ->
  notAhead isWord rest -> notAhead isWord rest' ->
  w = w' /\ rest = rest'.
Proof.
  induction w as [|x w IH]; intros [|y w'] rest rest' E Hw Hw' Hr Hr'; simpl in *.
  - auto.
  - subst rest. simpl in Hr. apply andb_prop in Hw' as [Hy _]. congruence.
  - subst rest'. simpl in Hr'. apply andb_prop in Hw as [Hx _]. congruence.
  - injection E as -> E. apply andb_prop in Hw as [_ Hw]. apply andb_prop in Hw' as [_ Hw'].
    destruct (IH _ _ _ E Hw Hw' Hr Hr') as [-> ->]. auto.
Qed.

Lemma mentionAt_unique m rest m' rest' :
  m ++ rest = m' ++ rest' -> mentionAt m rest -> mentionAt m' rest' ->
  m = m' /\ rest = rest'.
Proof.
  intros E [[-> Hno]|(w & -> & Hne & Hw & Hr)] [[-> Hno']|(w' & -> & Hne' & Hw' & Hr')];
    simpl in E.
  - auto.
  - exfalso. apply Hno. subst rest. destruct w' as [|b w']; [congruence|].
    simpl in Hw'. apply andb_prop in Hw' as [Hb _]. simpl. eauto.
  - exfalso. apply Hno'. subst rest'. destruct w as [|b w]; [congruence|].
    simpl in Hw. apply andb_prop in Hw as [Hb _]. simpl. eauto.
  - injection E as E. destruct (word_run_unique _ _ _ _ E Hw Hw' Hr Hr') as [-> ->]. auto.
Qed.

(** The command name and the mention after it are what the pattern
    removes. *)
Lemma command_strip name r0 :
  exists m rest, r0 = m ++ rest /\ mentionAt m rest
    /\ replaceFirst (str name ++ r0) (commandRe name) [] = rest.
Proof.
  destruct (mention_run (rev (str name)) r0 no_captures)
    as (m & rest & c' & -> & Hm & Hrun).
  exists m, rest. split; [reflexivity|]. split; [exact Hm|].
  unfold replaceFirst.
  assert (Hs : searchFrom (commandRe name) [] (str name ++ m ++ rest)
               = Some ([], MState (rev m ++ rev (str name)) rest c')).
  { assert (Hat : matchAt (commandRe name) [] (str name ++ m ++ rest)
                  = Some (MState (rev m ++ rev (str name)) rest c')).
    { unfold matchAt, commandRe, lit. cbn [source ignoreCase].
      change (run true (Lit (str name))
                (run true (Grp 1 (Lit (str "@") >> Plus isWord) |: Lit []) Some)
                (MState [] (str name ++ m ++ rest) no_captures) = Some
                (MState (rev m ++ rev (str name)) rest c')).
      cbn [run m_pre m_suf m_caps].
      rewrite (lit_run_complete true (str name) [] (str name) (m ++ rest))
        by (apply lit_match_ciEq, ciEq_refl).
      rewrite app_nil_r. exact Hrun. }
    destruct (str name ++ m ++ rest); simpl; rewrite Hat; reflexivity. }
  rewrite Hs. reflexivity.
Qed.

Lemma startsWith_app p r : startsWith (p ++ r) p = true.
Proof.
  induction p as [|x p IH]; [destruct r; reflexivity|].
  simpl. rewrite N.eqb_refl. exact IH.
Qed.

Lemma startsWith_split s p : startsWith s p = true -> exists r, s = p ++ r.
Proof.
  revert s. induction p as [|x p IH]; intros s H; [exists s; reflexivity|].
  destruct s as [|c s]; [discriminate|]. simpl in H.
  apply andb_prop in H as [Hc H]. apply N.eqb_eq in Hc. subst c.
  destruct (IH _ H) as (r & ->). exists r. reflexivity.
Qed.

Lemma command_payload name text m rest :
  text = str name ++ m ++ rest -> mentionAt m rest ->
  replaceFirst text (commandRe name) [] = rest.
Proof.
  intros -> Hm. destruct (command_strip name (m ++ rest)) as (m' & rest' & E & Hm' & ->).
  destruct (mentionAt_unique _ _ _ _ E Hm Hm') as [_ ->]. reflexivity.
Qed.

(** X17: a text that, trimmed, is [/send], an optional bot mention and a
    rest gives the send command with the trimmed rest as its message,
    and the missing-message answer when the trimmed rest is empty. *)
Theorem parseCommand_send (toLowerCase : jsstring -> jsstring)
    (raw m rest : jsstring) :
  trim raw = str "/send" ++ m ++ rest -> mentionAt m rest ->
  parseCommand toLowerCase raw =
    match trim rest with
    | [] => CommandUnknown (Some (str "missing-message"))
    | t => CommandSend t
    end.
Proof.
  intros E Hm. unfold parseCommand. cbv zeta.
  rewrite (command_payload "/send" _ m rest E Hm). rewrite E.
  change (startsWith (str "/send" ++ m ++ rest) (str "/start")) with false.
  rewrite (startsWith_app (str "/send") (m ++ rest)). cbv iota.
  destruct (trim rest); reflexivity.
Qed.

Lemma parseCommand_send_witness :
  trim (str "  /send@my_bot  hello world ") = str "/send" ++ str "@my_bot" ++ str "  hello world"
  /\ mentionAt (str "@my_bot") (str "  hello world")
  /\ parseCommand (fun s => s) (str "  /send@my_bot  hello world ")
     = CommandSend (str "hello world").
Proof.
  assert (E : trim (str "  /send@my_bot  hello world ")
              = str "/send" ++ str "@my_bot" ++ str "  hello world")
    by (vm_compute; reflexivity).
  assert (Hm : mentionAt (str "@my_bot") (str "  hello world")).
  { right. exists (str "my_bot"). repeat split; try (vm_compute; reflexivity).
    discriminate. }
  split; [exact E|]. split; [exact Hm|].
  rewrite (parseCommand_send (fun s => s) _ _ _ E Hm). vm_compute. reflexivity.
Defined.

Lemma trimStart_stops s : notAhead isSpace (trimStart s).
Proof.
  induction s as [|c s IH]; [exact I|]. simpl.
  destruct (isSpace c) eqn:E; [exact IH|exact E].
Qed.

Lemma trimEnd_idem s : trimEnd (trimEnd s) = trimEnd s.
Proof.
  induction s as [|c s IH]; [reflexivity|]. cbn [trimEnd].
  destruct (trimEnd s) as [|d t] eqn:E.
  - destruct (isSpace c) eqn:Ec; [reflexivity|]. simpl. rewrite Ec. reflexivity.
  - cbn [trimEnd]. cbn [trimEnd] in IH. rewrite IH. reflexivity.
Qed.

Lemma trim_idem s : trim (trim s) = trim s.
Proof.
  rewrite !trim_trimEnd.
  rewrite (trimStart_notAhead (trimEnd (trimStart s)))
    by apply trimEnd_notAhead, trimStart_stops.
  apply trimEnd_idem.
Qed.

(** X18: the message of a send command is never empty and has no white
    space at either end, and the trimmed input starts with [/send]. *)
Theorem send_message_trimmed (toLowerCase : jsstring -> jsstring)
    (raw t : jsstring) :
  parseCommand toLowerCase raw = CommandSend t ->
  t <> [] /\ trim t = t /\ startsWith (trim raw) (str "/send") = true.
Proof.
  unfold parseCommand. cbv zeta.
  destruct (startsWith (trim raw) (str "/start")); [discriminate|].
  destruct (startsWith (trim raw) (str "/send")).
  - set (payload := trim (replaceFirst (trim raw) (commandRe "/send") [])).
    assert (Hp : trim payload = payload) by apply trim_idem.
    destruct payload as [|c p]; simpl; [discriminate|].
    intros [= <-]. repeat split; auto; discriminate.
  - destruct (startsWith (trim raw) (str "/clean")); [|discriminate].
    repeat match goal with |- context [if ?b then _ else _] => destruct b end;
      discriminate.
Qed.

Lemma send_message_trimmed_witness :
  parseCommand (fun s => s) (str " /sendfoo  bar  ") = CommandSend (str "foo  bar")
  /\ trim (str "foo  bar") = str "foo  bar".
Proof.
  assert (H : parseCommand (fun s => s) (str " /sendfoo  bar  ") = CommandSend (str "foo  bar"))
    by (vm_compute; reflexivity).
  split; [exact H|].
  exact (proj1 (proj2 (send_message_trimmed _ _ _ H))).
Defined.

(** X19: a text that, trimmed, is [/clean], an optional bot mention and
    a rest gives the clean command with the setting that the trimmed
    rest, in lower case, asks for. *)
Theorem parseCommand_clean (toLowerCase : jsstring -> jsstring)
    (raw m rest : jsstring) :
  trim raw = str "/clean" ++ m ++ rest -> mentionAt m rest ->
  parseCommand toLowerCase raw = CommandClean (cleanSetting (toLowerCase (trim rest))).
Proof.
  intros E Hm. unfold parseCommand. cbv zeta.
  rewrite (command_payload "/clean" _ m rest E Hm). rewrite E.
  change (startsWith (str "/clean" ++ m ++ rest) (str "/start")) with false.
  change (startsWith (str "/clean" ++ m ++ rest) (str "/send")) with false.
  rewrite (startsWith_app (str "/clean") (m ++ rest)). cbv iota.
  unfold cleanSetting.
  repeat match goal with |- context [if ?b then _ else _] => destruct b end;
    reflexivity.
Qed.

Lemma parseCommand_clean_witness :
  trim (str "/clean@my_bot off") = str "/clean" ++ str "@my_bot" ++ str " off"
  /\ mentionAt (str "@my_bot") (str " off")
  /\ parseCommand (fun s => s) (str "/clean@my_bot off") = CommandClean (Some false).
Proof.
  assert (E : trim (str "/clean@my_bot off") = str "/clean" ++ str "@my_bot" ++ str " off")
    by (vm_compute; reflexivity).
  assert (Hm : mentionAt (str "@my_bot") (str " off")).
  { right. exists (str "my_bot"). repeat split; try (vm_compute; reflexivity).
    discriminate. }
  split; [exact E|]. split; [exact Hm|].
  rewrite (parseCommand_clean (fun s => s) _ _ _ E Hm). vm_compute. reflexivity.
Defined.

(** ** Elements with a lazy content group *)

Lemma searchFrom_ext re re' :
  (forall pre suf, matchAt re pre suf = matchAt re' pre suf) ->
  forall suf pre, searchFrom re pre suf = searchFrom re' pre suf.
Proof.
  intros H. induction suf as [|x suf IH]; intros pre; simpl; rewrite H.
  - reflexivity.
  - destruct (matchAt re' pre (x :: suf)); [reflexivity|apply IH].
Qed.

Lemma String_match_ext re re' s :
  (forall pre suf, matchAt re pre suf = matchAt re' pre suf) ->
  String_match s re = String_match s re'.
Proof. intros H. unfold String_match. rewrite (searchFrom_ext re re' H). reflexivity. Qed.

Section Element.

Variable opening : regex.
Variable close : jsstring.
Variable isOpening : jsstring -> Prop.

(** The opening part sets no capture and matches what [isOpening] says. *)
Hypothesis opening_sound : forall pre o post c,
  matches true opening pre o post no_captures c -> isOpening o /\ c = no_captures.
Hypothesis opening_complete : forall pre o post,
  isOpening o -> matches true opening pre o post no_captures no_captures.
Hypothesis close_nonempty : close <> [].

Lemma element_matchAt pre suf s' :
  matchAt (elementRe opening close) pre suf = Some s' ->
  exists o content e,
    suf = o ++ content ++ e ++ m_suf s' /\ isOpening o /\ ciEq close e
    /\ m_caps s' 1%nat = Some content /\ ~ containsCi close content.
Proof.
  unfold matchAt. cbn [source ignoreCase elementRe]. intros H.
  apply run_seq_sound in H as (o & post1 & c1 & -> & Ho & H).
  apply opening_sound in Ho as (Ho & ->).
  cbn [run m_pre m_suf m_caps] in H.
  apply star_run_lazy in H as (content & post & -> & _ & Hk & Hmin).
  destruct (lit_run true close (rev content ++ rev o ++ pre) post) as [[p1 q1]|] eqn:El;
    [|discriminate].
  injection Hk as <-. cbn [m_caps m_suf].
  apply lit_run_sound in El as (e & -> & _ & He). apply lit_match_ciEq in He.
  exists o, content, e. split; [reflexivity|]. split; [exact Ho|]. split; [exact He|].
  split; [rewrite consumed_app; reflexivity|].
  intros (b1 & e' & b2 & -> & He').
  assert (Hne : e' ++ b2 <> []).
  { apply ciEq_length in He'. destruct close; [congruence|].
    destruct e'; discriminate. }
  specialize (Hmin b1 (e' ++ b2) eq_refl Hne).
  rewrite <- app_assoc in Hmin.
  rewrite (lit_run_complete true close (rev b1 ++ rev o ++ pre) e' (b2 ++ e ++ q1)) in Hmin
    by (apply lit_match_ciEq; exact He').
  discriminate.
Qed.

Lemma element_matches html gap content post :
  elementAt isOpening close html gap content post ->
  exists t, html = gap ++ t ++ post
    /\ matches true (source (elementRe opening close)) (rev gap) t post
         no_captures (set_capture 1 content no_captures).
Proof.
  intros (o & e & -> & Ho & He).
  exists (o ++ content ++ e). split; [rewrite <- !app_assoc; reflexivity|].
  cbn [source elementRe matches].
  exists o, (content ++ e), no_captures. split; [reflexivity|].
  split; [apply opening_complete; exact Ho|].
  exists content, e, (set_capture 1 content no_captures). split; [reflexivity|].
  split.
  - exists no_captures. split; [split; [apply forallb_anyChar|reflexivity]|reflexivity].
  - split; [apply lit_match_ciEq; exact He|reflexivity].
Qed.

Lemma element_spec html :
  captureResult isOpening close html
    (group (String_match html (elementRe opening close)) 1).
Proof.
  set (re := elementRe opening close). unfold String_match, group.
  destruct (searchFrom re [] html) as [[p s']|] eqn:E.
  - apply searchFrom_sound in E as (gap & rest & -> & -> & Hm & Hmin).
    pose proof Hm as Hm'.
    apply element_matchAt in Hm' as (o & content & e & -> & Ho & He & -> & Hno).
    exists gap, (m_suf s'). split; [exists o, e; auto|]. split; [exact Hno|].
    intros gap' content' post' Hat. apply element_matches in Hat as (t' & Hs' & Hm').
    destruct (Nat.le_gt_cases (length gap) (length gap')) as [|Hlt]; [assumption|].
    exfalso. symmetry in Hs'.
    destruct (prefix_split _ _ _ _ Hs' Hlt) as (g2 & Hg2 & -> & Hrest).
    specialize (Hmin gap' g2 eq_refl Hg2). rewrite app_nil_r in Hmin.
    rewrite <- Hrest in Hmin. eapply (matchAt_complete re); [|exact Hmin]. exact Hm'.
  - intros gap content post Hat. apply element_matches in Hat as (t & -> & Hm).
    eapply searchFrom_none in E; [|reflexivity]. rewrite app_nil_r in E.
    eapply (matchAt_complete re); [|exact E]. exact Hm.
Qed.

(** A match always has its group. *)
Lemma element_group html c :
  String_match html (elementRe opening close) = Some c ->
  exists content, c 1%nat = Some content.
Proof.
  unfold String_match.
  destruct (searchFrom _ [] html) as [[p s']|] eqn:E; [|discriminate]. intros [= <-].
  apply searchFrom_sound in E as (gap & rest & _ & _ & Hm & _).
  apply element_matchAt in Hm as (o & content & e & _ & _ & _ & Hc & _). eauto.
Qed.

End Element.

Lemma ciEq_gt t : ciEq (str ">") t -> t = str ">".
Proof.
  intros H. inversion H as [|a x l t' Hc Ht]; subst. inversion Ht; subst.
  apply canon_symbol in Hc; [subst x; reflexivity|vm_compute; auto|vm_compute; auto].
Qed.

Lemma classOpenRe_sound name1 name2 pre o post c :
  matches true (classOpenRe name1 name2) pre o post no_captures c ->
  classOpen name1 name2 o /\ c = no_captures.
Proof.
  unfold classOpenRe, lit. cbn [matches].
  intros (k & r1 & c1 & -> & (Hk & ->)
        & t2 & r2 & c2 & -> & ((q1 & -> & Q1) & ->)
        & n & r3 & c3 & -> & Hn
        & t4 & r4 & c4 & -> & ((q2 & -> & Q2) & ->)
        & a & g & c5 & -> & (Ha & ->) & Hg & ->).
  apply lit_match_ciEq in Hk, Hg. apply ciEq_gt in Hg. subst g.
  assert (Hn' : (ciEq name1 n \/ ciEq name2 n) /\ c3 = no_captures).
  { destruct Hn as [[H ->]|[H ->]]; apply lit_match_ciEq in H; auto. }
  destruct Hn' as [Hn' ->]. split; [|reflexivity].
  exists k, q1, n, q2, a. repeat split; auto.
Qed.

Lemma classOpenRe_complete name1 name2 pre o post :
  classOpen name1 name2 o ->
  matches true (classOpenRe name1 name2) pre o post no_captures no_captures.
Proof.
  intros (k & q1 & n & q2 & a & -> & Hk & Q1 & Hn & Q2 & Ha).
  apply lit_match_ciEq in Hk.
  unfold classOpenRe, lit. cbn [matches].
  seq_step k; [auto|]. seq_step [q1]; [eauto|].
  seq_step n; [destruct Hn as [H|H]; apply lit_match_ciEq in H; auto|].
  seq_step [q2]; [eauto|].
  exists a, (str ">"). eexists. split; [reflexivity|]. split; [auto|].
  split; [apply lit_match_ciEq, ciEq_refl|reflexivity].
Qed.

Lemma titleOpenRe_sound pre o post c :
  matches true titleOpenRe pre o post no_captures c ->
  titleOpen o /\ c = no_captures.
Proof.
  unfold titleOpenRe, lit. cbn [matches].
  intros (k & r1 & c1 & -> & (Hk & ->) & a & g & c2 & -> & (Ha & ->) & Hg & ->).
  apply lit_match_ciEq in Hk, Hg. apply ciEq_gt in Hg. subst g.
  split; [|reflexivity]. exists k, a. auto.
Qed.

Lemma titleOpenRe_complete pre o post :
  titleOpen o -> matches true titleOpenRe pre o post no_captures no_captures.
Proof.
  intros (k & a & -> & Hk & Ha). apply lit_match_ciEq in Hk.
  unfold titleOpenRe, lit. cbn [matches].
  seq_step k; [auto|].
  exists a, (str ">"). eexists. split; [reflexivity|]. split; [auto|].
  split; [apply lit_match_ciEq, ciEq_refl|reflexivity].
Qed.

Lemma titleClassRe_element s :
  String_match s titleClassRe
  = String_match s (elementRe (classOpenRe (str "kp-notebook-title") (str "bookTitle"))
                      (str "</div>")).
Proof. apply String_match_ext. reflexivity. Qed.

Lemma titleTagRe_element s :
  String_match s titleTagRe = String_match s (elementRe titleOpenRe (str "</title>")).
Proof. apply String_match_ext. reflexivity. Qed.

Lemma authorClassRe_element s :
  String_match s authorClassRe
  = String_match s (elementRe (classOpenRe (str "authors") (str "kp-notebook-subtitle"))
                      (str "</div>")).
Proof. apply String_match_ext. reflexivity. Qed.

(** X20: the title is the normalized content, up to the first closing
    [div] tag, of the leftmost element whose class is [kp-notebook-title]
    or [bookTitle]; without one, the normalized content of the leftmost
    [title] element up to its first closing tag; without that either,
    the default. *)
Theorem extractTitle_sources (html : jsstring) :
  exists byClass byTag,
    captureResult (classOpen (str "kp-notebook-title") (str "bookTitle"))
      (str "</div>") html byClass
    /\ captureResult titleOpen (str "</title>") html byTag
    /\ extractTitle html
       = cleanText match byClass, byTag with
                   | Some content, _ => content
                   | None, Some content => content
                   | None, None => str "Kindle Notebook"
                   end.
Proof.
  exists (group (String_match html titleClassRe) 1), (group (String_match html titleTagRe) 1).
  split; [|split].
  - rewrite titleClassRe_element.
    apply (element_spec _ _ _ (classOpenRe_sound _ _) (classOpenRe_complete _ _)).
    discriminate.
  - rewrite titleTagRe_element.
    apply (element_spec _ _ _ titleOpenRe_sound titleOpenRe_complete).
    discriminate.
  - unfold extractTitle, titleMatch, or_else, defaultTitle.
    destruct (String_match html titleClassRe) as [c|] eqn:E1.
    + rewrite titleClassRe_element in E1.
      apply (element_group _ _ _ (classOpenRe_sound _ _)) in E1 as (content & Hc);
        [|discriminate].
      simpl. rewrite Hc. reflexivity.
    + simpl. destruct (String_match html titleTagRe) as [c|] eqn:E2; [|reflexivity].
      rewrite titleTagRe_element in E2.
      apply (element_group _ _ _ titleOpenRe_sound) in E2 as (content & Hc);
        [|discriminate].
      simpl. rewrite Hc. reflexivity.
Qed.

(** X21: when the document has an element whose class is [authors] or
    [kp-notebook-subtitle], the author is the normalized content of the
    leftmost one up to the first closing [div] tag, and is absent when
    that content is empty, whatever a [meta] tag says. *)
Theorem extractAuthor_by_class (html : jsstring) :
  exists byClass,
    captureResult (classOpen (str "authors") (str "kp-notebook-subtitle"))
      (str "</div>") html byClass
    /\ forall content, byClass = Some content ->
         extractAuthor html = match content with
                              | [] => None
                              | _ :: _ => Some (cleanText content)
                              end.
Proof.
  exists (group (String_match html authorClassRe) 1). split.
  - rewrite authorClassRe_element.
    apply (element_spec _ _ _ (classOpenRe_sound _ _) (classOpenRe_complete _ _)).
    discriminate.
  - intros content Hc. unfold extractAuthor, authorMatch, or_else.
    destruct (String_match html authorClassRe) as [c|]; [|discriminate].
    simpl in *. rewrite Hc. destruct content; reflexivity.
Qed.

(** ** The sender's address *)

Lemma addressRe_head_fails pre suf :
  match suf with x :: _ => x <> 60 | [] => True end ->
  matchAt addressRe pre suf = None.
Proof.
  intros H. unfold matchAt, addressRe, lit. cbn [source ignoreCase].
  change (run false (Lit (60 :: [])) (run false (Grp 1 (Plus notGt) >> Lit (str ">")) Some)
            (MState pre suf no_captures) = None).
  apply run_lit_head. destruct suf as [|x suf]; [exact I|].
  unfold chr_eq. apply (proj2 (N.eqb_neq 60 x)). auto.
Qed.

Lemma searchFrom_address_skip name : forall pre rest,
  ~ In 60 name ->
  searchFrom addressRe pre (name ++ rest) = searchFrom addressRe (rev name ++ pre) rest.
Proof.
  induction name as [|x name IH]; intros pre rest H; [reflexivity|].
  simpl. rewrite addressRe_head_fails.
  - rewrite IH, <- app_assoc; [reflexivity|]. intros Hin. apply H. right. exact Hin.
  - intros ->. apply H. left. reflexivity.
Qed.

Lemma star_run_greedy_at {A} p (k : list N -> list N -> option A) t : forall pre rest x,
  forallb p t = true -> notAhead p rest ->
  k (rev t ++ pre) rest = Some x ->
  star_run true p k pre (t ++ rest) = Some x.
Proof.
  induction t as [|y t IH]; intros pre rest x Ht Hr Hk.
  - simpl in *. destruct rest as [|z rest]; [exact Hk|].
    simpl in Hr. simpl. rewrite Hr. exact Hk.
  - simpl in Ht. apply andb_prop in Ht as [Py Ht]. simpl. rewrite Py.
    rewrite (IH (y :: pre) rest x Ht Hr); [reflexivity|].
    simpl in Hk. rewrite <- app_assoc in Hk. exact Hk.
Qed.

Lemma chr_eq_refl ic a : chr_eq ic a a = true.
Proof. unfold chr_eq. destruct ic; apply N.eqb_refl. Qed.

Lemma notGt_spec x : notGt x = true <-> x <> 62.
Proof.
  unfold notGt, noneOf, oneOf. simpl. rewrite orb_false_r, negb_true_iff.
  apply N.eqb_neq.
Qed.

(** X22: from a header that holds no [<] the address is the whole
    header, trimmed and in lower case. *)
Theorem address_without_brackets (toLowerCase : jsstring -> jsstring)
    (header : jsstring) :
  ~ In 60 header ->
  extractEmailAddress toLowerCase header = toLowerCase (trim header).
Proof.
  intros H. unfold extractEmailAddress, String_match.
  pose proof (searchFrom_address_skip header [] [] H) as Hs.
  rewrite app_nil_r in Hs. rewrite Hs.
  change (searchFrom addressRe (rev header ++ []) [])
    with (match matchAt addressRe (rev header ++ []) [] with
          | Some s' => Some (rev header ++ [], s')
          | None => None
          end).
  rewrite addressRe_head_fails by exact I. reflexivity.
Qed.

Lemma address_without_brackets_witness :
  ~ In 60 (str "  Reader@Example.org ")
  /\ extractEmailAddress (fun s => s) (str "  Reader@Example.org ")
     = str "Reader@Example.org".
Proof.
  assert (H : ~ In 60 (str "  Reader@Example.org ")) by (vm_compute; intuition discriminate).
  split; [exact H|].
  rewrite (address_without_brackets (fun s => s) _ H). vm_compute. reflexivity.
Defined.

(** X23: from a header with a display name that holds no [<], then an
    address in angle brackets, the address is what stands between the
    brackets, in lower case. *)
Theorem address_in_brackets (toLowerCase : jsstring -> jsstring)
    (name addr post : jsstring) :
  ~ In 60 name -> addr <> [] -> ~ In 62 addr ->
  extractEmailAddress toLowerCase (name ++ str "<" ++ addr ++ str ">" ++ post)
  = toLowerCase addr.
Proof.
  intros Hname Hne Haddr. unfold extractEmailAddress, String_match.
  rewrite (searchFrom_address_skip name [] _ Hname), app_nil_r.
  destruct addr as [|x t]; [congruence|].
  assert (Hx : notGt x = true).
  { apply notGt_spec. intros ->. apply Haddr. left. reflexivity. }
  assert (Ht : forallb notGt t = true).
  { apply forallb_forall. intros y Hy. apply notGt_spec. intros ->.
    apply Haddr. right. exact Hy. }
  assert (Hm : matchAt addressRe (rev name) (str "<" ++ (x :: t) ++ str ">" ++ post)
               = Some (MState (62 :: rev t ++ x :: 60 :: rev name) post
                         (set_capture 1 (x :: t) no_captures))).
  { unfold matchAt, addressRe, lit. cbn [source ignoreCase].
    cbn [run lit_run m_pre m_suf m_caps app str List.map list_ascii_of_string].
    rewrite chr_eq_refl. cbn [m_pre m_suf m_caps]. rewrite Hx.
    erewrite (star_run_greedy_at notGt _ t (x :: N_of_ascii "<" :: rev name)
                (N_of_ascii ">" :: post));
      [reflexivity|exact Ht|reflexivity|].
    rewrite chr_eq_refl. do 2 f_equal.
    replace (rev t ++ x :: N_of_ascii "<" :: rev name)
      with (rev (x :: t) ++ N_of_ascii "<" :: rev name)
      by (simpl; rewrite <- app_assoc; reflexivity).
    rewrite (consumed_app (N_of_ascii "<" :: rev name) (x :: t)). reflexivity. }
  assert (Hs : searchFrom addressRe (rev name) (str "<" ++ (x :: t) ++ str ">" ++ post)
               = Some (rev name, MState (62 :: rev t ++ x :: 60 :: rev name) post
                         (set_capture 1 (x :: t) no_captures))).
  { change (str "<" ++ (x :: t) ++ str ">" ++ post)
      with (60 :: (x :: t) ++ str ">" ++ post) in *.
    cbn [searchFrom]. rewrite Hm. reflexivity. }
  rewrite Hs. reflexivity.
Qed.

Lemma address_in_brackets_witness :
  ~ In 60 (str "Kindle Reader ") /\ str "Reader@Example.org" <> [] /\ ~ In 62 (str "Reader@Example.org")
  /\ extractEmailAddress (fun s => s)
       (str "Kindle Reader " ++ str "<" ++ str "Reader@Example.org" ++ str ">" ++ [])
     = str "Reader@Example.org".
Proof.
  assert (H1 : ~ In 60 (str "Kindle Reader ")) by (vm_compute; intuition discriminate).
  assert (H2 : str "Reader@Example.org" <> []) by discriminate.
  assert (H3 : ~ In 62 (str "Reader@Example.org")) by (vm_compute; intuition discriminate).
  split; [exact H1|]. split; [exact H2|]. split; [exact H3|].
  exact (address_in_brackets (fun s => s) _ _ [] H1 H2 H3).
Defined.

(** ** The match the scan takes *)

Lemma bodyTail_complete pre c e1 ws o2 b e2 r :
  ciEq (str "</div>") e1 -> forallb isSpace ws = true ->
  openTag (str "noteText") o2 -> ciEq (str "</div>") e2 ->
  matches true bodyTailRe pre (e1 ++ ws ++ o2 ++ b ++ e2) r c (set_capture 2 b c).
Proof.
  intros E1 Hws O2 E2.
  destruct O2 as (d & a1 & k & q1 & n & q2 & a2 & -> & D & A1 & K & Q1 & N' & Q2 & A2).
  apply lit_match_ciEq in D, K, N', E1, E2.
  unfold bodyTailRe, lit. cbn [matches]. rewrite <- !app_assoc.
  seq_step e1; [auto|]. seq_step ws; [auto|].
  seq_step d; [auto|]. seq_step a1; [auto|]. seq_step k; [auto|].
  seq_step [q1]; [eauto|]. seq_step n; [auto|]. seq_step [q2]; [eauto|].
  seq_step a2; [auto|].
  seq_step (str ">"); [split; [apply lit_match_ciEq, ciEq_refl|reflexivity]|].
  exists b, e2. eexists. split; [reflexivity|]. split.
  - eexists; split; [split; [apply forallb_anyChar|reflexivity]|reflexivity].
  - auto.
Qed.

Lemma bodyAhead_run pre s c :
  bodyAhead s -> run true bodyTailRe Some (MState pre s c) <> None.
Proof.
  intros (e1 & ws & o2 & b & e2 & r & -> & E1 & Hws & O2 & E2) H.
  pose proof (bodyTail_complete pre c e1 ws o2 b e2 r E1 Hws O2 E2) as Hm.
  replace (e1 ++ ws ++ o2 ++ b ++ e2 ++ r) with ((e1 ++ ws ++ o2 ++ b ++ e2) ++ r) in H
    by (rewrite <- !app_assoc; reflexivity).
  apply (run_complete true _ _ _ _ _ _ _ Hm) in H. discriminate.
Qed.

Lemma closeAhead_run pre s :
  closeAhead s -> lit_run true (str "</div>") pre s <> None.
Proof.
  intros (e & r & -> & He) H.
  rewrite (lit_run_complete true (str "</div>") pre e r) in H
    by (apply lit_match_ciEq; exact He).
  discriminate.
Qed.

(** What one attempt of the block pattern takes. *)
Lemma headingBlock_exact pre suf s' :
  matchAt headingBlock pre suf = Some s' ->
  exists h b, blockMatch suf h b (m_suf s')
    /\ m_caps s' = set_capture 2 b (set_capture 1 h no_captures).
Proof.
  unfold matchAt. cbn [source ignoreCase headingBlock].
  change (run true
            (lit "<div" >> Star true notGt >> lit "class=" >> Cls quote
             >> lit "noteHeading" >> Cls quote >> Star true notGt >> lit ">"
             >> Grp 1 (Star false anyChar) >> bodyTailRe)
            Some (MState pre suf no_captures) = Some s' ->
          exists h b, blockMatch suf h b (m_suf s')
            /\ m_caps s' = set_capture 2 b (set_capture 1 h no_captures)).
  unfold lit. intros H.
  peel_lit run_seq_sound H d1 D1. peel_lit run_seq_sound H a1 A1.
  peel_lit run_seq_sound H k1 K1. peel_cls run_seq_sound H q1 Q1.
  peel_lit run_seq_sound H n1 N1. peel_cls run_seq_sound H q2 Q2.
  peel_lit run_seq_sound H a2 A2. peel_lit run_seq_sound H g1 G1.
  cbn [run m_pre m_suf m_caps] in H.
  apply star_run_lazy in H as (h & post & -> & _ & Hk & Hmin).
  rewrite consumed_app in Hk.
  unfold bodyTailRe, lit in Hk.
  peel_lit run_seq_sound Hk e1 E1. peel_lit run_seq_sound Hk ws Hws.
  peel_lit run_seq_sound Hk d2 D2. peel_lit run_seq_sound Hk a3 A3.
  peel_lit run_seq_sound Hk k2 K2. peel_cls run_seq_sound Hk q3 Q3.
  peel_lit run_seq_sound Hk n2 N2. peel_cls run_seq_sound Hk q4 Q4.
  peel_lit run_seq_sound Hk a4 A4. peel_lit run_seq_sound Hk g2 G2.
  cbn [run m_pre m_suf m_caps] in Hk.
  apply star_run_lazy in Hk as (b & post2 & -> & _ & Hk & Hmin2).
  match type of Hk with
  | match lit_run true ?l ?p ?q with _ => _ end = _ =>
      destruct (lit_run true l p q) as [[p1 r1]|] eqn:El; [|discriminate]
  end.
  injection Hk as <-. cbn [m_suf m_caps].
  apply lit_run_sound in El as (e2 & -> & _ & E2).
  apply lit_match_ciEq in D1, K1, N1, G1, E1, D2, K2, N2, G2, E2.
  apply ciEq_gt in G1, G2. subst g1 g2.
  exists h, b. split.
  - exists (d1 ++ a1 ++ k1 ++ [q1] ++ n1 ++ [q2] ++ a2 ++ str ">"), e1, ws,
           (d2 ++ a3 ++ k2 ++ [q3] ++ n2 ++ [q4] ++ a4 ++ str ">"), e2.
    split; [rewrite <- !app_assoc; reflexivity|].
    split; [exists d1, a1, k1, q1, n1, q2, a2; repeat split; assumption|].
    split; [assumption|]. split; [assumption|].
    split; [exists d2, a3, k2, q3, n2, q4, a4; repeat split; assumption|].
    split; [assumption|]. split.
    + intros h1 h2 -> Hne Hahead.
      specialize (Hmin h1 h2 eq_refl Hne). cbv beta in Hmin.
      eapply bodyAhead_run; [|exact Hmin].
      rewrite <- ?app_assoc in Hahead. rewrite <- ?app_assoc. exact Hahead.
    + intros b1 b2 -> Hne Hahead.
      specialize (Hmin2 b1 b2 eq_refl Hne). cbv beta in Hmin2.
      match type of Hmin2 with
      | match lit_run true ?l ?p ?q with _ => _ end = _ =>
          destruct (lit_run true l p q) as [[p2 r2]|] eqn:El2; [discriminate|]
      end.
      eapply closeAhead_run; [|exact El2]. exact Hahead.
  - rewrite consumed_app. reflexivity.
Qed.

(** ** The match is the only one of its kind *)

Lemma ciEq_no_symbol c l t :
  (c < 65 \/ 90 < c) -> (c < 97 \/ 122 < c) ->
  ciEq l t -> ~ In c l -> ~ In c t.
Proof.
  intros Hu Hl. unfold ciEq. induction 1 as [|a x l t Hc _ IH]; [auto|].
  intros Hnot [->|Hin].
  - apply Hnot. left. symmetry in Hc. apply (canon_symbol c a Hu Hl Hc).
  - apply IH; auto. intros ?. apply Hnot. right. assumption.
Qed.

Lemma forallb_notGt a : forallb notGt a = true -> ~ In 62 a.
Proof.
  intros H Hin. rewrite forallb_forall in H. specialize (H _ Hin). discriminate.
Qed.

Lemma not_in_app (c : N) a b : ~ In c a -> ~ In c b -> ~ In c (a ++ b).
Proof. intros Ha Hb H. apply in_app_or in H as [H|H]; auto. Qed.

(** An opening tag is its text up to the first [>], and starts with [<]. *)
Lemma openTag_shape cls o :
  ~ In 62 cls -> openTag cls o ->
  exists x, o = 60 :: x ++ [62] /\ ~ In 62 x.
Proof.
  intros Hcls (d & a1 & k & q1 & n & q2 & a2 & -> & D & A1 & K & Q1 & Nn & Q2 & A2).
  assert (Hd : exists d', d = 60 :: d' /\ ~ In 62 d').
  { pose proof (ciEq_no_symbol 62 _ _ ltac:(lia) ltac:(lia) D
                  ltac:(vm_compute; intuition discriminate)) as Hno.
    inversion D as [|a x l t Hc Ht]; subst.
    apply canon_symbol in Hc; [|vm_compute; auto|vm_compute; auto]. subst x.
    exists t. split; [reflexivity|]. intros Hin. apply Hno. right. exact Hin. }
  destruct Hd as (d' & -> & Hd).
  exists (d' ++ a1 ++ k ++ [q1] ++ n ++ [q2] ++ a2). split.
  - simpl. rewrite <- ?app_assoc. simpl. rewrite <- ?app_assoc. reflexivity.
  - repeat apply not_in_app; auto using forallb_notGt.
    + eapply (ciEq_no_symbol 62); [lia|lia|exact K|]. vm_compute. intuition discriminate.
    + intros [->|[]]. vm_compute in Q1. discriminate.
    + eapply (ciEq_no_symbol 62); [lia|lia|exact Nn|exact Hcls].
    + intros [->|[]]. vm_compute in Q2. discriminate.
Qed.

Lemma first_symbol_unique (c : N) x : forall x' r r',
  x ++ c :: r = x' ++ c :: r' -> ~ In c x -> ~ In c x' -> x = x' /\ r = r'.
Proof.
  induction x as [|y x IH]; intros [|y' x'] r r' E Hx Hx'; simpl in E.
  - injection E as ->. auto.
  - injection E as <- _. exfalso. apply Hx'. left. reflexivity.
  - injection E as -> _. exfalso. apply Hx. left. reflexivity.
  - injection E as -> E. destruct (IH x' r r' E) as [-> ->]; auto.
    + intros ?. apply Hx. right. assumption.
    + intros ?. apply Hx'. right. assumption.
Qed.

Lemma class_run_unique p w : forall w' rest rest',
  w ++ rest = w' ++ rest' ->
  forallb p w = true -> forallb p w' = true ->
  notAhead p rest -> notAhead p rest' ->
  w = w' /\ rest = rest'.
Proof.
  induction w as [|x w IH]; intros [|y w'] rest rest' E Hw Hw' Hr Hr'; simpl in *.
  - auto.
  - subst rest. simpl in Hr. apply andb_prop in Hw' as [Hy _]. congruence.
  - subst rest'. simpl in Hr'. apply andb_prop in Hw as [Hx _]. congruence.
  - injection E as -> E. apply andb_prop in Hw as [_ Hw]. apply andb_prop in Hw' as [_ Hw'].
    destruct (IH _ _ _ E Hw Hw' Hr Hr') as [-> ->]. auto.
Qed.

(** The shortest text after which [P] holds is one text only. *)
Lemma shortest_unique (P : jsstring -> Prop) h r h' r' :
  h ++ r = h' ++ r' -> P r -> P r' ->
  (forall h1 h2, h = h1 ++ h2 -> h2 <> [] -> ~ P (h2 ++ r)) ->
  (forall h1 h2, h' = h1 ++ h2 -> h2 <> [] -> ~ P (h2 ++ r')) ->
  h = h' /\ r = r'.
Proof.
  intros E Pr Pr' Hmin Hmin'.
  apply app_eq_app in E as (l & [[-> ->]|[-> ->]]).
  - destruct l as [|x l]; [rewrite app_nil_r; auto|].
    exfalso. apply (Hmin h' (x :: l) eq_refl); [discriminate|exact Pr'].
  - destruct l as [|x l]; [rewrite app_nil_r; auto|].
    exfalso. apply (Hmin' h (x :: l) eq_refl); [discriminate|exact Pr].
Qed.

Lemma same_length_prefix (a b a' b' : jsstring) :
  a ++ b = a' ++ b' -> length a = length a' -> a = a' /\ b = b'.
Proof. intros E Hl. apply app_inj_1; assumption. Qed.

Lemma noteText_no_gt : ~ In 62 (str "noteText").
Proof. vm_compute. intuition discriminate. Qed.

Lemma noteHeading_no_gt : ~ In 62 (str "noteHeading").
Proof. vm_compute. intuition discriminate. Qed.

Lemma blockMatch_unique s h b rest h' b' rest' :
  blockMatch s h b rest -> blockMatch s h' b' rest' ->
  h = h' /\ b = b' /\ rest = rest'.
Proof.
  intros (o1 & e1 & ws & o2 & e2 & -> & O1 & E1 & Hws & O2 & E2 & Hh & Hb)
         (o1' & e1' & ws' & o2' & e2' & E & O1' & E1' & Hws' & O2' & E2' & Hh' & Hb').
  assert (Pr : bodyAhead (e1 ++ ws ++ o2 ++ b ++ e2 ++ rest))
    by (exists e1, ws, o2, b, e2, rest; auto).
  assert (Pr' : bodyAhead (e1' ++ ws' ++ o2' ++ b' ++ e2' ++ rest'))
    by (exists e1', ws', o2', b', e2', rest'; auto).
  assert (Pc : closeAhead (e2 ++ rest)) by (exists e2, rest; auto).
  assert (Pc' : closeAhead (e2' ++ rest')) by (exists e2', rest'; auto).
  destruct (openTag_shape _ _ noteHeading_no_gt O1) as (x1 & -> & Hx1).
  destruct (openTag_shape _ _ noteHeading_no_gt O1') as (x1' & -> & Hx1').
  destruct (openTag_shape _ _ noteText_no_gt O2) as (x2 & Eo2 & Hx2).
  destruct (openTag_shape _ _ noteText_no_gt O2') as (x2' & Eo2' & Hx2').
  simpl in E. injection E as E. rewrite <- !app_assoc in E. simpl in E.
  destruct (first_symbol_unique 62 _ _ _ _ E Hx1 Hx1') as [_ E1h].
  destruct (shortest_unique bodyAhead _ _ _ _ E1h Pr Pr' Hh Hh') as [-> E2h].
  split; [reflexivity|].
  destruct (same_length_prefix _ _ _ _ E2h) as [-> E3].
  { rewrite (ciEq_length _ _ E1), (ciEq_length _ _ E1'). reflexivity. }
  assert (Hn : notAhead isSpace (o2 ++ b ++ e2 ++ rest)) by (rewrite Eo2; reflexivity).
  assert (Hn' : notAhead isSpace (o2' ++ b' ++ e2' ++ rest')) by (rewrite Eo2'; reflexivity).
  destruct (class_run_unique isSpace _ _ _ _ E3 Hws Hws' Hn Hn') as [-> E4].
  rewrite Eo2, Eo2' in E4. simpl in E4. injection E4 as E4.
  rewrite <- !app_assoc in E4. simpl in E4.
  destruct (first_symbol_unique 62 _ _ _ _ E4 Hx2 Hx2') as [_ E5].
  destruct (shortest_unique closeAhead _ _ _ _ E5 Pc Pc' Hb Hb') as [-> E6].
  split; [reflexivity|].
  destruct (same_length_prefix _ _ _ _ E6) as [_ ->]; [|reflexivity].
  rewrite (ciEq_length _ _ E2), (ciEq_length _ _ E2'). reflexivity.
Qed.

Lemma blockMatch_starts s h b rest : blockMatch s h b rest -> blockStarts s.
Proof.
  intros (o1 & e1 & ws & o2 & e2 & -> & O1 & E1 & Hws & O2 & E2 & _).
  exists (o1 ++ h ++ e1 ++ ws ++ o2 ++ b ++ e2), rest, h, b. split.
  - rewrite <- !app_assoc. reflexivity.
  - exists o1, e1, ws, o2, e2. repeat split; auto.
Qed.

Lemma ScanExact_unique s blocks :
  ScanExact s blocks -> forall blocks', ScanExact s blocks' -> blocks = blocks'.
Proof.
  induction 1 as [s Hno|s gap m rest h b blocks Es Hm Hleft _ IH]; intros blocks' H'.
  - inversion H' as [|s' gap' m' rest' h' b' bl Es' Hm' _ _]; subst; [reflexivity|].
    exfalso. eapply Hno; [reflexivity|]. eapply blockMatch_starts; eauto.
  - inversion H' as [s' Hno'|s' gap' m' rest' h' b' bl Es' Hm' Hleft' Hrest']; subst.
    + exfalso. eapply Hno'; [reflexivity|]. eapply blockMatch_starts; eauto.
    + assert (Eg : gap = gap' /\ m = m').
      { apply app_eq_app in Es' as (l & [[E1 E2]|[E1 E2]]).
        - destruct l as [|x l]; [rewrite app_nil_r in E1; auto|].
          exfalso. eapply (Hleft gap' (x :: l) E1); [discriminate|].
          rewrite <- E2. eapply blockMatch_starts; eauto.
        - destruct l as [|x l]; [rewrite app_nil_r in E1; auto|].
          exfalso. eapply (Hleft' gap (x :: l) E1); [discriminate|].
          rewrite <- E2. eapply blockMatch_starts; eauto. }
      destruct Eg as [-> ->].
      destruct (blockMatch_unique _ _ _ _ _ _ _ Hm Hm') as (-> & -> & ->).
      f_equal. apply IH. exact Hrest'.
Qed.

Lemma scan_exact_from n : forall suf pre,
  (length suf < n)%nat ->
  ScanExact suf (blockOf <$> exec_go headingBlock pre suf 0).
Proof.
  induction n as [|n IH]; intros suf pre Hn; [lia|].
  rewrite (exec_go_search _ headingBlock_consumes).
  destruct (searchFrom headingBlock pre suf) as [[p s']|] eqn:E.
  - apply searchFrom_sound in E as (gap & rest & -> & -> & Hm & Hmin).
    pose proof Hm as Hm'.
    apply headingBlock_exact in Hm' as (h & b & Hb & Hc).
    pose proof (headingBlock_consumes _ _ _ Hm) as (x & t & Et & _).
    rewrite Hc. cbn [fmap list_fmap blockOf set_capture Nat.eqb default].
    apply ScanExact_block with (gap := gap) (m := rest) (rest := m_suf s'); auto.
    + intros g1 g2 Hg Hne Hstart.
      eapply blockStarts_matchAt; [exact Hstart|]. eapply Hmin; eauto.
    + apply IH. rewrite Et, !length_app in Hn. simpl in Hn. lia.
  - simpl. apply ScanExact_end. intros gap rest -> Hstart.
    eapply blockStarts_matchAt; [exact Hstart|].
    eapply searchFrom_none; eauto.
Qed.

(** C7: the pairs of the scan are, in document order, the heading and
    body content of the matches taken one after the other, each at the
    first position at or after the end of the last match where a heading
    block, white space only and a body block start, the heading content
    being the shortest after which the body block can follow and the
    body content ending at the first closing tag; and no other list of
    pairs is of this kind. *)
Theorem scanBlocks_exact (html : jsstring) :
  ScanExact html (scanBlocks html)
  /\ forall blocks, ScanExact html blocks -> blocks = scanBlocks html.
Proof.
  assert (H : ScanExact html (scanBlocks html)).
  { unfold scanBlocks, execAll. apply (scan_exact_from (S (length html))). lia. }
  split; [exact H|]. intros blocks Hb. symmetry.
  exact (ScanExact_unique _ _ H _ Hb).
Qed.

(** With a closed element between the two blocks, the one pair of the
    document has the heading content run over the first closing tag,
    and no other list of pairs is a scan of it. *)
Lemma scanBlocks_exact_witness :
  ScanExact divBetweenDoc [(str "H</div><div>x", str "B")]
  /\ forall blocks, ScanExact divBetweenDoc blocks ->
       blocks = [(str "H</div><div>x", str "B")].
Proof.
  assert (E : scanBlocks divBetweenDoc = [(str "H</div><div>x", str "B")])
    by (vm_compute; reflexivity).
  rewrite <- E. exact (scanBlocks_exact divBetweenDoc).
Defined.

(** ** One capture only *)

(** Two occurrences of a closing tag do not overlap: its first character
    is a symbol that the rest of it does not have. *)
Lemma closing_no_overlap c0 tl e e' l r r' :
  (c0 < 65 \/ 90 < c0) -> (c0 < 97 \/ 122 < c0) -> ~ In c0 tl ->
  ciEq (c0 :: tl) e -> ciEq (c0 :: tl) e' ->
  e ++ r = l ++ e' ++ r' -> l <> [] -> (length e <= length l)%nat.
Proof.
  intros Hu Hl Hnot He He' E Hne.
  destruct (Nat.le_gt_cases (length e) (length l)) as [|Hlt]; [assumption|exfalso].
  symmetry in E. apply prefix_split in E as (m & Hm & -> & E); [|assumption].
  destruct l as [|a0 l']; [contradiction|].
  inversion He as [|a x l0 t0 _ Ht]; subst.
  pose proof (ciEq_no_symbol c0 _ _ Hu Hl Ht Hnot) as Hno.
  inversion He' as [|a x l0 t0 Hc _]; subst.
  apply (canon_symbol _ _ Hu Hl) in Hc. subst x.
  destruct m as [|y m]; [contradiction|].
  simpl in E. injection E as <- _.
  apply Hno. apply in_or_app. right. left. reflexivity.
Qed.

Lemma classOpen_shape name1 name2 o :
  ~ In 62 name1 -> ~ In 62 name2 -> classOpen name1 name2 o ->
  exists x, o = x ++ [62] /\ ~ In 62 x.
Proof.
  intros H1 H2 (k & q1 & n & q2 & a & -> & K & Q1 & Nn & Q2 & A).
  exists (k ++ [q1] ++ n ++ [q2] ++ a). split.
  - rewrite <- ?app_assoc. reflexivity.
  - repeat apply not_in_app; auto using forallb_notGt.
    + eapply (ciEq_no_symbol 62); [lia|lia|exact K|]. vm_compute. intuition discriminate.
    + intros [->|[]]. vm_compute in Q1. discriminate.
    + destruct Nn as [Nn|Nn]; eapply (ciEq_no_symbol 62); try exact Nn; auto; lia.
    + intros [->|[]]. vm_compute in Q2. discriminate.
Qed.

Lemma titleOpen_shape o :
  titleOpen o -> exists x, o = x ++ [62] /\ ~ In 62 x.
Proof.
  intros (k & a & -> & K & A).
  exists (k ++ a). split.
  - rewrite <- ?app_assoc. reflexivity.
  - apply not_in_app; auto using forallb_notGt.
    eapply (ciEq_no_symbol 62); [lia|lia|exact K|]. vm_compute. intuition discriminate.
Qed.

(** A document has one capture for an element pattern, or none. *)
Lemma captureResult_unique (opening : jsstring -> Prop) c0 tl html r1 r2 :
  (forall o, opening o -> exists x, o = x ++ [62] /\ ~ In 62 x) ->
  (c0 < 65 \/ 90 < c0) -> (c0 < 97 \/ 122 < c0) -> ~ In c0 tl ->
  captureResult opening (c0 :: tl) html r1 ->
  captureResult opening (c0 :: tl) html r2 -> r1 = r2.
Proof.
  intros Hshape Hu Hl Hnot H1 H2.
  destruct r1 as [c1|], r2 as [c2|]; simpl in H1, H2.
  - destruct H1 as (g1 & p1 & E1 & N1 & L1), H2 as (g2 & p2 & E2 & N2 & L2).
    pose proof (L1 _ _ _ E2) as Le1. pose proof (L2 _ _ _ E1) as Le2.
    destruct E1 as (o1 & e1 & -> & O1 & C1), E2 as (o2 & e2 & E & O2 & C2).
    destruct (same_length_prefix _ _ _ _ E) as [_ E']; [lia|].
    destruct (Hshape _ O1) as (x1 & -> & Hx1), (Hshape _ O2) as (x2 & -> & Hx2).
    rewrite <- !app_assoc in E'. simpl in E'.
    destruct (first_symbol_unique 62 _ _ _ _ E' Hx1 Hx2) as [_ E3].
    f_equal.
    apply app_eq_app in E3 as (l & [[-> E4]|[-> E4]]).
    + destruct l as [|y l]; [rewrite app_nil_r; reflexivity|exfalso].
      pose proof (closing_no_overlap _ _ _ _ (y :: l) _ _ Hu Hl Hnot C2 C1 E4
                    ltac:(discriminate)) as Hlen.
      symmetry in E4.
      destruct (Nat.eq_dec (length e2) (length (y :: l))) as [Heq|Hneq].
      * destruct (same_length_prefix _ _ _ _ E4) as [El _]; [lia|].
        apply N1. exists c2, e2, []. rewrite El, app_nil_r. auto.
      * symmetry in E4. apply prefix_split in E4 as (m & _ & Em & _); [|lia].
        apply N1. exists c2, e2, m. rewrite Em. auto.
    + destruct l as [|y l]; [rewrite app_nil_r; reflexivity|exfalso].
      pose proof (closing_no_overlap _ _ _ _ (y :: l) _ _ Hu Hl Hnot C1 C2 E4
                    ltac:(discriminate)) as Hlen.
      symmetry in E4.
      destruct (Nat.eq_dec (length e1) (length (y :: l))) as [Heq|Hneq].
      * destruct (same_length_prefix _ _ _ _ E4) as [El _]; [lia|].
        apply N2. exists c1, e1, []. rewrite El, app_nil_r. auto.
      * symmetry in E4. apply prefix_split in E4 as (m & _ & Em & _); [|lia].
        apply N2. exists c1, e1, m. rewrite Em. auto.
  - destruct H1 as (g1 & p1 & E1 & _). exfalso. eapply H2; eauto.
  - destruct H2 as (g2 & p2 & E2 & _). exfalso. eapply H1; eauto.
  - reflexivity.
Qed.

Lemma titleClass_capture_unique html r1 r2 :
  captureResult (classOpen (str "kp-notebook-title") (str "bookTitle"))
    (str "</div>") html r1 ->
  captureResult (classOpen (str "kp-notebook-title") (str "bookTitle"))
    (str "</div>") html r2 -> r1 = r2.
Proof.
  apply (captureResult_unique _ 60 (str "/div>")).
  - intros o. apply classOpen_shape; vm_compute; intuition discriminate.
  - lia.
  - lia.
  - vm_compute; intuition discriminate.
Qed.

Lemma titleTag_capture_unique html r1 r2 :
  captureResult titleOpen (str "</title>") html r1 ->
  captureResult titleOpen (str "</title>") html r2 -> r1 = r2.
Proof.
  apply (captureResult_unique _ 60 (str "/title>")).
  - exact titleOpen_shape.
  - lia.
  - lia.
  - vm_compute; intuition discriminate.
Qed.

(** C4: the title of the parsed notebook comes from the first source
    the document has. The document has one capture, or none, for the
    element whose class is [kp-notebook-title] or [bookTitle] (the
    content of the leftmost one, up to the first closing [div] tag) and
    one, or none, for the [title] element (the content of the leftmost
    one, up to its first closing tag). With the first, the title is its
    normalized content, whatever [title] element there is; with the
    second only, the normalized content of that; with neither, the
    default, which is not empty. With a source the title is that
    normalized content and nothing else, so it is empty exactly when the
    content normalizes to nothing. *)
Theorem title_first_source_or_default (html : jsstring) :
  exists byClass byTag,
    (forall r,
       captureResult (classOpen (str "kp-notebook-title") (str "bookTitle"))
         (str "</div>") html r <-> r = byClass)
    /\ (forall r, captureResult titleOpen (str "</title>") html r <-> r = byTag)
    /\ match byClass, byTag with
       | Some content, _ | None, Some content =>
           title (parseKindleHtml html) = cleanText content
           /\ (title (parseKindleHtml html) = [] <-> cleanText content = [])
       | None, None =>
           title (parseKindleHtml html) = str "Kindle Notebook"
           /\ title (parseKindleHtml html) <> []
       end.
Proof.
  exists (group (String_match html titleClassRe) 1), (group (String_match html titleTagRe) 1).
  assert (Hc : captureResult (classOpen (str "kp-notebook-title") (str "bookTitle"))
                 (str "</div>") html (group (String_match html titleClassRe) 1)).
  { rewrite titleClassRe_element.
    apply (element_spec _ _ _ (classOpenRe_sound _ _) (classOpenRe_complete _ _)).
    discriminate. }
  assert (Ht : captureResult titleOpen (str "</title>") html
                 (group (String_match html titleTagRe) 1)).
  { rewrite titleTagRe_element.
    apply (element_spec _ _ _ titleOpenRe_sound titleOpenRe_complete).
    discriminate. }
  split; [|split].
  - intros r. split; [|intros ->; exact Hc].
    intros Hr. exact (titleClass_capture_unique _ _ _ Hr Hc).
  - intros r. split; [|intros ->; exact Ht].
    intros Hr. exact (titleTag_capture_unique _ _ _ Hr Ht).
  - cbn [parseKindleHtml title].
    unfold extractTitle, titleMatch, or_else, defaultTitle.
    destruct (String_match html titleClassRe) as [c|] eqn:E1.
    + rewrite titleClassRe_element in E1.
      apply (element_group _ _ _ (classOpenRe_sound _ _)) in E1 as (content & Hg);
        [|discriminate].
      simpl. rewrite Hg. split; [reflexivity|]. split; auto.
    + simpl. destruct (String_match html titleTagRe) as [c|] eqn:E2.
      * rewrite titleTagRe_element in E2.
        apply (element_group _ _ _ titleOpenRe_sound) in E2 as (content & Hg);
          [|discriminate].
        simpl. rewrite Hg. split; [reflexivity|]. split; auto.
      * simpl. split; [reflexivity|]. vm_compute. discriminate.
Qed.
